(** * Effect Resolution Engine of tl-puzzle (src/App.tsx)

    A shallow embedding of the timeline engine: the instance expander
    [buildBuffInstances], the overwrite resolution [applyOverwriteRules],
    the lane assignment [buildBuffLanes], the stat aggregator
    [computeStatsAtTime] and the snapshot codec
    [serializeState]/[parseState]/[normalizeEvents]; and of the
    application around it: the derived data [buffInstances],
    [buffLanesByStudent] and [inspectStats], the loader
    [handleLoadFromUrl], and the editor's updates of the state
    ([handleDrop], [toggleId], [updateEventBuffTarget],
    [clampEventsToTimeline], [updateTimelineSeconds], [updateTimeStep],
    [removeStudent], [removeExSkill]).

    Conventions of the embedding.
    - A JavaScript [number] is an exact rational ([Q]); NaN and the
      infinities are outside the model.  Comparisons, [Math.min] and
      [Math.max] are exact on doubles, sums and products are idealised.
    - A string is a [string]; template literals are concatenations.
    - An optional property ([x?: T], or a property the code reads through
      [??]) is an [option].
    - A [Map] or a plain object used as a dictionary is an association list
      in insertion order, which is the order JavaScript iterates in.
    - [Array.prototype.sort] is the stable insertion sort.
    - Host functions ([String.prototype.localeCompare], [JSON.stringify],
      [JSON.parse], [btoa], [atob], the text encoder and decoder) are
      parameters. *)

From Stdlib Require Import List String Ascii Bool Arith Lia.
From Stdlib Require Import Permutation Sorted.
From Stdlib Require Import NArith QArith Qround Lqa.
Import ListNotations.

Open Scope string_scope.
Open Scope list_scope.
Open Scope Q_scope.

(** ** Enumerations (App.tsx, lines 4-7) *)

Inductive TargetMode : Type := MSelf | MAll | MStudent | MEnemy.
Inductive EffectKind : Type := KBuff | KDebuff | KAttack.
Inductive BuffStat : Type := SAtk | SCrit | SCritDmg.
Inductive SkillType : Type := Ex | Ns.

(** The string a template literal prints for an enumeration value. *)
Definition EffectKind_str (k : EffectKind) : string :=
  match k with KBuff => "buff" | KDebuff => "debuff" | KAttack => "attack" end.

Definition BuffStat_str (s : BuffStat) : string :=
  match s with SAtk => "atk" | SCrit => "crit" | SCritDmg => "critDmg" end.

Definition TargetMode_eqb (a b : TargetMode) : bool :=
  match a, b with
  | MSelf, MSelf | MAll, MAll | MStudent, MStudent | MEnemy, MEnemy => true
  | _, _ => false
  end.

(** ** Numbers *)

Definition Math_min (a b : Q) : Q := if Qle_bool a b then a else b.
Definition Math_max (a b : Q) : Q := if Qle_bool a b then b else a.

(** [a < b] and [a <= b] as the booleans JavaScript computes. *)
Definition ltb (a b : Q) : bool := negb (Qle_bool b a).
Definition leb (a b : Q) : bool := Qle_bool a b.

(** [clamp] (lines 211-212). *)
Definition clamp (value min max : Q) : Q := Math_max min (Math_min max value).

(** ** Records (lines 9-79) *)

Module Buff.
Record t : Type := mk {
  id : string;
  name : string;
  kind : option EffectKind;
  stat : BuffStat;
  value : Q;
  duration : option Q;
  stackGroup : string;
  target : option TargetMode;
  targetStudentIds : option (list string)
}.
End Buff.

Module ExSkill.
Record t : Type := mk { id : string; name : string; buffs : list Buff.t }.
End ExSkill.

Module NormalAttack.
Record t : Type := mk { hitRate : Q; multiplier : Q }.
End NormalAttack.

Module NSkill.
Record t : Type := mk {
  id : string;
  name : string;
  buffs : list Buff.t;
  stackGroup : string
}.
End NSkill.

Module Stats.
Record t : Type := mk { atk : Q; crit : Q; critDmg : Q }.
End Stats.

Module Student.
Record t : Type := mk {
  id : string;
  name : string;
  stats : Stats.t;
  normal : NormalAttack.t;
  ns : option NSkill.t;
  ex : list ExSkill.t
}.
End Student.

(** The value type of [buffTargets] and [nsTargets]. *)
Module TargetSpec.
Record t : Type := mk {
  target : TargetMode;
  targetStudentIds : option (list string)
}.
End TargetSpec.

Module ExEvent.
Record t : Type := mk {
  id : string;
  studentId : string;
  skillType : SkillType;
  skillId : string;
  start : Q;
  duration : option Q;
  target : TargetMode;
  targetStudentIds : option (list string);
  buffTargets : option (list (string * TargetSpec.t))
}.
End ExEvent.

Module BuffInstance.
Record t : Type := mk {
  id : string;
  studentId : string;
  sourceStudentId : string;
  name : string;
  kind : EffectKind;
  stat : BuffStat;
  value : Q;
  start : Q;
  end_ : Q;
  stackGroup : string;
  source : SkillType;
  sourceId : string;
  sourceEventId : option string;
  sourceBuffId : string
}.

(** The assignment [last.end = e] on a copied instance. *)
Definition set_end (b : t) (e : Q) : t :=
  mk (id b) (studentId b) (sourceStudentId b) (name b) (kind b) (stat b)
     (value b) (start b) e (stackGroup b) (source b) (sourceId b)
     (sourceEventId b) (sourceBuffId b).
End BuffInstance.

Module StatTarget.
Record t : Type := mk { id : string; stats : Stats.t }.
End StatTarget.

(** The [enemy] of the application state (lines 591-599). *)
Module Enemy.
Record t : Type := mk { id : string; name : string; stats : Stats.t }.
End Enemy.

(** An event as [parseState] types it (lines 484-489):
    [Partial<ExEvent> & { exId?: string }]. *)
Module RawEvent.
Record t : Type := mk {
  id : option string;
  studentId : option string;
  skillType : option SkillType;
  skillId : option string;
  exId : option string;
  start : option Q;
  duration : option Q;
  target : option TargetMode;
  targetStudentIds : option (list string);
  buffTargets : option (list (string * TargetSpec.t))
}.
End RawEvent.

(** The object [serializeState] prints (lines 467-476). *)
Module Snapshot.
Record t : Type := mk {
  version : Q;
  students : list Student.t;
  events : list ExEvent.t;
  nsEnabled : list (string * bool);
  nsTargets : list (string * TargetSpec.t);
  timelineSeconds : Q;
  timeStep : Q;
  enemy : Enemy.t
}.
End Snapshot.

(** The object [parseState] reads (lines 482-495); a property that is
    absent, or that the code guards with [??], is [None].  An element of
    [events] is [None] when it is [null]. *)
Module Parsed.
Record t : Type := mk {
  students : option (list Student.t);
  events : option (list (option RawEvent.t));
  nsEnabled : option (list (string * bool));
  nsTargets : option (list (string * TargetSpec.t));
  timelineSeconds : option Q;
  timeStep : option Q;
  enemy : option Enemy.t
}.
End Parsed.

(** What [JSON.parse] returns: [null], or an object read as [Parsed.t]. *)
Inductive Json : Type :=
| JNull
| JObject (parsed : Parsed.t).

(** The part of the application state that is shared and that the engine
    reads (lines 569-599). *)
Module AppState.
Record t : Type := mk {
  students : list Student.t;
  events : list ExEvent.t;
  nsEnabled : list (string * bool);
  nsTargets : list (string * TargetSpec.t);
  timelineSeconds : Q;
  timeStep : Q;
  enemy : Enemy.t
}.
End AppState.

(** The skill an event refers to: [ExSkill | NSkill]. *)
Inductive Skill : Type :=
| SkEx (s : ExSkill.t)
| SkNs (s : NSkill.t).

Definition Skill_id (s : Skill) : string :=
  match s with SkEx e => ExSkill.id e | SkNs n => NSkill.id n end.

Definition Skill_buffs (s : Skill) : list Buff.t :=
  match s with SkEx e => ExSkill.buffs e | SkNs n => NSkill.buffs n end.

(** ** Dictionaries *)

(** [dict[key]] on an association list. *)
Fixpoint dict_get {V : Type} (key : string) (d : list (string * V)) : option V :=
  match d with
  | [] => None
  | (k, v) :: rest => if String.eqb k key then Some v else dict_get key rest
  end.

(** [map.set(key, v)]: an existing key keeps its position, a new key goes
    last. *)
Fixpoint dict_set {V : Type} (key : string) (v : V) (d : list (string * V))
  : list (string * V) :=
  match d with
  | [] => [(key, v)]
  | (k, w) :: rest =>
      if String.eqb k key then (k, v) :: rest else (k, w) :: dict_set key v rest
  end.

(** ** Arrays *)

(** [Array.prototype.sort(compare)]: stable, ascending for [compare]. *)
Fixpoint sort_insert {A : Type} (compare : A -> A -> comparison) (x : A)
  (l : list A) : list A :=
  match l with
  | [] => [x]
  | y :: rest =>
      match compare x y with
      | Gt => y :: sort_insert compare x rest
      | _ => x :: y :: rest
      end
  end.

Fixpoint Array_sort {A : Type} (compare : A -> A -> comparison) (l : list A)
  : list A :=
  match l with
  | [] => []
  | x :: rest => sort_insert compare x (Array_sort compare rest)
  end.

(** [Array.prototype.findIndex]; [None] is the source's [-1]. *)
Fixpoint findIndex {A : Type} (p : A -> bool) (l : list A) : option nat :=
  match l with
  | [] => None
  | x :: rest =>
      if p x then Some O
      else match findIndex p rest with
           | Some i => Some (S i)
           | None => None
           end
  end.

(** [arr[i] = v] for [i] within bounds. *)
Fixpoint array_set {A : Type} (i : nat) (v : A) (l : list A) : list A :=
  match l, i with
  | [], _ => []
  | _ :: rest, O => v :: rest
  | x :: rest, S j => x :: array_set j v rest
  end.

(** [ids.includes(id)]. *)
Definition includes (ids : list string) (id : string) : bool :=
  existsb (String.eqb id) ids.

(** Truthiness of [ids?.length]. *)
Definition has_length (ids : option (list string)) : bool :=
  match ids with
  | Some (_ :: _) => true
  | _ => false
  end.

(** [ids] when [ids?.length] is truthy. *)
Definition ids_or (ids : option (list string)) (fallback : list string)
  : list string :=
  match ids with
  | Some (x :: rest) => x :: rest
  | _ => fallback
  end.

(** ** The engine *)

Section Engine.

Set Default Proof Using "Type".

(** [a.localeCompare(b)], the host's collation of two strings. *)
Variable localeCompare : string -> string -> comparison.

Definition ENEMY_ID : string := "enemy".

(** The skill of [student] that [(skillType, skillId)] names (lines 269-274,
    repeated at lines 518-523). *)
Definition lookupSkill (student : Student.t) (skillType : SkillType)
  (skillId : string) : option Skill :=
  match skillType with
  | Ex =>
      option_map SkEx
        (find (fun item => String.eqb (ExSkill.id item) skillId)
              (Student.ex student))
  | Ns =>
      match Student.ns student with
      | Some ns =>
          if String.eqb (NSkill.id ns) skillId then Some (SkNs ns) else None
      | None => None
      end
  end.

(** *** Target Resolver (lines 278-302) *)

(** [event.buffTargets?.[buff.id]]. *)
Definition override (event : ExEvent.t) (buff : Buff.t) : option TargetSpec.t :=
  match ExEvent.buffTargets event with
  | Some d => dict_get (Buff.id buff) d
  | None => None
  end.

(** [override?.target ?? buff.target ?? event.target]. *)
Definition targetMode (event : ExEvent.t) (buff : Buff.t) : TargetMode :=
  match override event buff with
  | Some o => TargetSpec.target o
  | None =>
      match Buff.target buff with
      | Some m => m
      | None => ExEvent.target event
      end
  end.

(** [override?.targetStudentIds]. *)
Definition overrideIds (event : ExEvent.t) (buff : Buff.t)
  : option (list string) :=
  match override event buff with
  | Some o => TargetSpec.targetStudentIds o
  | None => None
  end.

Definition rawTargets (allStudentIds : list string) (event : ExEvent.t)
  (buff : Buff.t) : list string :=
  match targetMode event buff with
  | MEnemy => [ENEMY_ID]
  | MStudent =>
      ids_or (overrideIds event buff)
        (match Buff.target buff with
         | Some _ =>
             ids_or (Buff.targetStudentIds buff) [ExEvent.studentId event]
         | None =>
             ids_or (ExEvent.targetStudentIds event) [ExEvent.studentId event]
         end)
  | MAll => allStudentIds
  | MSelf => [ExEvent.studentId event]
  end.

(** [rawTargets.filter((id) => allTargetIds.includes(id))], with
    [allTargetIds = [...allStudentIds, ENEMY_ID]]. *)
Definition target (allStudentIds : list string) (event : ExEvent.t)
  (buff : Buff.t) : list string :=
  filter (includes (allStudentIds ++ [ENEMY_ID]))
         (rawTargets allStudentIds event buff).

Definition finalTargets (allStudentIds : list string) (event : ExEvent.t)
  (buff : Buff.t) : list string :=
  match targetMode event buff with
  | MEnemy => [ENEMY_ID]
  | _ =>
      match target allStudentIds event buff with
      | [] => [ExEvent.studentId event]
      | ids => ids
      end
  end.

(** *** Instance Expander (lines 254-332) *)

(** [buff.kind ?? "buff"]. *)
Definition kindOf (buff : Buff.t) : EffectKind :=
  match Buff.kind buff with Some k => k | None => KBuff end.

(** The [duration] of lines 303-306. *)
Definition duration (timeStep : Q) (event : ExEvent.t) (buff : Buff.t) : Q :=
  match kindOf buff with
  | KAttack =>
      Math_max timeStep
        (match Buff.duration buff with Some d => d | None => timeStep end)
  | _ =>
      match ExEvent.duration event with
      | Some d => d
      | None =>
          match Buff.duration buff with Some d => d | None => timeStep end
      end
  end.

(** The [end] of line 307. *)
Definition endOf (timelineSeconds timeStep : Q) (event : ExEvent.t)
  (buff : Buff.t) : Q :=
  Math_min (ExEvent.start event + duration timeStep event buff) timelineSeconds.

(** The object pushed at lines 309-324. *)
Definition makeInstance (timelineSeconds timeStep : Q) (student : Student.t)
  (skill : Skill) (event : ExEvent.t) (buff : Buff.t)
  (targetStudentId : string) : BuffInstance.t :=
  BuffInstance.mk
    (ExEvent.id event ++ ":" ++ Buff.id buff ++ ":" ++ targetStudentId)%string
    targetStudentId
    (Student.id student)
    (Buff.name buff)
    (kindOf buff)
    (Buff.stat buff)
    (Buff.value buff)
    (ExEvent.start event)
    (endOf timelineSeconds timeStep event buff)
    (Buff.stackGroup buff)
    (ExEvent.skillType event)
    (Skill_id skill)
    (Some (ExEvent.id event))
    (Buff.id buff).

(** The instances one effect definition of one event contributes. *)
Definition expandBuff (allStudentIds : list string)
  (timelineSeconds timeStep : Q) (student : Student.t) (skill : Skill)
  (event : ExEvent.t) (buff : Buff.t) : list BuffInstance.t :=
  map (makeInstance timelineSeconds timeStep student skill event buff)
      (finalTargets allStudentIds event buff).

(** The body of [events.forEach] (lines 266-327). *)
Definition expandEvent (students : list Student.t)
  (timelineSeconds timeStep : Q) (event : ExEvent.t) : list BuffInstance.t :=
  let allStudentIds := map Student.id students in
  match find (fun item => String.eqb (Student.id item) (ExEvent.studentId event))
             students with
  | None => []
  | Some student =>
      match lookupSkill student (ExEvent.skillType event)
                        (ExEvent.skillId event) with
      | None => []
      | Some skill =>
          flat_map
            (expandBuff allStudentIds timelineSeconds timeStep student skill event)
            (Skill_buffs skill)
      end
  end.

(** [nsEnabled] and [nsTargets] are accepted and not read, as in the source. *)
Definition buildBuffInstances (students : list Student.t)
  (events : list ExEvent.t) (nsEnabled : list (string * bool))
  (nsTargets : list (string * TargetSpec.t)) (timelineSeconds timeStep : Q)
  : list BuffInstance.t :=
  flat_map (expandEvent students timelineSeconds timeStep) events.

(** *** Overwrite Resolution Engine (lines 334-370) *)

(** The grouping key of line 337. *)
Definition slotKey (buff : BuffInstance.t) : string :=
  (BuffInstance.studentId buff ++ ":" ++ BuffStat_str (BuffInstance.stat buff)
   ++ ":" ++ BuffInstance.stackGroup buff ++ ":"
   ++ EffectKind_str (BuffInstance.kind buff))%string.

(** One round of the grouping loop (lines 336-344). *)
Definition group_push (grouped : list (string * list BuffInstance.t))
  (buff : BuffInstance.t) : list (string * list BuffInstance.t) :=
  let key := slotKey buff in
  match dict_get key grouped with
  | Some list_ => dict_set key (list_ ++ [buff]) grouped
  | None => dict_set key [buff] grouped
  end.

Definition groupInstances (instances : list BuffInstance.t)
  : list (string * list BuffInstance.t) :=
  fold_left group_push instances [].

(** The comparator of line 349:
    [a.start - b.start || a.id.localeCompare(b.id)]. *)
Definition compareInstances (a b : BuffInstance.t) : comparison :=
  match BuffInstance.start a ?= BuffInstance.start b with
  | Eq => localeCompare (BuffInstance.id a) (BuffInstance.id b)
  | c => c
  end.

(** One round of the sweep (lines 352-361).  The array [trimmed] is kept
    with its last element first. *)
Definition trim_step (trimmed : list BuffInstance.t) (buff : BuffInstance.t)
  : list BuffInstance.t :=
  match trimmed with
  | last :: below =>
      if ltb (BuffInstance.start buff) (BuffInstance.end_ last) then
        let last' :=
          BuffInstance.set_end last
            (Math_min (BuffInstance.end_ last) (BuffInstance.start buff)) in
        if leb (BuffInstance.end_ last') (BuffInstance.start last')
        then buff :: below
        else buff :: last' :: below
      else buff :: last :: below
  | [] => [buff]
  end.

Definition trim (sorted : list BuffInstance.t) : list BuffInstance.t :=
  rev (fold_left trim_step sorted []).

(** [buff.end > buff.start] (line 363). *)
Definition positive (buff : BuffInstance.t) : bool :=
  ltb (BuffInstance.start buff) (BuffInstance.end_ buff).

(** The body of [grouped.forEach] (lines 347-367). *)
Definition resolveGroup (list_ : list BuffInstance.t) : list BuffInstance.t :=
  filter positive (trim (Array_sort compareInstances list_)).

Definition applyOverwriteRules (instances : list BuffInstance.t)
  : list BuffInstance.t :=
  flat_map (fun entry => resolveGroup (snd entry)) (groupInstances instances).

(** *** Lane Assignment (lines 372-389) *)

(** The comparator of line 373: [a.start - b.start]. *)
Definition compareStart (a b : BuffInstance.t) : comparison :=
  BuffInstance.start a ?= BuffInstance.start b.

(** One round of the loop of lines 377-386 on [(laneEnds, laneMap)]. *)
Definition lane_step (st : list Q * list (string * nat))
  (buff : BuffInstance.t) : list Q * list (string * nat) :=
  let (laneEnds, laneMap) := st in
  match findIndex (fun end_ => leb end_ (BuffInstance.start buff)) laneEnds with
  | None =>
      (laneEnds ++ [BuffInstance.end_ buff],
       dict_set (BuffInstance.id buff) (List.length laneEnds) laneMap)
  | Some laneIndex =>
      (array_set laneIndex (BuffInstance.end_ buff) laneEnds,
       dict_set (BuffInstance.id buff) laneIndex laneMap)
  end.

Record Lanes : Type := mkLanes {
  laneMap : list (string * nat);
  laneCount : nat
}.

Definition buildBuffLanes (buffs : list BuffInstance.t) : Lanes :=
  let (laneEnds, laneMap) :=
    fold_left lane_step (Array_sort compareStart buffs) ([], []) in
  mkLanes laneMap (Nat.max 1 (List.length laneEnds)).


(** *** Stat Aggregator (lines 391-434) *)

(** The filter of lines 401-404. *)
Definition isActive (target : StatTarget.t) (time : Q) (item : BuffInstance.t)
  : bool :=
  String.eqb (BuffInstance.studentId item) (StatTarget.id target)
  && leb (BuffInstance.start item) time
  && ltb time (BuffInstance.end_ item).

(** The key of line 408. *)
Definition stackKey (buff : BuffInstance.t) : string :=
  (BuffStat_str (BuffInstance.stat buff) ++ ":" ++ BuffInstance.stackGroup buff
   ++ ":" ++ EffectKind_str (BuffInstance.kind buff))%string.

(** One round of the loop of lines 407-413. *)
Definition stack_step (stacked : list (string * BuffInstance.t))
  (buff : BuffInstance.t) : list (string * BuffInstance.t) :=
  let key := stackKey buff in
  match dict_get key stacked with
  | Some current =>
      if ltb (BuffInstance.start current) (BuffInstance.start buff)
      then dict_set key buff stacked
      else stacked
  | None => dict_set key buff stacked
  end.

(** [totals[stat] += amount]. *)
Definition add_total (totals : Stats.t) (stat : BuffStat) (amount : Q)
  : Stats.t :=
  match stat with
  | SAtk =>
      Stats.mk (Stats.atk totals + amount) (Stats.crit totals)
               (Stats.critDmg totals)
  | SCrit =>
      Stats.mk (Stats.atk totals) (Stats.crit totals + amount)
               (Stats.critDmg totals)
  | SCritDmg =>
      Stats.mk (Stats.atk totals) (Stats.crit totals)
               (Stats.critDmg totals + amount)
  end.

(** One round of the loop of lines 421-425. *)
Definition totals_step (totals : Stats.t) (buff : BuffInstance.t) : Stats.t :=
  match BuffInstance.kind buff with
  | KAttack => totals
  | kind =>
      let sign := match kind with KDebuff => -1 | _ => 1 end in
      add_total totals (BuffInstance.stat buff) (BuffInstance.value buff * sign)
  end.

Record StatsAtTime : Type := mkStatsAtTime {
  active : list BuffInstance.t;
  totals : Stats.t;
  computed : Stats.t
}.

(** The map [stacked] after the loop of lines 407-413. *)
Definition stackedOf (active : list BuffInstance.t)
  : list (string * BuffInstance.t) :=
  fold_left stack_step active [].

Definition computeStatsAtTime (target : StatTarget.t) (time : Q)
  (instances : list BuffInstance.t) : StatsAtTime :=
  let active := filter (isActive target time) instances in
  let stacked := stackedOf active in
  let totals := fold_left totals_step (map snd stacked) (Stats.mk 0 0 0) in
  let computed :=
    Stats.mk
      (Stats.atk (StatTarget.stats target) * (1 + Stats.atk totals))
      (Stats.crit (StatTarget.stats target) * (1 + Stats.crit totals))
      (Stats.critDmg (StatTarget.stats target) * (1 + Stats.critDmg totals)) in
  mkStatsAtTime active totals computed.

(** *** The application around the engine (lines 614-648) *)

(** [buffInstances] (lines 614-624). *)
Definition buffInstances (st : AppState.t) : list BuffInstance.t :=
  applyOverwriteRules
    (buildBuffInstances (AppState.students st) (AppState.events st)
       (AppState.nsEnabled st) (AppState.nsTargets st)
       (AppState.timelineSeconds st) (AppState.timeStep st)).

(** [[...students, enemy]] (lines 630 and 640), as the aggregator and the
    lanes read its elements: an id and base stats. *)
Definition allTargets (st : AppState.t) : list StatTarget.t :=
  map (fun student => StatTarget.mk (Student.id student) (Student.stats student))
      (AppState.students st)
  ++ [StatTarget.mk (Enemy.id (AppState.enemy st))
                    (Enemy.stats (AppState.enemy st))].

(** The instances of one target (line 631). *)
Definition buffsOf (id : string) (instances : list BuffInstance.t)
  : list BuffInstance.t :=
  filter (fun item => String.eqb (BuffInstance.studentId item) id) instances.

(** [buffLanesByStudent] (lines 625-635). *)
Definition buffLanesByStudent (st : AppState.t) : list (string * Lanes) :=
  fold_left
    (fun result student =>
       dict_set (StatTarget.id student)
                (buildBuffLanes (buffsOf (StatTarget.id student) (buffInstances st)))
                result)
    (allTargets st) [].

(** [selectedTarget] (lines 637-639). *)
Definition selectedTarget (st : AppState.t) (selectedStudentId : string)
  : option StatTarget.t :=
  if String.eqb selectedStudentId ENEMY_ID then
    Some (StatTarget.mk (Enemy.id (AppState.enemy st))
                        (Enemy.stats (AppState.enemy st)))
  else
    option_map
      (fun student => StatTarget.mk (Student.id student) (Student.stats student))
      (find (fun student => String.eqb (Student.id student) selectedStudentId)
            (AppState.students st)).

(** [inspectStats] (lines 646-648). *)
Definition inspectStats (st : AppState.t) (selectedStudentId : string)
  (inspectTime : Q) : option StatsAtTime :=
  option_map
    (fun target => computeStatsAtTime target inspectTime (buffInstances st))
    (selectedTarget st selectedStudentId).

(** *** Snapshot codec (lines 223-252 and 457-550) *)

Definition DEFAULT_TIMELINE_SECONDS : Q := 60.
Definition DEFAULT_TIME_STEP : Q := 1 # 10.
Definition DEFAULT_EX_EVENT_DURATION : Q := 1.

(** The host: the text encoder and decoder, [btoa] and [atob] on binary
    strings (one character per byte; [atob] throws on malformed input),
    and [JSON.stringify] and [JSON.parse] (which throws on malformed
    input). *)
Variable TextEncoder_encode : string -> list ascii.
Variable TextDecoder_decode : list ascii -> string.
Variable btoa : string -> string.
Variable atob : string -> option string.
Variable JSON_stringify : Snapshot.t -> string.
Variable JSON_parse : string -> option Json.

Fixpoint string_map (f : ascii -> ascii) (s : string) : string :=
  match s with
  | EmptyString => EmptyString
  | String c rest => String (f c) (string_map f rest)
  end.

(** [s.replace(/c/g, d)] for single characters [c] and [d]. *)
Definition replaceAll (c d : ascii) (s : string) : string :=
  string_map (fun x => if Ascii.eqb x c then d else x) s.

(** [s.replace(/c+$/g, ...)] with the empty replacement: [s] without its
    trailing run of [c]. *)
Fixpoint stripTrailing (c : ascii) (s : string) : string :=
  match s with
  | EmptyString => EmptyString
  | String x rest =>
      match stripTrailing c rest with
      | EmptyString => if Ascii.eqb x c then EmptyString else String x EmptyString
      | kept => String x kept
      end
  end.

(** The binary string of lines 225-228: one character per byte. *)
Definition binaryOf (input : string) : string :=
  string_of_list_ascii (TextEncoder_encode input).

(** [base64UrlEncode] (lines 223-233). *)
Definition base64UrlEncode (input : string) : string :=
  stripTrailing "="
    (replaceAll "/" "_" (replaceAll "+" "-" (btoa (binaryOf input)))).

(** [normalized + "===".slice((normalized.length + 3) % 4)] (line 237). *)
Definition padded (normalized : string) : string :=
  let from := ((String.length normalized + 3) mod 4)%nat in
  (normalized ++ String.substring from (3 - from) "===")%string.

(** [base64UrlDecode] (lines 235-244); [None] when [atob] throws. *)
Definition base64UrlDecode (input : string) : option string :=
  let normalized := replaceAll "_" "/" (replaceAll "-" "+" input) in
  match atob (padded normalized) with
  | Some binary => Some (TextDecoder_decode (list_ascii_of_string binary))
  | None => None
  end.

(** [buff.duration || 0]. *)
Definition durationOrZero (buff : Buff.t) : Q :=
  match Buff.duration buff with
  | Some d => if Qeq_bool d 0 then 0 else d
  | None => 0
  end.

(** [getSkillDuration] (lines 246-252). *)
Definition getSkillDuration (buffs : list Buff.t) (fallback : Q) : Q :=
  let max :=
    fold_left (fun current buff => Math_max current (durationOrZero buff))
              buffs 0 in
  if ltb 0 max then max else fallback.

(** [serializeState] (lines 457-477). *)
Definition serializeState (students : list Student.t) (events : list ExEvent.t)
  (nsEnabled : list (string * bool)) (nsTargets : list (string * TargetSpec.t))
  (timelineSeconds timeStep : Q) (enemy : Enemy.t) : string :=
  base64UrlEncode
    (JSON_stringify
       (Snapshot.mk 1 students events nsEnabled nsTargets timelineSeconds
                    timeStep enemy)).

(** [parseState] (lines 479-501); [None] is the source's [null]. *)
Definition parseState (value : string) : option Parsed.t :=
  match base64UrlDecode value with
  | None => None
  | Some decoded =>
      match JSON_parse decoded with
      | Some (JObject parsed) =>
          match Parsed.students parsed with
          | Some _ => Some parsed
          | None => None
          end
      | Some JNull => None
      | None => None
      end
  end.

(** A string property that is truthy: present and not empty. *)
Definition truthy (s : option string) : option string :=
  match s with
  | Some EmptyString => None
  | other => other
  end.

(** The body of [events.flatMap] in [normalizeEvents] (lines 508-550). *)
Definition normalizeEvent (students : list Student.t) (timeStep : Q)
  (evt : option RawEvent.t) : list ExEvent.t :=
  match evt with
  | None => []
  | Some evt =>
      match truthy (RawEvent.id evt), truthy (RawEvent.studentId evt),
            RawEvent.start evt with
      | Some id, Some studentId, Some start =>
          match find (fun item => String.eqb (Student.id item) studentId)
                     students with
          | None => []
          | Some student =>
              let skillType :=
                match RawEvent.skillType evt with Some t => t | None => Ex end in
              let skillId :=
                match RawEvent.skillId evt with
                | Some s => Some s
                | None => RawEvent.exId evt
                end in
              match truthy skillId with
              | None => []
              | Some skillId =>
                  match lookupSkill student skillType skillId with
                  | None => []
                  | Some skill =>
                      let target :=
                        match RawEvent.target evt with
                        | Some MAll => MAll
                        | Some MStudent => MStudent
                        | Some MEnemy => MEnemy
                        | _ => MSelf
                        end in
                      let targetStudentIds :=
                        match target with
                        | MStudent =>
                            Some (ids_or (RawEvent.targetStudentIds evt)
                                         [studentId])
                        | _ => None
                        end in
                      [ExEvent.mk id studentId skillType skillId start
                         (Some
                            match RawEvent.duration evt with
                            | Some d => d
                            | None =>
                                getSkillDuration (Skill_buffs skill)
                                  (Math_max timeStep DEFAULT_EX_EVENT_DURATION)
                            end)
                         target targetStudentIds (RawEvent.buffTargets evt)]
                  end
              end
          end
      | _, _, _ => []
      end
  end.

(** [normalizeEvents] (lines 503-550). *)
Definition normalizeEvents (students : list Student.t)
  (events : list (option RawEvent.t)) (timeStep : Q) : list ExEvent.t :=
  flat_map (normalizeEvent students timeStep) events.

(** [Object.fromEntries(entries)]. *)
Definition fromEntries {V : Type} (entries : list (string * V))
  : list (string * V) :=
  fold_left (fun d entry => dict_set (fst entry) (snd entry) d) entries [].

(** The state [handleLoadFromUrl] installs from the token [encoded]
    (lines 835-866) before it clamps the events to the timeline
    (line 855): [parseState], then [normalizeEvents], with the defaults of
    the absent properties.  [None]: the handler returns and the state
    stays as it is. *)
Definition decodeState (current : AppState.t) (encoded : string)
  : option AppState.t :=
  match truthy (Some encoded) with
  | None => None
  | Some encoded =>
      match parseState encoded with
      | None => None
      | Some parsed =>
          let students :=
            match Parsed.students parsed with Some l => l | None => [] end in
          let timeStep :=
            match Parsed.timeStep parsed with
            | Some t => t
            | None => DEFAULT_TIME_STEP
            end in
          Some
            (AppState.mk students
               (normalizeEvents students
                  (match Parsed.events parsed with Some l => l | None => [] end)
                  timeStep)
               (match Parsed.nsEnabled parsed with Some d => d | None => [] end)
               (match Parsed.nsTargets parsed with
                | Some d => d
                | None =>
                    fromEntries
                      (map (fun student =>
                              (Student.id student, TargetSpec.mk MSelf None))
                           students)
                end)
               (match Parsed.timelineSeconds parsed with
                | Some t => t
                | None => DEFAULT_TIMELINE_SECONDS
                end)
               timeStep
               (match Parsed.enemy parsed with
                | Some e => e
                | None => AppState.enemy current
                end))
      end
  end.

(** *** The editor's updates of the state *)

(** [set.add(id)] on an insertion-ordered set. *)
Definition Set_add (id : string) (s : list string) : list string :=
  if includes s id then s else s ++ [id].

(** [new Set(list)]: the first occurrence of every element, in order. *)
Definition Set_of (l : list string) : list string :=
  fold_left (fun s id => Set_add id s) l [].

(** [set.delete(id)]. *)
Definition Set_delete (id : string) (s : list string) : list string :=
  filter (fun x => negb (String.eqb x id)) s.

(** [toggleId] (lines 213-221). *)
Definition toggleId (list_ : option (list string)) (id : string)
  : list string :=
  let next := Set_of (match list_ with Some l => l | None => [] end) in
  if includes next id then Set_delete id next else Set_add id next.

(** The body of [events.map] in [clampEventsToTimeline] (lines 557-566).
    [None]: the event has no duration, and the source computes NaN. *)
Definition clampEvent (timelineSeconds timeStep : Q) (evt : ExEvent.t)
  : option ExEvent.t :=
  match ExEvent.duration evt with
  | None => None
  | Some d =>
      let maxStart := Math_max 0 (timelineSeconds - d) in
      let nextStart := clamp (ExEvent.start evt) 0 maxStart in
      let nextDuration := clamp d timeStep (timelineSeconds - nextStart) in
      Some (ExEvent.mk (ExEvent.id evt) (ExEvent.studentId evt)
              (ExEvent.skillType evt) (ExEvent.skillId evt) nextStart
              (Some nextDuration) (ExEvent.target evt)
              (ExEvent.targetStudentIds evt) (ExEvent.buffTargets evt))
  end.

(** [clampEventsToTimeline] (lines 552-566); [None] when [clampEvent] is
    [None] on one of the events. *)
Fixpoint clampEventsToTimeline (events : list ExEvent.t)
  (timelineSeconds timeStep : Q) : option (list ExEvent.t) :=
  match events with
  | [] => Some []
  | evt :: rest =>
      match clampEvent timelineSeconds timeStep evt,
            clampEventsToTimeline rest timelineSeconds timeStep with
      | Some evt', Some rest' => Some (evt' :: rest')
      | _, _ => None
      end
  end.

(** The state after [handleLoadFromUrl] (lines 835-866): the current
    state when the handler returns early, else the decoded state with its
    events clamped to the timeline.  [None] as for
    [clampEventsToTimeline]. *)
Definition handleLoadFromUrl (current : AppState.t) (encoded : string)
  : option AppState.t :=
  match decodeState current encoded with
  | None => Some current
  | Some st =>
      match clampEventsToTimeline (AppState.events st)
              (AppState.timelineSeconds st) (AppState.timeStep st) with
      | Some events =>
          Some (AppState.mk (AppState.students st) events
                  (AppState.nsEnabled st) (AppState.nsTargets st)
                  (AppState.timelineSeconds st) (AppState.timeStep st)
                  (AppState.enemy st))
      | None => None
      end
  end.

(** The object [updateEventBuffTarget] stores for an effect (lines
    898-902). *)
Definition buffTargetOf (nextTarget : TargetMode)
  (nextTargetStudentIds : option (list string)) : TargetSpec.t :=
  TargetSpec.mk nextTarget
    (match nextTarget with
     | MStudent =>
         Some (match nextTargetStudentIds with Some l => l | None => [] end)
     | _ => None
     end).

(** [updateEventBuffTarget] (lines 887-907) on the events. *)
Definition updateEventBuffTarget (events : list ExEvent.t)
  (eventId buffId : string) (nextTarget : TargetMode)
  (nextTargetStudentIds : option (list string)) : list ExEvent.t :=
  map (fun item =>
         if negb (String.eqb (ExEvent.id item) eventId) then item
         else
           ExEvent.mk (ExEvent.id item) (ExEvent.studentId item)
             (ExEvent.skillType item) (ExEvent.skillId item)
             (ExEvent.start item) (ExEvent.duration item)
             (ExEvent.target item) (ExEvent.targetStudentIds item)
             (Some
                (dict_set buffId
                   (buffTargetOf nextTarget nextTargetStudentIds)
                   (match ExEvent.buffTargets item with
                    | Some d => d
                    | None => []
                    end))))
      events.

(** [delete next[key]] on a copy of a dictionary. *)
Definition dict_delete {V : Type} (key : string) (d : list (string * V))
  : list (string * V) :=
  filter (fun entry => negb (String.eqb (fst entry) key)) d.

(** [removeStudent] (lines 974-994) on the state. *)
Definition removeStudent (st : AppState.t) (studentId : string) : AppState.t :=
  AppState.mk
    (filter (fun student => negb (String.eqb (Student.id student) studentId))
            (AppState.students st))
    (filter (fun evt => negb (String.eqb (ExEvent.studentId evt) studentId))
            (AppState.events st))
    (dict_delete studentId (AppState.nsEnabled st))
    (dict_delete studentId (AppState.nsTargets st))
    (AppState.timelineSeconds st) (AppState.timeStep st) (AppState.enemy st).

(** The events after [handleDrop] (lines 662-711) dropped the skill
    [(skillType, skillId)] of the payload on the track of [studentId];
    [time] is the drop time computed from the pointer (lines 667-671) and
    [newId] the id [createId] draws.  A drop on a missing student or
    skill changes nothing. *)
Definition handleDrop (students : list Student.t) (events : list ExEvent.t)
  (timeStep : Q) (studentId : string) (skillType : SkillType)
  (skillId : string) (time : Q) (newId : string) : list ExEvent.t :=
  match find (fun item => String.eqb (Student.id item) studentId) students with
  | None => events
  | Some student =>
      match lookupSkill student skillType skillId with
      | None => events
      | Some skill =>
          events
          ++ [ExEvent.mk newId studentId skillType skillId time
                (Some (getSkillDuration (Skill_buffs skill)
                         (Math_max timeStep DEFAULT_EX_EVENT_DURATION)))
                MSelf (Some [studentId]) None]
      end
  end.

(** [removeExSkill] (lines 1010-1025) on the state. *)
Definition removeExSkill (st : AppState.t) (studentId exId : string)
  : AppState.t :=
  AppState.mk
    (map (fun student =>
            if String.eqb (Student.id student) studentId then
              Student.mk (Student.id student) (Student.name student)
                (Student.stats student) (Student.normal student)
                (Student.ns student)
                (filter (fun ex => negb (String.eqb (ExSkill.id ex) exId))
                        (Student.ex student))
            else student)
         (AppState.students st))
    (filter (fun evt =>
               negb (String.eqb (ExEvent.studentId evt) studentId
                     && match ExEvent.skillType evt with
                        | Ex => true
                        | Ns => false
                        end
                     && String.eqb (ExEvent.skillId evt) exId))
            (AppState.events st))
    (AppState.nsEnabled st) (AppState.nsTargets st)
    (AppState.timelineSeconds st) (AppState.timeStep st) (AppState.enemy st).

(** [Math.round(x)]: the nearest integer, a half rounded up. *)
Definition Math_round (x : Q) : Q := inject_Z (Qfloor (x + (1 # 2))).

(** The state after [updateTimelineSeconds] (lines 909-914); [None] as
    for [clampEventsToTimeline]. *)
Definition updateTimelineSeconds (st : AppState.t) (value : Q)
  : option AppState.t :=
  let nextSeconds := clamp (Math_round value) 10 600 in
  match clampEventsToTimeline (AppState.events st) nextSeconds
          (AppState.timeStep st) with
  | Some events =>
      Some (AppState.mk (AppState.students st) events (AppState.nsEnabled st)
              (AppState.nsTargets st) nextSeconds (AppState.timeStep st)
              (AppState.enemy st))
  | None => None
  end.

(** The tick [updateTimeStep] sets (line 925). *)
Definition nextStepOf (value : Q) : Q :=
  clamp (Math_round (value * 100) / 100) (1 # 20) 1.

(** The body of [current.map] in [updateTimeStep] (lines 929-941);
    [None]: the event has no duration, and the source computes NaN. *)
Definition retimeEvent (timelineSeconds nextStep : Q) (evt : ExEvent.t)
  : option ExEvent.t :=
  match ExEvent.duration evt with
  | None => None
  | Some d =>
      let nextStart :=
        clamp (Math_round (ExEvent.start evt / nextStep) * nextStep) 0
              timelineSeconds in
      let nextDuration :=
        clamp (Math_round (d / nextStep) * nextStep) nextStep
              (Math_max nextStep (timelineSeconds - nextStart)) in
      Some (ExEvent.mk (ExEvent.id evt) (ExEvent.studentId evt)
              (ExEvent.skillType evt) (ExEvent.skillId evt) nextStart
              (Some nextDuration) (ExEvent.target evt)
              (ExEvent.targetStudentIds evt) (ExEvent.buffTargets evt))
  end.

(** [list.map(f)] for an [f] that may fail: [None] when it fails on one
    of the elements. *)
Fixpoint map_defined {A B : Type} (f : A -> option B) (l : list A)
  : option (list B) :=
  match l with
  | [] => Some []
  | x :: rest =>
      match f x, map_defined f rest with
      | Some y, Some rest' => Some (y :: rest')
      | _, _ => None
      end
  end.

(** The state after [updateTimeStep] (lines 924-943). *)
Definition updateTimeStep (st : AppState.t) (value : Q) : option AppState.t :=
  let nextStep := nextStepOf value in
  match map_defined (retimeEvent (AppState.timelineSeconds st) nextStep)
          (AppState.events st) with
  | Some events =>
      Some (AppState.mk (AppState.students st) events (AppState.nsEnabled st)
              (AppState.nsTargets st) (AppState.timelineSeconds st) nextStep
              (AppState.enemy st))
  | None => None
  end.

(** ** Vocabulary of the statements *)

(** [buff] is filed under the grouping key [key]. *)
Definition hasKey (key : string) (buff : BuffInstance.t) : bool :=
  String.eqb (slotKey buff) key.

(** [o] is [i] with its end moved to an earlier or equal instant: every
    other field is the same. *)
Definition shrinks (o i : BuffInstance.t) : Prop :=
  o = BuffInstance.set_end i (BuffInstance.end_ o) /\
  BuffInstance.end_ o <= BuffInstance.end_ i.

(** [a] is over when [b] begins. *)
Definition before (a b : BuffInstance.t) : Prop :=
  BuffInstance.end_ a <= BuffInstance.start b.

(** The state of the grouping loop after the instances [seen]. *)
Definition grouped_for (grouped : list (string * list BuffInstance.t))
  (seen : list BuffInstance.t) : Prop :=
  NoDup (map fst grouped) /\
  (forall key list_, In (key, list_) grouped ->
     list_ = filter (hasKey key) seen /\ list_ <> []) /\
  (forall buff, In buff seen -> In (slotKey buff) (map fst grouped)) /\
  Permutation (flat_map snd grouped) seen.

(** The Modifier Slot of an instance: (target, stat, stack group, kind). *)
Definition Slot : Type := (string * BuffStat * string * EffectKind)%type.

Definition slotOf (buff : BuffInstance.t) : Slot :=
  (BuffInstance.studentId buff, BuffInstance.stat buff,
   BuffInstance.stackGroup buff, BuffInstance.kind buff).

Definition BuffStat_eqb (a b : BuffStat) : bool :=
  match a, b with
  | SAtk, SAtk | SCrit, SCrit | SCritDmg, SCritDmg => true
  | _, _ => false
  end.

Definition EffectKind_eqb (a b : EffectKind) : bool :=
  match a, b with
  | KBuff, KBuff | KDebuff, KDebuff | KAttack, KAttack => true
  | _, _ => false
  end.

Definition Slot_eqb (s s' : Slot) : bool :=
  let '(t, st, g, k) := s in
  let '(t', st', g', k') := s' in
  String.eqb t t' && BuffStat_eqb st st' && String.eqb g g'
  && EffectKind_eqb k k'.

(** [buff] occupies the Modifier Slot [slot]. *)
Definition inSlot (slot : Slot) (buff : BuffInstance.t) : bool :=
  Slot_eqb (slotOf buff) slot.

(** The grouping key the source prints for a slot. *)
Definition Slot_key (slot : Slot) : string :=
  let '(t, st, g, k) := slot in
  (t ++ ":" ++ BuffStat_str st ++ ":" ++ g ++ ":" ++ EffectKind_str k)%string.

(** Two instances the comparator cannot tell apart while they are filed
    under one key. *)
Definition tied (a b : BuffInstance.t) : Prop :=
  slotKey a = slotKey b /\
  BuffInstance.start a == BuffInstance.start b /\
  BuffInstance.id a = BuffInstance.id b.

(** What the tie-break needs of a collation: a total order on strings in
    which only equal strings compare equal. *)
Definition total_order (compare : string -> string -> comparison) : Prop :=
  (forall a b, compare b a = CompOpp (compare a b)) /\
  (forall a b c, compare a b = Lt -> compare b c = Lt -> compare a c = Lt) /\
  (forall a b, compare a b = Eq -> a = b).

(** The group of the Stat Aggregator: (stat, stack group, kind). *)
Definition Stack : Type := (BuffStat * string * EffectKind)%type.

Definition stackOf (buff : BuffInstance.t) : Stack :=
  (BuffInstance.stat buff, BuffInstance.stackGroup buff,
   BuffInstance.kind buff).

(** The key the source prints for a group. *)
Definition Stack_key (stack : Stack) : string :=
  let '(st, g, k) := stack in
  (BuffStat_str st ++ ":" ++ g ++ ":" ++ EffectKind_str k)%string.

(** What one surviving instance adds to the total of [stat]: its
    magnitude for a buff, the opposite for a debuff, nothing for an
    attack or for another stat. *)
Definition contribution (stat : BuffStat) (buff : BuffInstance.t) : Q :=
  if BuffStat_eqb (BuffInstance.stat buff) stat then
    match BuffInstance.kind buff with
    | KBuff => BuffInstance.value buff
    | KDebuff => - BuffInstance.value buff
    | KAttack => 0
    end
  else 0.

Definition sumQ (l : list Q) : Q := fold_right Qplus 0 l.

(** [stats[stat]]. *)
Definition statOf (stat : BuffStat) (stats : Stats.t) : Q :=
  match stat with
  | SAtk => Stats.atk stats
  | SCrit => Stats.crit stats
  | SCritDmg => Stats.critDmg stats
  end.

(** The state of the stacking loop after the instances [seen]. *)
Definition stacked_for (stacked : list (string * BuffInstance.t))
  (seen : list BuffInstance.t) : Prop :=
  NoDup (map fst stacked) /\
  (forall key v, In (key, v) stacked -> stackKey v = key /\ In v seen) /\
  (forall b, In b seen ->
     exists v, In (stackKey b, v) stacked /\
               BuffInstance.start b <= BuffInstance.start v).

(** [buff] is live at [time]: [start <= time < end]. *)
Definition activeAt (time : Q) (buff : BuffInstance.t) : bool :=
  leb (BuffInstance.start buff) time && ltb time (BuffInstance.end_ buff).

(** How many instances of [buffs] are live at [time]. *)
Definition activeCount (time : Q) (buffs : list BuffInstance.t) : nat :=
  List.length (filter (activeAt time) buffs).

(** [laneMap[buff.id]]. *)
Definition laneOf (laneMap : list (string * nat)) (buff : BuffInstance.t)
  : option nat :=
  dict_get (BuffInstance.id buff) laneMap.

(** The state [(laneEnds, laneMap)] of the lane loop after the instances
    [seen]: every seen instance has a lane that ends no earlier than it
    does; every lane ends with one of its instances; instances sharing a
    lane do not overlap; and at some instant as many instances are live
    as there are lanes. *)
Definition lanes_for (st : list Q * list (string * nat))
  (seen : list BuffInstance.t) : Prop :=
  (forall b, In b seen ->
     exists lane e, laneOf (snd st) b = Some lane /\
       nth_error (fst st) lane = Some e /\ BuffInstance.end_ b <= e) /\
  (forall lane e, nth_error (fst st) lane = Some e ->
     exists b, In b seen /\ laneOf (snd st) b = Some lane /\
       BuffInstance.end_ b = e) /\
  (forall a b, In a seen -> In b seen -> a <> b ->
     laneOf (snd st) a = laneOf (snd st) b -> before a b \/ before b a) /\
  (exists time, (List.length (fst st) <= activeCount time seen)%nat).

(** The object [serializeState] prints for the state [st], called as
    [handleShare] calls it (lines 817-825). *)
Definition snapshotOf (st : AppState.t) : Snapshot.t :=
  Snapshot.mk 1 (AppState.students st) (AppState.events st)
    (AppState.nsEnabled st) (AppState.nsTargets st)
    (AppState.timelineSeconds st) (AppState.timeStep st) (AppState.enemy st).

Definition shareToken (st : AppState.t) : string :=
  serializeState (AppState.students st) (AppState.events st)
    (AppState.nsEnabled st) (AppState.nsTargets st)
    (AppState.timelineSeconds st) (AppState.timeStep st) (AppState.enemy st).

(** An event read back from its JSON text: every property it has, and no
    [exId]. *)
Definition RawEvent_of (e : ExEvent.t) : RawEvent.t :=
  RawEvent.mk (Some (ExEvent.id e)) (Some (ExEvent.studentId e))
    (Some (ExEvent.skillType e)) (Some (ExEvent.skillId e)) None
    (Some (ExEvent.start e)) (ExEvent.duration e) (Some (ExEvent.target e))
    (ExEvent.targetStudentIds e) (ExEvent.buffTargets e).

(** A snapshot read back from its JSON text. *)
Definition Parsed_of (s : Snapshot.t) : Parsed.t :=
  Parsed.mk (Some (Snapshot.students s))
    (Some (map (fun e => Some (RawEvent_of e)) (Snapshot.events s)))
    (Some (Snapshot.nsEnabled s)) (Some (Snapshot.nsTargets s))
    (Some (Snapshot.timelineSeconds s)) (Some (Snapshot.timeStep s))
    (Some (Snapshot.enemy s)).

(** [k] padding characters. *)
Fixpoint padding (k : nat) : string :=
  match k with
  | O => EmptyString
  | S k' => String "=" (padding k')
  end.

(** No character of [s] satisfies [p]. *)
Fixpoint string_forall (p : ascii -> bool) (s : string) : bool :=
  match s with
  | EmptyString => true
  | String c rest => p c && string_forall p rest
  end.

(** A character of the base64 alphabet as far as the codec depends on
    it: not the padding character [=], and neither [-] nor [_]. *)
Definition base64_body (c : ascii) : bool :=
  negb (Ascii.eqb c "=") && negb (Ascii.eqb c "-") && negb (Ascii.eqb c "_").

(** The shape of the base64 text of at least one byte: whole groups of
    four characters, of which at most the last two are padding. *)
Definition base64_shape (s : string) : bool :=
  let body := stripTrailing "=" s in
  string_forall base64_body body
  && (String.length s - String.length body <=? 2)%nat
  && ((String.length s) mod 4 =? 0)%nat
  && negb (String.length s =? 0)%nat.

(** The host reads back what it printed for the state [st]: the text
    decoder inverts the text encoder, [atob] inverts [btoa], whose output
    has the shape of a base64 text, and [JSON.parse] inverts
    [JSON.stringify]. *)
Definition lossless (st : AppState.t) : Prop :=
  let text := JSON_stringify (snapshotOf st) in
  TextDecoder_decode (TextEncoder_encode text) = text /\
  base64_shape (btoa (binaryOf text)) = true /\
  atob (btoa (binaryOf text)) = Some (binaryOf text) /\
  JSON_parse text = Some (JObject (Parsed_of (snapshotOf st))).

(** An event that [normalizeEvents] hands on as the engine reads it: its
    id, owner and skill id are not empty, it has a duration, and with a
    target mode other than [student] its target list stands for the owner
    alone. *)
Definition roundTrips (e : ExEvent.t) : bool :=
  negb (String.eqb (ExEvent.id e) "")
  && negb (String.eqb (ExEvent.studentId e) "")
  && negb (String.eqb (ExEvent.skillId e) "")
  && match ExEvent.duration e with Some _ => true | None => false end
  && (TargetMode_eqb (ExEvent.target e) MStudent
      || match ids_or (ExEvent.targetStudentIds e) [ExEvent.studentId e] with
         | [id] => String.eqb id (ExEvent.studentId e)
         | _ => false
         end).

(** Two events the engine cannot tell apart: all is equal but the target
    list, which stands for the same targets. *)
Definition sameCast (e' e : ExEvent.t) : Prop :=
  ExEvent.id e' = ExEvent.id e /\
  ExEvent.studentId e' = ExEvent.studentId e /\
  ExEvent.skillType e' = ExEvent.skillType e /\
  ExEvent.skillId e' = ExEvent.skillId e /\
  ExEvent.start e' = ExEvent.start e /\
  ExEvent.duration e' = ExEvent.duration e /\
  ExEvent.target e' = ExEvent.target e /\
  ExEvent.buffTargets e' = ExEvent.buffTargets e /\
  ids_or (ExEvent.targetStudentIds e') [ExEvent.studentId e'] =
  ids_or (ExEvent.targetStudentIds e) [ExEvent.studentId e].

(** The student-mode fallback read as one chain: the override's id list
    if non-empty, else the effect definition's, else the cast event's,
    else the owner. *)
Definition studentTargets_chain (event : ExEvent.t) (buff : Buff.t)
  : list string :=
  ids_or (overrideIds event buff)
    (ids_or (Buff.targetStudentIds buff)
       (ids_or (ExEvent.targetStudentIds event) [ExEvent.studentId event])).

(** A character that needs no escape in a URL query as far as base64 is
    concerned: neither [+] nor [/]. *)
Definition urlSafe (c : ascii) : bool :=
  negb (Ascii.eqb c "+") && negb (Ascii.eqb c "/").

(** An event the engine expands and the codec hands on unchanged: its
    id, owner and skill id are not empty, the owner is a student who has
    the skill, it has a duration, and it carries a target list, which is
    then not empty, exactly when its mode is [student]. *)
Definition wellFormed (students : list Student.t) (e : ExEvent.t) : Prop :=
  ExEvent.id e <> "" /\
  ExEvent.studentId e <> "" /\
  ExEvent.skillId e <> "" /\
  (exists student skill,
     find (fun item => String.eqb (Student.id item) (ExEvent.studentId e))
          students = Some student /\
     lookupSkill student (ExEvent.skillType e) (ExEvent.skillId e) =
     Some skill) /\
  (exists d, ExEvent.duration e = Some d) /\
  match ExEvent.target e with
  | MStudent => exists x l, ExEvent.targetStudentIds e = Some (x :: l)
  | _ => ExEvent.targetStudentIds e = None
  end.

(** [e'] is [e] clamped to a timeline of [timelineSeconds] with tick
    [timeStep]: only start and duration may differ; the start is not
    negative and the duration is at least one tick; the event ends within
    the timeline when its duration and the timeline were at least one tick
    long; and an event that was within these bounds keeps its start and
    duration. *)
Definition clamped (timelineSeconds timeStep : Q) (e e' : ExEvent.t) : Prop :=
  ExEvent.id e' = ExEvent.id e /\
  ExEvent.studentId e' = ExEvent.studentId e /\
  ExEvent.skillType e' = ExEvent.skillType e /\
  ExEvent.skillId e' = ExEvent.skillId e /\
  ExEvent.target e' = ExEvent.target e /\
  ExEvent.targetStudentIds e' = ExEvent.targetStudentIds e /\
  ExEvent.buffTargets e' = ExEvent.buffTargets e /\
  exists d d',
    ExEvent.duration e = Some d /\ ExEvent.duration e' = Some d' /\
    0 <= ExEvent.start e' /\
    timeStep <= d' /\
    (timeStep <= d -> timeStep <= timelineSeconds ->
       ExEvent.start e' + d' <= timelineSeconds) /\
    (0 <= ExEvent.start e -> timeStep <= d ->
       ExEvent.start e + d <= timelineSeconds ->
       ExEvent.start e' == ExEvent.start e /\ d' == d).

(** [e'] is [e] after [updateEventBuffTarget] asked for the target
    [nextTarget] of the effect [buffId] of the event [eventId]: only the
    overrides may differ; another event is untouched; in the event itself
    the resolver gives the effect the mode asked for, the enemy alone
    under [enemy], the owner alone under [self], the ids asked for under
    [student] when there are any, and gives every other effect the targets
    it had. *)
Definition retargeted (allStudentIds : list string) (eventId buffId : string)
  (nextTarget : TargetMode) (nextTargetStudentIds : option (list string))
  (e e' : ExEvent.t) : Prop :=
  ExEvent.id e' = ExEvent.id e /\
  ExEvent.studentId e' = ExEvent.studentId e /\
  ExEvent.skillType e' = ExEvent.skillType e /\
  ExEvent.skillId e' = ExEvent.skillId e /\
  ExEvent.start e' = ExEvent.start e /\
  ExEvent.duration e' = ExEvent.duration e /\
  ExEvent.target e' = ExEvent.target e /\
  ExEvent.targetStudentIds e' = ExEvent.targetStudentIds e /\
  (ExEvent.id e <> eventId -> e' = e) /\
  (ExEvent.id e = eventId ->
     (forall buff, Buff.id buff = buffId ->
        targetMode e' buff = nextTarget /\
        (nextTarget = MEnemy ->
           finalTargets allStudentIds e' buff = [ENEMY_ID]) /\
        (nextTarget = MSelf ->
           finalTargets allStudentIds e' buff = [ExEvent.studentId e]) /\
        (nextTarget = MStudent ->
           forall x ids, nextTargetStudentIds = Some (x :: ids) ->
           rawTargets allStudentIds e' buff = x :: ids)) /\
     (forall buff, Buff.id buff <> buffId ->
        finalTargets allStudentIds e' buff =
        finalTargets allStudentIds e buff)).

(** [e'] is [e] after [updateTimeStep] set the tick [nextStep] on a
    timeline of [timelineSeconds]: only start and duration may differ;
    the start is not negative, and within the timeline when that is not
    negative; the duration is at least one tick, and the event ends within
    the timeline when one tick still fits after its start. *)
Definition retimed (timelineSeconds nextStep : Q) (e e' : ExEvent.t) : Prop :=
  ExEvent.id e' = ExEvent.id e /\
  ExEvent.studentId e' = ExEvent.studentId e /\
  ExEvent.skillType e' = ExEvent.skillType e /\
  ExEvent.skillId e' = ExEvent.skillId e /\
  ExEvent.target e' = ExEvent.target e /\
  ExEvent.targetStudentIds e' = ExEvent.targetStudentIds e /\
  ExEvent.buffTargets e' = ExEvent.buffTargets e /\
  exists d',
    ExEvent.duration e' = Some d' /\
    0 <= ExEvent.start e' /\
    (0 <= timelineSeconds -> ExEvent.start e' <= timelineSeconds) /\
    nextStep <= d' /\
    (nextStep <= timelineSeconds - ExEvent.start e' ->
       ExEvent.start e' + d' <= timelineSeconds).

(** ** A host for the examples *)

(** Base64 as RFC 4648 defines it, on binary strings. *)
Definition base64_alphabet : string :=
  "ABCDEFGHIJKLMNOPQRSTUVWXYZabcdefghijklmnopqrstuvwxyz0123456789+/".

Definition base64_digit (n : N) : ascii :=
  match String.get (N.to_nat n) base64_alphabet with
  | Some c => c
  | None => "="%char
  end.

Fixpoint base64_value_in (alphabet : string) (c : ascii) : option N :=
  match alphabet with
  | EmptyString => None
  | String x rest =>
      if Ascii.eqb x c then Some 0%N
      else option_map N.succ (base64_value_in rest c)
  end.

Definition base64_value (c : ascii) : option N :=
  base64_value_in base64_alphabet c.

Fixpoint base64_groups (bytes : list ascii) : string :=
  match bytes with
  | [] => EmptyString
  | [a] =>
      let n := N_of_ascii a in
      String (base64_digit (n / 4))
        (String (base64_digit ((n mod 4) * 16)) "==")
  | [a; b] =>
      let n := (N_of_ascii a * 256 + N_of_ascii b)%N in
      String (base64_digit (n / 1024))
        (String (base64_digit ((n / 16) mod 64))
           (String (base64_digit ((n mod 16) * 4)) "="))
  | a :: b :: c :: rest =>
      let n := (N_of_ascii a * 65536 + N_of_ascii b * 256 + N_of_ascii c)%N in
      String (base64_digit (n / 262144))
        (String (base64_digit ((n / 4096) mod 64))
           (String (base64_digit ((n / 64) mod 64))
              (String (base64_digit (n mod 64)) (base64_groups rest))))
  end%N.

Definition btoa_ref (binary : string) : string :=
  base64_groups (list_ascii_of_string binary).

Fixpoint base64_ungroup (fuel : nat) (chars : list ascii)
  : option (list ascii) :=
  match fuel, chars with
  | _, [] => Some []
  | S fuel', a :: b :: c :: d :: rest =>
      match base64_value a, base64_value b with
      | Some va, Some vb =>
          if Ascii.eqb c "=" then
            if Ascii.eqb d "=" then
              match rest with
              | [] => Some [ascii_of_N (va * 4 + vb / 16)]
              | _ => None
              end
            else None
          else
            match base64_value c with
            | None => None
            | Some vc =>
                if Ascii.eqb d "=" then
                  match rest with
                  | [] =>
                      Some [ascii_of_N (va * 4 + vb / 16);
                            ascii_of_N ((vb mod 16) * 16 + vc / 4)]
                  | _ => None
                  end
                else
                  match base64_value d with
                  | None => None
                  | Some vd =>
                      option_map
                        (fun tail =>
                           ascii_of_N (va * 4 + vb / 16)
                           :: ascii_of_N ((vb mod 16) * 16 + vc / 4)
                           :: ascii_of_N ((vc mod 4) * 64 + vd) :: tail)
                        (base64_ungroup fuel' rest)
                  end
            end
      | _, _ => None
      end
  | _, _ => None
  end%N.

Definition atob_ref (text : string) : option string :=
  option_map string_of_list_ascii
    (base64_ungroup (String.length text) (list_ascii_of_string text)).

(** A [string] holds the UTF-8 bytes of its text. *)
Definition TextEncoder_ref (text : string) : list ascii :=
  list_ascii_of_string text.

Definition TextDecoder_ref (bytes : list ascii) : string :=
  string_of_list_ascii bytes.

(** A JSON host with one text: it prints a snapshot as [{}], and reads
    [{}] back as the snapshot [s]. *)
Definition JSON_stringify_one (s : Snapshot.t) : string := "{}".

Definition JSON_parse_one (s : Snapshot.t) (text : string) : option Json :=
  if String.eqb text "{}" then Some (JObject (Parsed_of s)) else None.

(** ** Example data *)

Definition ex_stats : Stats.t := Stats.mk 1000 200 200.

Definition ex_buff : Buff.t :=
  Buff.mk "b1" "ATK+" (Some KBuff) SAtk (1 # 10) (Some 6) "ex" None None.

(** An effect definition with a target mode of its own and no id list. *)
Definition ex_buff_student : Buff.t :=
  Buff.mk "b1" "ATK+" (Some KBuff) SAtk (1 # 10) (Some 6) "ex"
          (Some MStudent) None.

(** An effect definition of duration 0.01. *)
Definition ex_buff_short : Buff.t :=
  Buff.mk "b2" "CRIT+" (Some KBuff) SCrit (1 # 10) (Some (1 # 100)) "ex" None
          None.

(** An effect definition of duration zero. *)
Definition ex_buff_zero : Buff.t :=
  Buff.mk "b0" "ATK+" (Some KBuff) SAtk (1 # 10) (Some 0) "ex" None None.

Definition ex_student_a : Student.t :=
  Student.mk "s.a" "A" ex_stats (NormalAttack.mk 1 1) None
    [ExSkill.mk "ex1" "EX" [ex_buff];
     ExSkill.mk "ex0" "EX" [ex_buff_short; ex_buff_zero]].

Definition ex_student_b : Student.t :=
  Student.mk "s.b" "B" ex_stats (NormalAttack.mk 1 1) None [].

Definition ex_students : list Student.t := [ex_student_a; ex_student_b].

Definition ex_enemy : Enemy.t := Enemy.mk "enemy" "E" ex_stats.

(** A cast as [handleDrop] creates it (lines 689-704). *)
Definition ex_event : ExEvent.t :=
  ExEvent.mk "e1" "s.a" Ex "ex1" 0 (Some 5) MSelf (Some ["s.a"]) None.

(** A cast of mode [self] that carries the id list of another student. *)
Definition ex_event_stale : ExEvent.t :=
  ExEvent.mk "e1" "s.a" Ex "ex1" 0 (Some 5) MSelf (Some ["s.b"]) None.

(** The same cast with an override that selects mode [student] and no
    id. *)
Definition ex_event_stale_override : ExEvent.t :=
  ExEvent.mk "e1" "s.a" Ex "ex1" 0 (Some 5) MSelf (Some ["s.b"])
    (Some [("b1", TargetSpec.mk MStudent (Some []))]).

(** A cast whose id list names one student twice. *)
Definition ex_event_twice : ExEvent.t :=
  ExEvent.mk "e1" "s.a" Ex "ex1" 0 (Some 5) MStudent (Some ["s.b"; "s.b"])
    None.

(** A cast that names both students. *)
Definition ex_event_both : ExEvent.t :=
  ExEvent.mk "e1" "s.a" Ex "ex1" 0 (Some 5) MStudent (Some ["s.b"; "s.a"])
    None.

(** The cast [handleDrop] creates for the skill of the short effects. *)
Definition ex_event_short : ExEvent.t :=
  ExEvent.mk "e1" "s.a" Ex "ex0" 0 (Some (1 # 100)) MSelf (Some ["s.a"]) None.

(** The cast [handleDrop] creates at the end of a timeline of 60. *)
Definition ex_event_late : ExEvent.t :=
  ExEvent.mk "e1" "s.a" Ex "ex1" 60 (Some 6) MSelf (Some ["s.a"]) None.

Definition ex_state (events : list ExEvent.t) : AppState.t :=
  AppState.mk ex_students events [] [] 60 (1 # 10) ex_enemy.

Definition ex_instance (id : string) (stat : BuffStat) (start end_ : Q)
  : BuffInstance.t :=
  BuffInstance.mk id "s.a" "s.a" "ATK+" KBuff stat (1 # 10) start end_ "ex"
    Ex "ex1" (Some "e1") "b1".

(** * Properties *)

(** ** Numbers *)

Lemma ltb_lt (a b : Q) : ltb a b = true <-> a < b.
Proof.
  unfold ltb. rewrite negb_true_iff. split; intros H.
  - apply Qnot_le_lt. intros Hle. apply Qle_bool_iff in Hle. congruence.
  - destruct (Qle_bool b a) eqn:E; [| reflexivity].
    apply Qle_bool_iff in E. lra.
Qed.

Lemma ltb_ge (a b : Q) : ltb a b = false <-> b <= a.
Proof.
  unfold ltb. rewrite negb_false_iff. apply Qle_bool_iff.
Qed.

Lemma leb_le (a b : Q) : leb a b = true <-> a <= b.
Proof. apply Qle_bool_iff. Qed.

Lemma leb_gt (a b : Q) : leb a b = false <-> b < a.
Proof.
  unfold leb. split; intros H.
  - apply Qnot_le_lt. intros Hle. apply Qle_bool_iff in Hle. congruence.
  - destruct (Qle_bool a b) eqn:E; [| reflexivity].
    apply Qle_bool_iff in E. lra.
Qed.

Ltac qprop :=
  repeat match goal with
  | H : ltb _ _ = true |- _ => apply ltb_lt in H
  | H : ltb _ _ = false |- _ => apply ltb_ge in H
  | H : leb _ _ = true |- _ => apply leb_le in H
  | H : leb _ _ = false |- _ => apply leb_gt in H
  | H : (_ ?= _) = Eq |- _ => apply Qeq_alt in H
  | H : (_ ?= _) = Lt |- _ => apply Qlt_alt in H
  | H : (_ ?= _) = Gt |- _ => apply Qgt_alt in H
  end.

Lemma Math_min_spec (a b : Q) :
  (a <= b /\ Math_min a b = a) \/ (b < a /\ Math_min a b = b).
Proof.
  unfold Math_min. destruct (Qle_bool a b) eqn:E.
  - left. split; [now apply Qle_bool_iff | reflexivity].
  - right. split; [now apply leb_gt | reflexivity].
Qed.

Lemma Math_max_spec (a b : Q) :
  (a <= b /\ Math_max a b = b) \/ (b < a /\ Math_max a b = a).
Proof.
  unfold Math_max. destruct (Qle_bool a b) eqn:E.
  - left. split; [now apply Qle_bool_iff | reflexivity].
  - right. split; [now apply leb_gt | reflexivity].
Qed.

Lemma Math_min_le_r (a b : Q) : Math_min a b <= b.
Proof. destruct (Math_min_spec a b) as [[H ->] | [H ->]]; lra. Qed.

Lemma Math_min_le_l (a b : Q) : Math_min a b <= a.
Proof. destruct (Math_min_spec a b) as [[H ->] | [H ->]]; lra. Qed.

Lemma Math_max_ge_l (a b : Q) : a <= Math_max a b.
Proof. destruct (Math_max_spec a b) as [[H ->] | [H ->]]; lra. Qed.

(** ** Lists *)

Lemma Permutation_filter {A : Type} (p : A -> bool) (l l' : list A) :
  Permutation l l' -> Permutation (filter p l) (filter p l').
Proof.
  induction 1 as [| x l l' _ IH | x y l | l l' l'' _ IH1 _ IH2]; simpl.
  - constructor.
  - destruct (p x); [now constructor | assumption].
  - destruct (p x), (p y); try reflexivity. constructor.
  - now transitivity (filter p l').
Qed.

Lemma filter_flat_map {A B : Type} (p : B -> bool) (f : A -> list B)
  (l : list A) :
  filter p (flat_map f l) = flat_map (fun x => filter p (f x)) l.
Proof.
  induction l as [| x l IH]; simpl; [reflexivity |].
  now rewrite filter_app, IH.
Qed.

Lemma filter_nil_iff {A : Type} (p : A -> bool) (l : list A) :
  filter p l = [] <-> forall x, In x l -> p x = false.
Proof.
  induction l as [| y l IH]; simpl.
  - split; [intros _ x [] | reflexivity].
  - destruct (p y) eqn:E; split.
    + discriminate.
    + intros H. specialize (H y (or_introl eq_refl)). congruence.
    + intros H x [<- | Hx]; [assumption | now apply IH].
    + intros H. apply IH. intros x Hx. apply H. now right.
Qed.

Lemma filter_id_iff {A : Type} (p : A -> bool) (l : list A) :
  (forall x, In x l -> p x = true) -> filter p l = l.
Proof.
  intros H. apply forallb_filter_id. apply forallb_forall. exact H.
Qed.

Lemma StronglySorted_app {A : Type} (R : A -> A -> Prop) (l1 l2 : list A) :
  StronglySorted R (l1 ++ l2) <->
  StronglySorted R l1 /\ StronglySorted R l2 /\
  (forall a b, In a l1 -> In b l2 -> R a b).
Proof.
  induction l1 as [| x l1 IH]; simpl.
  - split.
    + intros H. repeat split; [constructor | assumption | intros a b []].
    + now intros (_ & H & _).
  - split.
    + intros H. apply StronglySorted_inv in H as [Hs Hf].
      apply IH in Hs as (H1 & H2 & H12).
      rewrite Forall_app in Hf. destruct Hf as [Hf1 Hf2].
      repeat split.
      * now constructor.
      * assumption.
      * intros a b [<- | Ha] Hb.
        -- rewrite Forall_forall in Hf2. now apply Hf2.
        -- now apply H12.
    + intros (H1 & H2 & H12).
      apply StronglySorted_inv in H1 as [Hs Hf].
      constructor.
      * apply IH. repeat split; [assumption | assumption |].
        intros a b Ha Hb. apply H12; [now right | assumption].
      * apply Forall_app. split; [assumption |].
        apply Forall_forall. intros b Hb. apply H12; [now left | assumption].
Qed.

Lemma StronglySorted_rev {A : Type} (R : A -> A -> Prop) (l : list A) :
  StronglySorted (fun a b => R b a) l -> StronglySorted R (rev l).
Proof.
  induction 1 as [| x l Hs IH Hf]; simpl.
  - constructor.
  - apply StronglySorted_app. repeat split.
    + assumption.
    + repeat constructor.
    + intros a b Ha [<- | []]. apply in_rev in Ha.
      rewrite Forall_forall in Hf. now apply Hf.
Qed.

Lemma StronglySorted_filter {A : Type} (R : A -> A -> Prop) (p : A -> bool)
  (l : list A) :
  StronglySorted R l -> StronglySorted R (filter p l).
Proof.
  induction 1 as [| x l Hs IH Hf]; simpl.
  - constructor.
  - destruct (p x); [| assumption].
    constructor; [assumption |].
    apply Forall_forall. intros y Hy. apply filter_In in Hy as [Hy _].
    rewrite Forall_forall in Hf. now apply Hf.
Qed.

(** ** Sorting *)

Lemma sort_insert_perm {A : Type} (compare : A -> A -> comparison) (x : A)
  (l : list A) :
  Permutation (sort_insert compare x l) (x :: l).
Proof.
  induction l as [| y l IH]; simpl.
  - reflexivity.
  - destruct (compare x y); try reflexivity.
    rewrite IH. apply perm_swap.
Qed.

Lemma Array_sort_perm {A : Type} (compare : A -> A -> comparison)
  (l : list A) :
  Permutation (Array_sort compare l) l.
Proof.
  induction l as [| x l IH]; simpl.
  - reflexivity.
  - rewrite sort_insert_perm. now constructor.
Qed.

Lemma Array_sort_In {A : Type} (compare : A -> A -> comparison) (l : list A)
  (x : A) :
  In x (Array_sort compare l) <-> In x l.
Proof.
  split; apply Permutation_in;
    [apply Array_sort_perm | symmetry; apply Array_sort_perm].
Qed.

(** The sorted array is ascending for every transitive relation the
    comparator decides. *)
Lemma sort_insert_sorted {A : Type} (compare : A -> A -> comparison)
  (R : A -> A -> Prop) (x : A) (l : list A) :
  (forall a b c, R a b -> R b c -> R a c) ->
  (forall a b, compare a b <> Gt -> R a b) ->
  (forall a b, compare a b = Gt -> R b a) ->
  StronglySorted R l -> StronglySorted R (sort_insert compare x l).
Proof.
  intros Htrans Hle Hgt. induction 1 as [| y l Hs IH Hf]; simpl.
  - repeat constructor.
  - destruct (compare x y) eqn:E.
    + assert (Hxy : R x y) by (apply Hle; congruence).
      constructor; [now constructor |].
      constructor; [assumption |].
      eapply Forall_impl; [| exact Hf]. intros z Hz. now apply Htrans with y.
    + assert (Hxy : R x y) by (apply Hle; congruence).
      constructor; [now constructor |].
      constructor; [assumption |].
      eapply Forall_impl; [| exact Hf]. intros z Hz. now apply Htrans with y.
    + constructor; [assumption |].
      apply Forall_forall. intros z Hz.
      apply (Permutation_in _ (sort_insert_perm compare x l)) in Hz.
      destruct Hz as [<- | Hz]; [now apply Hgt |].
      rewrite Forall_forall in Hf. now apply Hf.
Qed.

Lemma Array_sort_sorted {A : Type} (compare : A -> A -> comparison)
  (R : A -> A -> Prop) (l : list A) :
  (forall a b c, R a b -> R b c -> R a c) ->
  (forall a b, compare a b <> Gt -> R a b) ->
  (forall a b, compare a b = Gt -> R b a) ->
  StronglySorted R (Array_sort compare l).
Proof.
  intros Htrans Hle Hgt. induction l as [| x l IH]; simpl.
  - constructor.
  - now apply sort_insert_sorted.
Qed.

(** Sorting an ascending array returns it. *)
Lemma Array_sort_id {A : Type} (compare : A -> A -> comparison) (l : list A) :
  Sorted (fun a b => compare a b <> Gt) l -> Array_sort compare l = l.
Proof.
  induction 1 as [| x l Hs IH Hhd]; simpl; [reflexivity |].
  rewrite IH. destruct Hhd as [| y l Hxy]; simpl; [reflexivity |].
  destruct (compare x y); congruence.
Qed.

(** Two ascending arrangements of the same elements coincide when the
    relation is antisymmetric on them. *)
Lemma sorted_perm_unique {A : Type} (R : A -> A -> Prop) (l l' : list A) :
  (forall a b, In a l -> In b l -> R a b -> R b a -> a = b) ->
  StronglySorted R l -> StronglySorted R l' -> Permutation l l' -> l = l'.
Proof.
  intros Hanti Hs. revert l' Hanti.
  induction Hs as [| x l Hs IH Hf]; intros l' Hanti Hs' Hp.
  - apply Permutation_nil in Hp. now subst.
  - destruct Hs' as [| y l' Hs' Hf'].
    + symmetry in Hp. now apply Permutation_nil in Hp.
    + assert (Hxy : x = y).
      { assert (Hy : In y (x :: l))
          by (apply Permutation_in with (y :: l');
              [now symmetry | now left]).
        assert (Hx : In x (y :: l'))
          by (apply Permutation_in with (x :: l); [assumption | now left]).
        destruct Hy as [Hy | Hy]; [assumption |].
        destruct Hx as [Hx | Hx]; [now symmetry |].
        rewrite Forall_forall in Hf, Hf'.
        apply Hanti; [now left | now right | now apply Hf | now apply Hf']. }
      subst y. f_equal.
      apply IH.
      * intros a b Ha Hb. apply Hanti; now right.
      * assumption.
      * now apply Permutation_cons_inv with x.
Qed.

(** ** Dictionaries *)

Lemma dict_get_In {V : Type} (key : string) (d : list (string * V)) (v : V) :
  dict_get key d = Some v -> In (key, v) d.
Proof.
  induction d as [| [k w] d IH]; simpl; [discriminate |].
  destruct (String.eqb k key) eqn:E.
  - apply String.eqb_eq in E. intros [= ->]. left. now subst.
  - intros H. right. now apply IH.
Qed.

Lemma dict_get_None {V : Type} (key : string) (d : list (string * V)) :
  dict_get key d = None <-> ~ In key (map fst d).
Proof.
  induction d as [| [k w] d IH]; simpl.
  - split; [intros _ [] | reflexivity].
  - destruct (String.eqb k key) eqn:E.
    + apply String.eqb_eq in E. split; [discriminate | intros H].
      exfalso. apply H. now left.
    + apply String.eqb_neq in E. rewrite IH. split.
      * intros H [Hk | Hin]; [congruence | contradiction].
      * intros H Hin. apply H. now right.
Qed.

Lemma dict_get_NoDup {V : Type} (key : string) (d : list (string * V)) (v : V) :
  NoDup (map fst d) -> In (key, v) d -> dict_get key d = Some v.
Proof.
  induction d as [| [k w] d IH]; simpl; [intros _ [] |].
  intros Hnd Hin. apply NoDup_cons_iff in Hnd as [Hk Hnd].
  destruct Hin as [[= -> ->] | Hin].
  - now rewrite String.eqb_refl.
  - destruct (String.eqb k key) eqn:E; [| now apply IH].
    apply String.eqb_eq in E. subst k. exfalso. apply Hk.
    apply in_map_iff. now exists (key, v).
Qed.

Lemma dict_set_fresh {V : Type} (key : string) (v : V) (d : list (string * V)) :
  dict_get key d = None -> dict_set key v d = d ++ [(key, v)].
Proof.
  induction d as [| [k w] d IH]; simpl; [reflexivity |].
  destruct (String.eqb k key); [discriminate |].
  intros H. now rewrite IH.
Qed.

Lemma dict_set_keys {V : Type} (key : string) (v w : V)
  (d : list (string * V)) :
  dict_get key d = Some w -> map fst (dict_set key v d) = map fst d.
Proof.
  induction d as [| [k u] d IH]; simpl; [discriminate |].
  destruct (String.eqb k key); simpl; [reflexivity |].
  intros H. now rewrite IH.
Qed.

Lemma dict_set_In {V : Type} (key : string) (v : V) (d : list (string * V))
  (k' : string) (v' : V) :
  NoDup (map fst d) -> In (k', v') (dict_set key v d) ->
  (k' = key /\ v' = v) \/ (k' <> key /\ In (k', v') d).
Proof.
  induction d as [| [k w] d IH]; simpl.
  - intros _ [[= <- <-] | []]. now left.
  - intros Hnd. apply NoDup_cons_iff in Hnd as [Hk Hnd].
    destruct (String.eqb k key) eqn:E.
    + apply String.eqb_eq in E. subst k. intros [[= <- <-] | Hin].
      * now left.
      * right. split; [| now right].
        intros ->. apply Hk. apply in_map_iff. now exists (key, v').
    + apply String.eqb_neq in E. intros [[= <- <-] | Hin].
      * right. split; [assumption | now left].
      * destruct (IH Hnd Hin) as [H | [H1 H2]]; [now left |].
        right. split; [assumption | now right].
Qed.

Lemma dict_set_flat {V : Type} (key : string) (items : list V) (x : V)
  (d : list (string * list V)) :
  dict_get key d = Some items ->
  Permutation (flat_map snd (dict_set key (items ++ [x]) d))
              (x :: flat_map snd d).
Proof.
  induction d as [| [k u] d IH]; simpl; [discriminate |].
  destruct (String.eqb k key); simpl.
  - intros [= ->]. rewrite <- app_assoc. simpl.
    symmetry. apply Permutation_middle.
  - intros H. rewrite (IH H). symmetry. apply Permutation_middle.
Qed.

(** ** Grouping *)

Lemma hasKey_true (key : string) (buff : BuffInstance.t) :
  hasKey key buff = true <-> slotKey buff = key.
Proof. apply String.eqb_eq. Qed.

Lemma hasKey_false (key : string) (buff : BuffInstance.t) :
  hasKey key buff = false <-> slotKey buff <> key.
Proof. apply String.eqb_neq. Qed.

Lemma group_push_inv (grouped : list (string * list BuffInstance.t))
  (seen : list BuffInstance.t) (buff : BuffInstance.t) :
  grouped_for grouped seen ->
  grouped_for (group_push grouped buff) (seen ++ [buff]).
Proof.
  intros (Hnd & Hent & Hcov & Hperm). unfold group_push.
  destruct (dict_get (slotKey buff) grouped) as [items |] eqn:E.
  - repeat split.
    + now rewrite (dict_set_keys _ _ _ _ E).
    + apply (dict_set_In _ _ _ _ _ Hnd) in H as [[-> ->] | [Hne Hin]].
      * apply dict_get_In in E. destruct (Hent _ _ E) as [-> _].
        rewrite filter_app. simpl.
        now rewrite (proj2 (hasKey_true _ _) eq_refl).
      * destruct (Hent _ _ Hin) as [-> _].
        rewrite filter_app. simpl.
        assert (Hf : hasKey key buff = false)
          by (apply hasKey_false; congruence).
        now rewrite Hf, app_nil_r.
    + apply (dict_set_In _ _ _ _ _ Hnd) in H as [[-> ->] | [Hne Hin]].
      * now destruct items.
      * now destruct (Hent _ _ Hin).
    + intros b Hb. rewrite (dict_set_keys _ _ _ _ E).
      apply in_app_iff in Hb as [Hb | [<- | []]]; [now apply Hcov |].
      apply dict_get_In in E. apply in_map_iff. now exists (slotKey buff, items).
    + rewrite (dict_set_flat _ _ _ _ E), Hperm.
      apply Permutation_cons_append.
  - rewrite (dict_set_fresh _ _ _ E).
    pose proof (proj1 (dict_get_None _ _) E) as Hfresh.
    repeat split.
    + rewrite map_app. simpl.
      apply NoDup_app_remove_l with (l := []). simpl.
      apply Permutation_NoDup with (slotKey buff :: map fst grouped).
      * apply Permutation_cons_append.
      * now constructor.
    + apply in_app_iff in H as [Hin | [[= <- <-] | []]].
      * destruct (Hent _ _ Hin) as [-> _].
        rewrite filter_app. simpl.
        assert (Hf : hasKey key buff = false).
        { apply hasKey_false. intros Heq. apply Hfresh. rewrite Heq.
          apply in_map_iff. now exists (key, filter (hasKey key) seen). }
        now rewrite Hf, app_nil_r.
      * rewrite filter_app. simpl.
        rewrite (proj2 (hasKey_true _ _) eq_refl).
        assert (Hnil : filter (hasKey (slotKey buff)) seen = []).
        { apply filter_nil_iff. intros b Hb. apply hasKey_false.
          intros Heq. apply Hfresh. rewrite <- Heq. now apply Hcov. }
        now rewrite Hnil.
    + apply in_app_iff in H as [Hin | [[= <- <-] | []]].
      * now destruct (Hent _ _ Hin).
      * discriminate.
    + intros b Hb. rewrite map_app. apply in_app_iff.
      apply in_app_iff in Hb as [Hb | [<- | []]].
      * left. now apply Hcov.
      * right. now left.
    + rewrite flat_map_app. simpl. now rewrite Hperm.
Qed.

Lemma group_fold_inv (instances seen : list BuffInstance.t)
  (grouped : list (string * list BuffInstance.t)) :
  grouped_for grouped seen ->
  grouped_for (fold_left group_push instances grouped) (seen ++ instances).
Proof.
  revert seen grouped.
  induction instances as [| buff rest IH]; intros seen grouped H; simpl.
  - now rewrite app_nil_r.
  - replace (seen ++ buff :: rest) with ((seen ++ [buff]) ++ rest)
      by now rewrite <- app_assoc.
    apply IH. now apply group_push_inv.
Qed.

Lemma groupInstances_spec (instances : list BuffInstance.t) :
  grouped_for (groupInstances instances) instances.
Proof.
  apply (group_fold_inv instances [] []).
  repeat split; simpl; try constructor; intros; contradiction.
Qed.

(** ** Moving an end *)

Lemma set_end_same (b : BuffInstance.t) :
  BuffInstance.set_end b (BuffInstance.end_ b) = b.
Proof. now destruct b. Qed.

Lemma shrinks_refl (b : BuffInstance.t) : shrinks b b.
Proof. split; [now rewrite set_end_same | lra]. Qed.

Lemma shrinks_trans (a b c : BuffInstance.t) :
  shrinks a b -> shrinks b c -> shrinks a c.
Proof.
  intros [Ha Hab] [Hb Hbc]. split; [| lra].
  rewrite Ha at 1. rewrite Hb. reflexivity.
Qed.

Lemma shrinks_set_end (b : BuffInstance.t) (e : Q) :
  e <= BuffInstance.end_ b -> shrinks (BuffInstance.set_end b e) b.
Proof. intros H. split; [reflexivity | exact H]. Qed.

Lemma shrinks_start (o i : BuffInstance.t) :
  shrinks o i -> BuffInstance.start o = BuffInstance.start i.
Proof. intros [-> _]. reflexivity. Qed.

Lemma shrinks_id (o i : BuffInstance.t) :
  shrinks o i -> BuffInstance.id o = BuffInstance.id i.
Proof. intros [-> _]. reflexivity. Qed.

Lemma shrinks_slotKey (o i : BuffInstance.t) :
  shrinks o i -> slotKey o = slotKey i.
Proof. intros [-> _]. reflexivity. Qed.

Lemma Forall2_In_l {A B : Type} (R : A -> B -> Prop) (l : list A)
  (l' : list B) (x : A) :
  Forall2 R l l' -> In x l -> exists y, In y l' /\ R x y.
Proof.
  induction 1 as [| a b l l' Hab _ IH]; intros Hin; [destruct Hin |].
  destruct Hin as [<- | Hin].
  - exists b. split; [now left | assumption].
  - destruct (IH Hin) as (y & Hy & Hxy). exists y. split; [now right | assumption].
Qed.

Lemma Forall2_rev {A B : Type} (R : A -> B -> Prop) (l : list A)
  (l' : list B) :
  Forall2 R l l' -> Forall2 R (rev l) (rev l').
Proof.
  induction 1 as [| a b l l' Hab _ IH]; simpl; [constructor |].
  apply Forall2_app; [assumption | now repeat constructor].
Qed.

Lemma Forall2_filter_l {A B : Type} (R : A -> B -> Prop) (p : A -> bool)
  (l : list A) (l' : list B) :
  Forall2 R l l' ->
  exists sel rest, Forall2 R (filter p l) sel /\ Permutation l' (sel ++ rest).
Proof.
  induction 1 as [| a b l l' Hab _ (sel & rest & Hf & Hp)]; simpl.
  - exists [], []. split; constructor.
  - destruct (p a).
    + exists (b :: sel), rest. split; [now constructor |].
      simpl. now constructor.
    + exists sel, (b :: rest). split; [assumption |].
      rewrite Hp. apply Permutation_middle.
Qed.

(** ** The sweep *)

(** Every instance left by the sweep is a distinct swept instance, with
    its end moved back or kept. *)
Lemma trim_fold_frame (sorted trimmed seen : list BuffInstance.t) :
  Forall2 shrinks trimmed seen ->
  exists sel rest,
    Forall2 shrinks (fold_left trim_step sorted trimmed) sel /\
    Permutation (seen ++ sorted) (sel ++ rest).
Proof.
  revert trimmed seen.
  induction sorted as [| buff sorted IH]; intros trimmed seen H; simpl.
  - exists seen, []. split; [assumption | reflexivity].
  - destruct H as [| last i below seenB Hli Hbelow]; simpl.
    + destruct (IH [buff] [buff]) as (sel & rest & Hf & Hp).
      { constructor; [apply shrinks_refl | constructor]. }
      exists sel, rest. split; assumption.
    + destruct (ltb (BuffInstance.start buff) (BuffInstance.end_ last)) eqn:Elt.
      * destruct (leb (Math_min (BuffInstance.end_ last)
                                (BuffInstance.start buff))
                      (BuffInstance.start last)) eqn:Epop.
        -- destruct (IH (buff :: below) (buff :: seenB))
             as (sel & rest & Hf & Hp).
           { constructor; [apply shrinks_refl | assumption]. }
           exists sel, (i :: rest). split; [assumption |].
           simpl. transitivity (i :: sel ++ rest);
             [constructor | apply Permutation_middle].
           rewrite <- Hp. simpl. symmetry. apply Permutation_middle.
        -- destruct (IH (buff :: BuffInstance.set_end last
                           (Math_min (BuffInstance.end_ last)
                                     (BuffInstance.start buff)) :: below)
                        (buff :: i :: seenB))
             as (sel & rest & Hf & Hp).
           { constructor; [apply shrinks_refl |].
             constructor; [| assumption].
             apply shrinks_trans with last; [| assumption].
             apply shrinks_set_end, Math_min_le_l. }
           exists sel, rest. split; [assumption |].
           rewrite <- Hp. symmetry.
           apply (Permutation_middle (i :: seenB) sorted buff).
      * destruct (IH (buff :: last :: below) (buff :: i :: seenB))
          as (sel & rest & Hf & Hp).
        { constructor; [apply shrinks_refl |]. now constructor. }
        exists sel, rest. split; [assumption |].
        rewrite <- Hp. symmetry.
        apply (Permutation_middle (i :: seenB) sorted buff).
Qed.

(** On an array ascending in [start], the sweep leaves every instance over
    before the next one begins. *)
Lemma trim_fold_chain (sorted trimmed : list BuffInstance.t) :
  StronglySorted
    (fun a b => BuffInstance.start a <= BuffInstance.start b) sorted ->
  StronglySorted (fun a b => before b a) trimmed ->
  (forall t s, In t trimmed -> In s sorted ->
     BuffInstance.start t <= BuffInstance.start s) ->
  StronglySorted (fun a b => before b a) (fold_left trim_step sorted trimmed).
Proof.
  revert trimmed.
  induction sorted as [| buff sorted IH]; intros trimmed Hs Ht Hle; simpl.
  - assumption.
  - apply StronglySorted_inv in Hs as [Hs Hhd].
    rewrite Forall_forall in Hhd.
    destruct trimmed as [| last below]; simpl.
    + apply IH; [assumption | repeat constructor |].
      intros t s [<- | []] Hin. now apply Hhd.
    + apply StronglySorted_inv in Ht as [Hbelow Hlast].
      rewrite Forall_forall in Hlast. unfold before in Hlast.
      assert (Hlb : BuffInstance.start last <= BuffInstance.start buff)
        by (apply Hle; now left).
      assert (Hbb : forall e, In e below -> before e buff).
      { intros e He. unfold before. specialize (Hlast e He). lra. }
      assert (Hrest : forall t s, In t below -> In s sorted ->
                BuffInstance.start t <= BuffInstance.start s).
      { intros t s Hin1 Hin2. apply Hle; now right. }
      destruct (ltb (BuffInstance.start buff) (BuffInstance.end_ last)) eqn:Elt.
      * destruct (leb (Math_min (BuffInstance.end_ last)
                                (BuffInstance.start buff))
                      (BuffInstance.start last)) eqn:Epop.
        -- apply IH; [assumption | |].
           ++ constructor; [assumption |]. now apply Forall_forall.
           ++ intros t s [<- | Hin1] Hin2; [now apply Hhd | now apply Hrest].
        -- apply IH; [assumption | |].
           ++ constructor.
              ** constructor; [assumption |]. now apply Forall_forall.
              ** constructor.
                 --- unfold before. simpl. apply Math_min_le_r.
                 --- now apply Forall_forall.
           ++ intros t s [<- | [<- | Hin1]] Hin2;
                [now apply Hhd | | now apply Hrest].
              simpl. apply Hle; [now left | now right].
      * qprop. apply IH; [assumption | |].
        -- constructor.
           ++ constructor; [assumption |]. now apply Forall_forall.
           ++ constructor; [exact Elt |]. now apply Forall_forall.
        -- intros t s [<- | [<- | Hin1]] Hin2;
             [now apply Hhd | | now apply Hrest].
           apply Hle; [now left | now right].
Qed.

(** On an array whose instances are already over before the next begins,
    the sweep changes nothing. *)
Lemma trim_fold_id (sorted trimmed : list BuffInstance.t) :
  StronglySorted before sorted ->
  (forall t s, In t trimmed -> In s sorted -> before t s) ->
  fold_left trim_step sorted trimmed = rev sorted ++ trimmed.
Proof.
  revert trimmed.
  induction sorted as [| buff sorted IH]; intros trimmed Hs Hle; simpl.
  - reflexivity.
  - apply StronglySorted_inv in Hs as [Hs Hhd].
    rewrite Forall_forall in Hhd.
    assert (Hstep : trim_step trimmed buff = buff :: trimmed).
    { destruct trimmed as [| last below]; simpl; [reflexivity |].
      assert (Hb : before last buff) by (apply Hle; now left).
      unfold before in Hb. apply ltb_ge in Hb. now rewrite Hb. }
    rewrite Hstep, IH, <- app_assoc; [reflexivity | assumption |].
    intros t s [<- | Hin1] Hin2; [now apply Hhd |].
    apply Hle; [assumption | now right].
Qed.

(** ** One group *)

Lemma compareInstances_le (a b : BuffInstance.t) :
  compareInstances a b <> Gt -> BuffInstance.start a <= BuffInstance.start b.
Proof.
  unfold compareInstances.
  destruct (Qcompare_spec (BuffInstance.start a) (BuffInstance.start b));
    intros Hc; try lra. congruence.
Qed.

Lemma compareInstances_gt (a b : BuffInstance.t) :
  compareInstances a b = Gt -> BuffInstance.start b <= BuffInstance.start a.
Proof.
  unfold compareInstances.
  destruct (Qcompare_spec (BuffInstance.start a) (BuffInstance.start b));
    intros Hc; try lra. discriminate.
Qed.

Lemma sorted_by_start (list_ : list BuffInstance.t) :
  StronglySorted
    (fun a b => BuffInstance.start a <= BuffInstance.start b)
    (Array_sort compareInstances list_).
Proof.
  apply Array_sort_sorted.
  - intros a b c H1 H2. lra.
  - apply compareInstances_le.
  - apply compareInstances_gt.
Qed.

Lemma trim_chain (sorted : list BuffInstance.t) :
  StronglySorted
    (fun a b => BuffInstance.start a <= BuffInstance.start b) sorted ->
  StronglySorted before (trim sorted).
Proof.
  intros Hs. unfold trim. apply StronglySorted_rev.
  apply trim_fold_chain; [assumption | constructor | intros t s []].
Qed.

Lemma resolveGroup_chain (list_ : list BuffInstance.t) :
  StronglySorted before (resolveGroup list_).
Proof.
  unfold resolveGroup. apply StronglySorted_filter, trim_chain, sorted_by_start.
Qed.

Lemma positive_lt (buff : BuffInstance.t) :
  positive buff = true <-> BuffInstance.start buff < BuffInstance.end_ buff.
Proof. apply ltb_lt. Qed.

Lemma resolveGroup_positive (list_ : list BuffInstance.t) (o : BuffInstance.t) :
  In o (resolveGroup list_) -> BuffInstance.start o < BuffInstance.end_ o.
Proof.
  unfold resolveGroup. intros H. apply filter_In in H as [_ H].
  now apply positive_lt.
Qed.

Lemma resolveGroup_frame (list_ : list BuffInstance.t) :
  exists sel rest,
    Forall2 shrinks (resolveGroup list_) sel /\
    Permutation list_ (sel ++ rest).
Proof.
  unfold resolveGroup, trim.
  destruct (trim_fold_frame (Array_sort compareInstances list_) [] [])
    as (sel & rest & Hf & Hp); [constructor |].
  apply Forall2_rev in Hf.
  destruct (Forall2_filter_l shrinks positive _ _ Hf)
    as (sel' & rest' & Hf' & Hp').
  exists sel', (rest' ++ rest). split; [assumption |].
  rewrite app_assoc, <- Hp', <- Permutation_rev, <- Hp. simpl.
  symmetry. apply Array_sort_perm.
Qed.

Lemma resolveGroup_In (list_ : list BuffInstance.t) (o : BuffInstance.t) :
  In o (resolveGroup list_) -> exists i, In i list_ /\ shrinks o i.
Proof.
  intros Ho. destruct (resolveGroup_frame list_) as (sel & rest & Hf & Hp).
  destruct (Forall2_In_l _ _ _ _ Hf Ho) as (i & Hi & Hoi).
  exists i. split; [| assumption].
  apply Permutation_in with (sel ++ rest); [now symmetry |].
  apply in_app_iff. now left.
Qed.

Lemma resolveGroup_key (list_ : list BuffInstance.t) (key : string)
  (o : BuffInstance.t) :
  (forall b, In b list_ -> slotKey b = key) ->
  In o (resolveGroup list_) -> slotKey o = key.
Proof.
  intros Hk Ho. destruct (resolveGroup_In _ _ Ho) as (i & Hi & Hoi).
  rewrite (shrinks_slotKey _ _ Hoi). now apply Hk.
Qed.

(** A group that is already resolved is left as it is. *)
Lemma resolveGroup_fixed (list_ : list BuffInstance.t) :
  StronglySorted before list_ ->
  (forall b, In b list_ -> BuffInstance.start b < BuffInstance.end_ b) ->
  resolveGroup list_ = list_.
Proof.
  intros Hs Hpos. unfold resolveGroup.
  assert (Hsort : Array_sort compareInstances list_ = list_).
  { apply Array_sort_id. clear - Hs Hpos.
    induction Hs as [| x l Hs IH Hf]; [constructor |].
    constructor.
    - apply IH. intros b Hb. apply Hpos. now right.
    - destruct l as [| y l]; constructor.
      apply Forall_inv in Hf. unfold before in Hf.
      specialize (Hpos x (or_introl eq_refl)).
      unfold compareInstances.
      destruct (Qcompare_spec (BuffInstance.start x) (BuffInstance.start y));
        try lra. discriminate. }
  rewrite Hsort. unfold trim.
  rewrite trim_fold_id; [| assumption | intros t s []].
  rewrite app_nil_r, rev_involutive.
  apply filter_id_iff. intros b Hb. apply positive_lt. now apply Hpos.
Qed.

Lemma resolveGroup_idem (list_ : list BuffInstance.t) :
  resolveGroup (resolveGroup list_) = resolveGroup list_.
Proof.
  apply resolveGroup_fixed.
  - apply resolveGroup_chain.
  - apply resolveGroup_positive.
Qed.

(** ** The resolved output, key by key *)

Lemma filter_key_flat_map
  (f : string * list BuffInstance.t -> list BuffInstance.t)
  (grouped : list (string * list BuffInstance.t)) (key : string) :
  NoDup (map fst grouped) ->
  (forall e o, In e grouped -> In o (f e) -> slotKey o = fst e) ->
  filter (hasKey key) (flat_map f grouped) =
  match dict_get key grouped with
  | Some list_ => f (key, list_)
  | None => []
  end.
Proof.
  induction grouped as [| [k g] grouped IH]; simpl; [reflexivity |].
  intros Hnd Hkeys. apply NoDup_cons_iff in Hnd as [Hk Hnd].
  rewrite filter_app, IH; [| assumption | intros e o He; apply Hkeys; now right].
  destruct (String.eqb k key) eqn:E.
  - apply String.eqb_eq in E. subst k.
    rewrite (proj2 (dict_get_None key grouped) Hk), app_nil_r.
    apply filter_id_iff. intros o Ho. apply hasKey_true.
    now apply (Hkeys (key, g) o (or_introl eq_refl)).
  - apply String.eqb_neq in E.
    replace (filter (hasKey key) (f (k, g))) with (@nil BuffInstance.t);
      [reflexivity |].
    symmetry. apply filter_nil_iff. intros o Ho. apply hasKey_false.
    rewrite (Hkeys (k, g) o (or_introl eq_refl) Ho). exact E.
Qed.

(** The instances of the output filed under [key] are the resolution of
    the input instances filed under [key]. *)
Lemma applyOverwriteRules_key (instances : list BuffInstance.t)
  (key : string) :
  filter (hasKey key) (applyOverwriteRules instances) =
  resolveGroup (filter (hasKey key) instances).
Proof.
  destruct (groupInstances_spec instances) as (Hnd & Hent & Hcov & Hperm).
  unfold applyOverwriteRules.
  rewrite filter_key_flat_map; [| assumption |].
  - destruct (dict_get key (groupInstances instances)) as [g |] eqn:E.
    + apply dict_get_In in E. destruct (Hent _ _ E) as [-> _]. reflexivity.
    + apply dict_get_None in E.
      replace (filter (hasKey key) instances) with (@nil BuffInstance.t);
        [reflexivity |].
      symmetry. apply filter_nil_iff. intros b Hb. apply hasKey_false.
      intros Heq. apply E. rewrite <- Heq. now apply Hcov.
  - intros [k g] o He Ho. simpl in *.
    destruct (Hent _ _ He) as [-> _].
    apply resolveGroup_key with (list_ := filter (hasKey k) instances);
      [| assumption].
    intros b Hb. apply filter_In in Hb as [_ Hb]. now apply hasKey_true.
Qed.

Lemma perm_by_key (l l' : list BuffInstance.t) :
  (forall key, Permutation (filter (hasKey key) l) (filter (hasKey key) l')) ->
  Permutation l l'.
Proof.
  revert l'. induction l as [| a l IH]; intros l' H.
  - destruct l' as [| b l']; [constructor |].
    specialize (H (slotKey b)). simpl in H.
    rewrite (proj2 (hasKey_true _ _) eq_refl) in H.
    now apply Permutation_nil in H.
  - assert (Ha : In a l').
    { specialize (H (slotKey a)). simpl in H.
      rewrite (proj2 (hasKey_true _ _) eq_refl) in H.
      assert (Hin : In a (filter (hasKey (slotKey a)) l'))
        by (apply Permutation_in with (1 := H); now left).
      now apply filter_In in Hin. }
    apply in_split in Ha as (l1 & l2 & ->).
    apply Permutation_cons_app. apply IH. intros key.
    specialize (H key). rewrite filter_app in *. simpl in H.
    destruct (hasKey key a); [| assumption].
    now apply Permutation_cons_app_inv in H.
Qed.

(** ** Regrouping a resolved output *)

Lemma dict_get_app_fresh {V : Type} (key : string) (d d' : list (string * V)) :
  ~ In key (map fst d) -> dict_get key (d ++ d') = dict_get key d'.
Proof.
  induction d as [| [k w] d IH]; simpl; [reflexivity |].
  intros H. destruct (String.eqb k key) eqn:E.
  - apply String.eqb_eq in E. exfalso. apply H. now left.
  - apply IH. intros Hin. apply H. now right.
Qed.

Lemma dict_set_app_fresh {V : Type} (key : string) (v : V)
  (d d' : list (string * V)) :
  ~ In key (map fst d) -> dict_set key v (d ++ d') = d ++ dict_set key v d'.
Proof.
  induction d as [| [k w] d IH]; simpl; [reflexivity |].
  intros H. destruct (String.eqb k key) eqn:E.
  - apply String.eqb_eq in E. exfalso. apply H. now left.
  - f_equal. apply IH. intros Hin. apply H. now right.
Qed.

Lemma group_push_present (key : string) (list_ : list BuffInstance.t)
  (grouped : list (string * list BuffInstance.t)) (b : BuffInstance.t) :
  slotKey b = key -> ~ In key (map fst grouped) ->
  group_push (grouped ++ [(key, list_)]) b =
  grouped ++ [(key, list_ ++ [b])].
Proof.
  intros Hb Hfresh. unfold group_push. rewrite Hb.
  rewrite dict_get_app_fresh by assumption.
  cbn [dict_get]. rewrite String.eqb_refl.
  rewrite dict_set_app_fresh by assumption.
  cbn [dict_set]. now rewrite String.eqb_refl.
Qed.

Lemma group_push_fresh (grouped : list (string * list BuffInstance.t))
  (b : BuffInstance.t) :
  ~ In (slotKey b) (map fst grouped) ->
  group_push grouped b = grouped ++ [(slotKey b, [b])].
Proof.
  intros Hfresh. unfold group_push.
  rewrite (proj2 (dict_get_None _ grouped) Hfresh).
  apply dict_set_fresh. now apply dict_get_None.
Qed.

Lemma group_fold_block (key : string) (block list_ : list BuffInstance.t)
  (grouped : list (string * list BuffInstance.t)) :
  (forall b, In b block -> slotKey b = key) ->
  ~ In key (map fst grouped) ->
  fold_left group_push block (grouped ++ [(key, list_)]) =
  grouped ++ [(key, list_ ++ block)].
Proof.
  revert list_.
  induction block as [| b block IH]; intros list_ Hk Hfresh; cbn [fold_left].
  - now rewrite app_nil_r.
  - rewrite group_push_present;
      [| apply Hk; now left | assumption].
    rewrite IH; [| intros b' Hb'; apply Hk; now right | assumption].
    now rewrite <- app_assoc.
Qed.

Lemma group_fold_blocks (blocks grouped : list (string * list BuffInstance.t)) :
  NoDup (map fst grouped ++ map fst blocks) ->
  (forall key block b, In (key, block) blocks -> In b block ->
     slotKey b = key) ->
  fold_left group_push (flat_map snd blocks) grouped =
  grouped ++ filter (fun e => negb (Nat.eqb (List.length (snd e)) 0)) blocks.
Proof.
  revert grouped.
  induction blocks as [| [key block] blocks IH]; intros grouped Hnd Hk.
  - cbn. now rewrite app_nil_r.
  - cbn [flat_map snd filter]. rewrite fold_left_app.
    assert (Hfresh : ~ In key (map fst grouped)).
    { cbn in Hnd. apply NoDup_remove_2 in Hnd.
      intros Hin. apply Hnd. apply in_app_iff. now left. }
    assert (Hrest : forall key' block' b, In (key', block') blocks ->
              In b block' -> slotKey b = key').
    { intros key' block' b Hin. apply Hk. now right. }
    destruct block as [| b block]; cbn [fold_left List.length Nat.eqb negb].
    + apply IH; [| assumption]. cbn in Hnd. now apply NoDup_remove_1 in Hnd.
    + assert (Hb : slotKey b = key)
        by (apply (Hk key (b :: block)); now left).
      rewrite group_push_fresh by now rewrite Hb.
      rewrite Hb.
      rewrite group_fold_block;
        [| intros b' Hb'; apply (Hk key (b :: block));
           [now left | now right] | assumption].
      cbn [app]. rewrite IH; [| | assumption].
      * now rewrite <- app_assoc.
      * rewrite map_app. cbn [map fst]. rewrite <- app_assoc. exact Hnd.
Qed.

Lemma flat_map_blocks {A : Type} (f : list A -> list A)
  (grouped : list (string * list A)) :
  flat_map (fun entry => f (snd entry)) grouped =
  flat_map snd (map (fun e => (fst e, f (snd e))) grouped).
Proof.
  induction grouped as [| e grouped IH]; simpl;
    [reflexivity | now rewrite IH].
Qed.

Lemma flat_map_ext_In {A B : Type} (f g : A -> list B) (l : list A) :
  (forall x, In x l -> f x = g x) -> flat_map f l = flat_map g l.
Proof.
  induction l as [| x l IH]; simpl; intros H; [reflexivity |].
  rewrite (H x (or_introl eq_refl)), IH; [reflexivity |].
  intros y Hy. apply H. now right.
Qed.

Lemma flat_map_nonempty {A : Type} (blocks : list (string * list A)) :
  flat_map snd
    (filter (fun e => negb (Nat.eqb (List.length (snd e)) 0)) blocks) =
  flat_map snd blocks.
Proof.
  induction blocks as [| [k [| x block]] blocks IH]; simpl;
    [reflexivity | assumption | now rewrite IH].
Qed.

Lemma applyOverwriteRules_frame_groups
  (grouped : list (string * list BuffInstance.t)) :
  exists sel rest,
    Forall2 shrinks (flat_map (fun entry => resolveGroup (snd entry)) grouped)
            sel /\
    Permutation (flat_map snd grouped) (sel ++ rest).
Proof.
  induction grouped as [| [k g] grouped (sel2 & rest2 & Hf2 & Hp2)]; simpl.
  - exists [], []. split; constructor.
  - destruct (resolveGroup_frame g) as (sel1 & rest1 & Hf1 & Hp1).
    exists (sel1 ++ sel2), (rest1 ++ rest2). split.
    + now apply Forall2_app.
    + rewrite Hp1, Hp2, <- !app_assoc.
      apply Permutation_app_head. apply Permutation_app_swap_app.
Qed.

(** ** Claims on the Overwrite Resolution Engine *)

(** C10.  Frame property of [applyOverwriteRules]: the output instances
    are, one for one, distinct input instances whose [end] was kept or
    moved back; every other field (id, target, source, name, kind, stat,
    magnitude, stack group, start and provenance) is the input's, and
    nothing is in the output that was not in the input. *)
Theorem applyOverwriteRules_frame (instances : list BuffInstance.t) :
  (exists sel rest,
     Permutation instances (sel ++ rest) /\
     Forall2 shrinks (applyOverwriteRules instances) sel) /\
  (forall o, In o (applyOverwriteRules instances) ->
     exists i, In i instances /\
       BuffInstance.id o = BuffInstance.id i /\
       BuffInstance.studentId o = BuffInstance.studentId i /\
       BuffInstance.sourceStudentId o = BuffInstance.sourceStudentId i /\
       BuffInstance.name o = BuffInstance.name i /\
       BuffInstance.kind o = BuffInstance.kind i /\
       BuffInstance.stat o = BuffInstance.stat i /\
       BuffInstance.value o = BuffInstance.value i /\
       BuffInstance.stackGroup o = BuffInstance.stackGroup i /\
       BuffInstance.start o = BuffInstance.start i /\
       BuffInstance.source o = BuffInstance.source i /\
       BuffInstance.sourceId o = BuffInstance.sourceId i /\
       BuffInstance.sourceEventId o = BuffInstance.sourceEventId i /\
       BuffInstance.sourceBuffId o = BuffInstance.sourceBuffId i /\
       BuffInstance.end_ o <= BuffInstance.end_ i).
Proof.
  destruct (groupInstances_spec instances) as (_ & _ & _ & Hperm).
  destruct (applyOverwriteRules_frame_groups (groupInstances instances))
    as (sel & rest & Hf & Hp).
  assert (Hp' : Permutation instances (sel ++ rest))
    by (now rewrite <- Hp, Hperm).
  split.
  - exists sel, rest. split; assumption.
  - intros o Ho.
    destruct (Forall2_In_l _ _ _ _ Hf Ho) as (i & Hi & [Heq Hle]).
    exists i. split.
    + apply Permutation_in with (sel ++ rest); [now symmetry |].
      apply in_app_iff. now left.
    + rewrite Heq. simpl. repeat split; try reflexivity.
      rewrite Heq in Hle. exact Hle.
Qed.

(** C4.  [applyOverwriteRules] is idempotent: run on its own output it
    returns that output, as the same array. *)
Theorem applyOverwriteRules_idempotent (instances : list BuffInstance.t) :
  applyOverwriteRules (applyOverwriteRules instances) =
  applyOverwriteRules instances.
Proof.
  destruct (groupInstances_spec instances) as (Hnd & Hent & _ & _).
  set (blocks := map (fun e => (fst e, resolveGroup (snd e)))
                     (groupInstances instances)).
  assert (Hout : applyOverwriteRules instances = flat_map snd blocks).
  { unfold applyOverwriteRules, blocks. apply flat_map_blocks. }
  assert (Hkeys : map fst blocks = map fst (groupInstances instances)).
  { unfold blocks. rewrite map_map. reflexivity. }
  assert (Hblock : forall key block, In (key, block) blocks ->
            (forall b, In b block -> slotKey b = key) /\
            resolveGroup block = block).
  { intros key block Hin. unfold blocks in Hin.
    apply in_map_iff in Hin as ([k g] & [= <- <-] & Hin). simpl.
    split; [| apply resolveGroup_idem].
    intros b Hb. destruct (Hent _ _ Hin) as [-> _].
    apply resolveGroup_key with (list_ := filter (hasKey k) instances);
      [| assumption].
    intros b' Hb'. apply filter_In in Hb' as [_ Hb']. now apply hasKey_true. }
  rewrite Hout at 1. unfold applyOverwriteRules at 1, groupInstances.
  rewrite group_fold_blocks; cbn [app map].
  - rewrite Hout, <- (flat_map_nonempty blocks).
    apply flat_map_ext_In. intros [key block] Hin.
    apply filter_In in Hin as [Hin _]. now apply (Hblock key block).
  - now rewrite Hkeys.
  - intros key block b Hin. now apply (Hblock key block).
Qed.

(** ** Slots and keys *)

Lemma BuffStat_eqb_eq (a b : BuffStat) : BuffStat_eqb a b = true <-> a = b.
Proof. destruct a, b; simpl; split; congruence. Qed.

Lemma EffectKind_eqb_eq (a b : EffectKind) :
  EffectKind_eqb a b = true <-> a = b.
Proof. destruct a, b; simpl; split; congruence. Qed.

Lemma Slot_eqb_eq (s s' : Slot) : Slot_eqb s s' = true <-> s = s'.
Proof.
  destruct s as [[[t st] g] k], s' as [[[t' st'] g'] k']. simpl.
  rewrite !andb_true_iff, !String.eqb_eq, BuffStat_eqb_eq, EffectKind_eqb_eq.
  split.
  - intros [[[-> ->] ->] ->]. reflexivity.
  - intros [= -> -> -> ->]. auto.
Qed.

Lemma slotKey_slotOf (buff : BuffInstance.t) :
  slotKey buff = Slot_key (slotOf buff).
Proof. reflexivity. Qed.

Lemma inSlot_hasKey (slot : Slot) (buff : BuffInstance.t) :
  inSlot slot buff = true -> hasKey (Slot_key slot) buff = true.
Proof.
  unfold inSlot. rewrite Slot_eqb_eq. intros <-.
  apply hasKey_true, slotKey_slotOf.
Qed.

Lemma filter_refine {A : Type} (p q : A -> bool) (l : list A) :
  (forall x, p x = true -> q x = true) ->
  filter p l = filter p (filter q l).
Proof.
  intros H. induction l as [| x l IH]; simpl; [reflexivity |].
  destruct (p x) eqn:Ep.
  - rewrite (H x Ep). simpl. now rewrite Ep, IH.
  - destruct (q x); simpl; [now rewrite Ep |]; assumption.
Qed.

Lemma applyOverwriteRules_positive (instances : list BuffInstance.t)
  (o : BuffInstance.t) :
  In o (applyOverwriteRules instances) ->
  BuffInstance.start o < BuffInstance.end_ o.
Proof.
  unfold applyOverwriteRules. intros H.
  apply in_flat_map in H as (e & _ & H).
  now apply resolveGroup_positive in H.
Qed.

(** ** The tie-break *)

Lemma compareInstances_antisym (a b : BuffInstance.t) :
  total_order localeCompare ->
  compareInstances b a = CompOpp (compareInstances a b).
Proof.
  intros (Hanti & _ & _). unfold compareInstances.
  rewrite <- (Qcompare_antisym (BuffInstance.start a) (BuffInstance.start b)).
  destruct (BuffInstance.start a ?= BuffInstance.start b); simpl;
    [apply Hanti | reflexivity | reflexivity].
Qed.

Lemma localeCompare_le_trans (a b c : string) :
  total_order localeCompare ->
  localeCompare a b <> Gt -> localeCompare b c <> Gt ->
  localeCompare a c <> Gt.
Proof.
  intros (_ & Htrans & Heq) Hab Hbc.
  destruct (localeCompare a b) eqn:Eab; [| | congruence].
  - apply Heq in Eab. now subst.
  - destruct (localeCompare b c) eqn:Ebc; [| | congruence].
    + apply Heq in Ebc. subst. congruence.
    + rewrite (Htrans a b c Eab Ebc). discriminate.
Qed.

Lemma compareInstances_le_trans (a b c : BuffInstance.t) :
  total_order localeCompare ->
  compareInstances a b <> Gt -> compareInstances b c <> Gt ->
  compareInstances a c <> Gt.
Proof.
  intros Hto. unfold compareInstances.
  destruct (Qcompare_spec (BuffInstance.start a) (BuffInstance.start b))
    as [Hab | Hab | Hab];
  destruct (Qcompare_spec (BuffInstance.start b) (BuffInstance.start c))
    as [Hbc | Hbc | Hbc];
  destruct (Qcompare_spec (BuffInstance.start a) (BuffInstance.start c))
    as [Hac | Hac | Hac];
  intros H1 H2; try congruence; try lra.
  now apply localeCompare_le_trans with (BuffInstance.id b).
Qed.

Lemma compareInstances_Eq (a b : BuffInstance.t) :
  total_order localeCompare ->
  compareInstances a b = Eq ->
  BuffInstance.start a == BuffInstance.start b /\
  BuffInstance.id a = BuffInstance.id b.
Proof.
  intros (_ & _ & Heq). unfold compareInstances.
  destruct (Qcompare_spec (BuffInstance.start a) (BuffInstance.start b))
    as [Hab | Hab | Hab]; try discriminate.
  intros H. split; [assumption | now apply Heq].
Qed.

(** Sorting forgets the order of the input when tied instances are
    identical. *)
Lemma Array_sort_perm_eq (l l' : list BuffInstance.t) :
  total_order localeCompare ->
  Permutation l l' ->
  (forall a b, In a l -> In b l -> compareInstances a b = Eq -> a = b) ->
  Array_sort compareInstances l = Array_sort compareInstances l'.
Proof.
  intros Hto Hp Hties.
  assert (Hsorted : forall m,
            StronglySorted (fun a b => compareInstances a b <> Gt)
                           (Array_sort compareInstances m)).
  { intros m. apply Array_sort_sorted.
    - intros a b c. now apply compareInstances_le_trans.
    - auto.
    - intros a b Hgt. rewrite (compareInstances_antisym a b Hto), Hgt.
      discriminate. }
  apply sorted_perm_unique
    with (R := fun a b => compareInstances a b <> Gt).
  - intros a b Ha Hb Hab Hba. apply Array_sort_In in Ha, Hb.
    apply Hties; [assumption | assumption |].
    rewrite (compareInstances_antisym a b Hto) in Hba.
    destruct (compareInstances a b); simpl in *; congruence.
  - apply Hsorted.
  - apply Hsorted.
  - now rewrite !Array_sort_perm.
Qed.

(** C1 (as amended).  Within every Modifier Slot the resolved instances
    are time-ordered, each over before the next begins, and each of
    positive length; and the output is the same set for every permutation
    of the input, provided the collation is a total order and input
    instances that agree on grouping key, start and id are identical. *)
Theorem applyOverwriteRules_slots :
  (forall instances slot,
     StronglySorted before
       (filter (inSlot slot) (applyOverwriteRules instances)) /\
     Forall (fun b => BuffInstance.start b < BuffInstance.end_ b)
       (filter (inSlot slot) (applyOverwriteRules instances))) /\
  (total_order localeCompare ->
   forall instances instances',
     Permutation instances instances' ->
     (forall a b, In a instances -> In b instances -> tied a b -> a = b) ->
     Permutation (applyOverwriteRules instances)
                 (applyOverwriteRules instances')).
Proof.
  split.
  - intros instances slot. split.
    + rewrite (filter_refine _ (hasKey (Slot_key slot)))
        by apply inSlot_hasKey.
      rewrite applyOverwriteRules_key.
      apply StronglySorted_filter, resolveGroup_chain.
    + apply Forall_forall. intros b Hb. apply filter_In in Hb as [Hb _].
      now apply applyOverwriteRules_positive in Hb.
  - intros Hto instances instances' Hp Hties.
    apply perm_by_key. intros key.
    rewrite !applyOverwriteRules_key. unfold resolveGroup.
    rewrite (Array_sort_perm_eq (filter (hasKey key) instances)
               (filter (hasKey key) instances') Hto);
      [reflexivity | now apply Permutation_filter |].
    intros a b Ha Hb Hab.
    apply filter_In in Ha as [Ha Hka], Hb as [Hb Hkb].
    apply hasKey_true in Hka, Hkb.
    destruct (compareInstances_Eq a b Hto Hab) as [Hs Hi].
    apply Hties; [assumption | assumption |].
    repeat split; [congruence | assumption | assumption].
Qed.

(** ** The Target Resolver and the Instance Expander *)

Lemma includes_In (ids : list string) (id : string) :
  includes ids id = true <-> In id ids.
Proof.
  unfold includes. rewrite existsb_exists. split.
  - intros (x & Hx & Heq). apply String.eqb_eq in Heq. now subst.
  - intros H. exists id. split; [assumption | apply String.eqb_refl].
Qed.

Lemma append_inj_r (p a b : string) :
  (p ++ a)%string = (p ++ b)%string -> a = b.
Proof.
  induction p as [| c p IH]; simpl; intros H; [assumption |].
  injection H as H. now apply IH.
Qed.

Lemma NoDup_map_injective {A B : Type} (f : A -> B) (l : list A) :
  (forall x y, f x = f y -> x = y) -> NoDup l -> NoDup (map f l).
Proof.
  intros Hinj. induction 1 as [| x l Hx _ IH]; simpl; constructor.
  - intros Hin. apply in_map_iff in Hin as (y & Heq & Hy).
    apply Hinj in Heq. now subst.
  - assumption.
Qed.

Lemma NoDup_ids_or (ids : option (list string)) (fallback : list string) :
  (forall l, ids = Some l -> NoDup l) -> NoDup fallback ->
  NoDup (ids_or ids fallback).
Proof.
  intros H Hf. destruct ids as [[| x l] |]; simpl; try assumption.
  now apply H.
Qed.

Lemma NoDup_singleton {A : Type} (x : A) : NoDup [x].
Proof. constructor; [intros [] | constructor]. Qed.

Lemma buildBuffInstances_In (students : list Student.t)
  (events : list ExEvent.t) (nsEnabled : list (string * bool))
  (nsTargets : list (string * TargetSpec.t)) (timelineSeconds timeStep : Q)
  (r : BuffInstance.t) :
  In r (buildBuffInstances students events nsEnabled nsTargets
          timelineSeconds timeStep) ->
  exists event student skill buff targetStudentId,
    In event events /\
    find (fun item => String.eqb (Student.id item) (ExEvent.studentId event))
         students = Some student /\
    lookupSkill student (ExEvent.skillType event) (ExEvent.skillId event)
      = Some skill /\
    In buff (Skill_buffs skill) /\
    In targetStudentId (finalTargets (map Student.id students) event buff) /\
    r = makeInstance timelineSeconds timeStep student skill event buff
          targetStudentId.
Proof.
  unfold buildBuffInstances. intros H.
  apply in_flat_map in H as (event & Hev & H). unfold expandEvent in H.
  destruct (find _ students) as [student |] eqn:Es; [| destruct H].
  destruct (lookupSkill student _ _) as [skill |] eqn:Ek; [| destruct H].
  apply in_flat_map in H as (buff & Hb & H). unfold expandBuff in H.
  apply in_map_iff in H as (t & <- & Ht).
  now exists event, student, skill, buff, t.
Qed.

(** C3 (as amended).  The target mode is the per-event per-effect
    override's, else the effect definition's, else the cast event's.
    [self] yields the owner; [enemy] yields the fixed enemy whatever the
    id lists say; [all] yields every student.  [student] yields the
    override's id list when it is non-empty; otherwise, when the effect
    definition has a target of its own, the definition's id list if
    non-empty and else the owner, and when it has none, the cast event's
    id list if non-empty and else the owner.  Outside [enemy] the ids are
    filtered against the students plus the enemy, and an empty result
    falls back to the owner. *)
Theorem targetResolver_contract (allStudentIds : list string)
  (event : ExEvent.t) (buff : Buff.t) :
  (forall o, override event buff = Some o ->
     targetMode event buff = TargetSpec.target o) /\
  (override event buff = None -> forall m, Buff.target buff = Some m ->
     targetMode event buff = m) /\
  (override event buff = None -> Buff.target buff = None ->
     targetMode event buff = ExEvent.target event) /\
  (targetMode event buff = MSelf ->
     finalTargets allStudentIds event buff = [ExEvent.studentId event]) /\
  (targetMode event buff = MEnemy ->
     finalTargets allStudentIds event buff = [ENEMY_ID]) /\
  (targetMode event buff = MAll -> allStudentIds <> [] ->
     finalTargets allStudentIds event buff = allStudentIds) /\
  (targetMode event buff = MStudent ->
     (forall x ids, overrideIds event buff = Some (x :: ids) ->
        rawTargets allStudentIds event buff = x :: ids) /\
     (has_length (overrideIds event buff) = false ->
        (forall m, Buff.target buff = Some m ->
           rawTargets allStudentIds event buff =
           ids_or (Buff.targetStudentIds buff) [ExEvent.studentId event]) /\
        (Buff.target buff = None ->
           rawTargets allStudentIds event buff =
           ids_or (ExEvent.targetStudentIds event)
                  [ExEvent.studentId event]))) /\
  (targetMode event buff <> MEnemy ->
     finalTargets allStudentIds event buff =
     match filter (includes (allStudentIds ++ [ENEMY_ID]))
                  (rawTargets allStudentIds event buff) with
     | [] => [ExEvent.studentId event]
     | ids => ids
     end).
Proof.
  repeat split.
  - intros o Ho. unfold targetMode. now rewrite Ho.
  - intros Ho m Hm. unfold targetMode. now rewrite Ho, Hm.
  - intros Ho Hm. unfold targetMode. now rewrite Ho, Hm.
  - intros Hmode. unfold finalTargets, target, rawTargets. rewrite Hmode.
    simpl. now destruct (includes _ _).
  - intros Hmode. unfold finalTargets. now rewrite Hmode.
  - intros Hmode Hne. unfold finalTargets, target, rawTargets. rewrite Hmode.
    rewrite filter_id_iff.
    + now destruct allStudentIds.
    + intros x Hx. apply includes_In, in_app_iff. now left.
  - intros x ids Ho. unfold rawTargets. now rewrite H, Ho.
  - intros m Hm. unfold rawTargets. rewrite H, Hm.
    destruct (overrideIds event buff) as [[| y l] |]; simpl in *;
      try reflexivity; discriminate.
  - intros Hm. unfold rawTargets. rewrite H, Hm.
    destruct (overrideIds event buff) as [[| y l] |]; simpl in *;
      try reflexivity; discriminate.
  - intros Hmode. unfold finalTargets, target.
    destruct (targetMode event buff); try reflexivity. congruence.
Qed.

(** C8 (as amended).  The Target Resolver removes no repeated id: its
    result is free of duplicates when the student ids and the id lists
    of the override, of the effect definition and of the cast event are;
    the instances one effect definition of one event then gets have
    pairwise distinct targets and ids. *)
Theorem targetResolver_nodup (allStudentIds : list string)
  (event : ExEvent.t) (buff : Buff.t) :
  NoDup allStudentIds ->
  (forall ids, overrideIds event buff = Some ids -> NoDup ids) ->
  (forall ids, Buff.targetStudentIds buff = Some ids -> NoDup ids) ->
  (forall ids, ExEvent.targetStudentIds event = Some ids -> NoDup ids) ->
  NoDup (finalTargets allStudentIds event buff) /\
  forall timelineSeconds timeStep student skill,
    NoDup (map BuffInstance.studentId
             (expandBuff allStudentIds timelineSeconds timeStep student skill
                         event buff)) /\
    NoDup (map BuffInstance.id
             (expandBuff allStudentIds timelineSeconds timeStep student skill
                         event buff)).
Proof.
  intros Hall Hov Hbuff Hev.
  assert (Hraw : NoDup (rawTargets allStudentIds event buff)).
  { unfold rawTargets. destruct (targetMode event buff).
    - apply NoDup_singleton.
    - assumption.
    - apply NoDup_ids_or; [assumption |].
      destruct (Buff.target buff);
        apply NoDup_ids_or; auto using NoDup_singleton.
    - apply NoDup_singleton. }
  assert (Hfinal : NoDup (finalTargets allStudentIds event buff)).
  { unfold finalTargets, target.
    pose proof (NoDup_filter (includes (allStudentIds ++ [ENEMY_ID])) Hraw)
      as Hf.
    destruct (targetMode event buff); try apply NoDup_singleton;
      destruct (filter _ _); auto using NoDup_singleton. }
  split; [assumption |].
  intros timelineSeconds timeStep student skill. unfold expandBuff.
  rewrite !map_map. simpl. split.
  - now rewrite map_id.
  - apply NoDup_map_injective; [| assumption].
    intros x y Heq. apply append_inj_r in Heq. simpl in Heq.
    injection Heq as Heq. apply append_inj_r in Heq. now injection Heq.
Qed.

(** A resolved instance is an input instance with its end moved back. *)
Lemma applyOverwriteRules_In (instances : list BuffInstance.t)
  (o : BuffInstance.t) :
  In o (applyOverwriteRules instances) ->
  exists i, In i instances /\ shrinks o i.
Proof.
  intros Ho.
  destruct (groupInstances_spec instances) as (_ & _ & _ & Hperm).
  destruct (applyOverwriteRules_frame_groups (groupInstances instances))
    as (sel & rest & Hf & Hp).
  destruct (Forall2_In_l _ _ _ _ Hf Ho) as (i & Hi & Hs).
  exists i. split; [| assumption].
  apply Permutation_in with (flat_map snd (groupInstances instances));
    [assumption |].
  apply Permutation_in with (sel ++ rest); [now symmetry |].
  apply in_app_iff. now left.
Qed.

(** C5 (as amended).  The expander computes [end = min(start + duration,
    timelineSeconds)] and emits an instance for every effect and target of
    every cast it expands, without looking at its length.  Every instance
    of the pipeline [applyOverwriteRules (buildBuffInstances ...)] ends
    within the timeline and after it starts, and is a raw instance of
    positive length whose end was kept or moved back: the raw instances
    whose clipped end is not after their start are dropped by
    [applyOverwriteRules]. *)
Theorem pipeline_clipping (students : list Student.t)
  (events : list ExEvent.t) (nsEnabled : list (string * bool))
  (nsTargets : list (string * TargetSpec.t)) (timelineSeconds timeStep : Q) :
  (forall r,
     In r (buildBuffInstances students events nsEnabled nsTargets
             timelineSeconds timeStep) ->
     exists event buff,
       In event events /\
       BuffInstance.start r = ExEvent.start event /\
       BuffInstance.end_ r =
       Math_min (ExEvent.start event + duration timeStep event buff)
                timelineSeconds) /\
  (forall o,
     In o (applyOverwriteRules
             (buildBuffInstances students events nsEnabled nsTargets
                timelineSeconds timeStep)) ->
     BuffInstance.end_ o <= timelineSeconds /\
     BuffInstance.start o < BuffInstance.end_ o) /\
  (forall event student skill buff targetStudentId,
     In event events ->
     find (fun item => String.eqb (Student.id item) (ExEvent.studentId event))
          students = Some student ->
     lookupSkill student (ExEvent.skillType event) (ExEvent.skillId event) =
     Some skill ->
     In buff (Skill_buffs skill) ->
     In targetStudentId (finalTargets (map Student.id students) event buff) ->
     In (makeInstance timelineSeconds timeStep student skill event buff
           targetStudentId)
        (buildBuffInstances students events nsEnabled nsTargets
           timelineSeconds timeStep)) /\
  (forall o,
     In o (applyOverwriteRules
             (buildBuffInstances students events nsEnabled nsTargets
                timelineSeconds timeStep)) ->
     exists r,
       In r (buildBuffInstances students events nsEnabled nsTargets
               timelineSeconds timeStep) /\
       shrinks o r /\
       BuffInstance.start r < BuffInstance.end_ r).
Proof.
  split; [| split; [| split]].
  - intros r Hr.
    apply buildBuffInstances_In
      in Hr as (event & student & skill & buff & t & Hev & _ & _ & _ & _ & ->).
    exists event, buff. repeat split. assumption.
  - intros o Ho. split; [| now apply applyOverwriteRules_positive in Ho].
    destruct (applyOverwriteRules_In _ o Ho) as (i & Hi & [_ Hle]).
    apply buildBuffInstances_In
      in Hi as (event & student & skill & buff & t & _ & _ & _ & _ & _ & ->).
    simpl in Hle. unfold endOf in Hle.
    pose proof (Math_min_le_r
                  (ExEvent.start event + duration timeStep event buff)
                  timelineSeconds).
    lra.
  - intros event student skill buff t Hev Hfind Hskill Hbuff Ht.
    unfold buildBuffInstances. apply in_flat_map. exists event.
    split; [assumption |]. unfold expandEvent. cbv zeta.
    rewrite Hfind, Hskill. apply in_flat_map. exists buff.
    split; [assumption |]. unfold expandBuff. now apply in_map.
  - intros o Ho. destruct (applyOverwriteRules_In _ o Ho) as (r & Hr & Hs).
    exists r. split; [assumption |]. split; [assumption |].
    apply applyOverwriteRules_positive in Ho.
    rewrite (shrinks_start _ _ Hs) in Ho. destruct Hs as [_ Hs]. lra.
Qed.


(** ** The Stat Aggregator *)

Lemma list_ascii_of_append (s1 s2 : string) :
  list_ascii_of_string (s1 ++ s2)%string =
  list_ascii_of_string s1 ++ list_ascii_of_string s2.
Proof.
  induction s1 as [| c s1 IH]; simpl; [reflexivity | now rewrite IH].
Qed.

Lemma list_ascii_of_string_inj (s1 s2 : string) :
  list_ascii_of_string s1 = list_ascii_of_string s2 -> s1 = s2.
Proof.
  intros H. apply (f_equal string_of_list_ascii) in H.
  now rewrite !string_of_list_ascii_of_string in H.
Qed.

Lemma rev_inj {A : Type} (l l' : list A) : rev l = rev l' -> l = l'.
Proof.
  intros H. apply (f_equal (@rev A)) in H. now rewrite !rev_involutive in H.
Qed.

Lemma stat_prefix_inj (st st' : BuffStat) (x x' : string) :
  (BuffStat_str st ++ ":" ++ x)%string = (BuffStat_str st' ++ ":" ++ x')%string ->
  st = st' /\ x = x'.
Proof.
  destruct st, st'; simpl; intros H; try discriminate;
    injection H as H; auto.
Qed.

Lemma kind_suffix_inj (g g' : string) (k k' : EffectKind) :
  (g ++ ":" ++ EffectKind_str k)%string = (g' ++ ":" ++ EffectKind_str k')%string ->
  g = g' /\ k = k'.
Proof.
  intros H. apply (f_equal list_ascii_of_string) in H.
  rewrite !list_ascii_of_append in H. apply (f_equal (@rev ascii)) in H.
  rewrite !rev_app_distr in H.
  destruct k, k'; simpl in H; try discriminate;
    injection H as H; apply rev_inj, list_ascii_of_string_inj in H; auto.
Qed.

Lemma stackKey_stackOf (buff : BuffInstance.t) :
  stackKey buff = Stack_key (stackOf buff).
Proof. reflexivity. Qed.

Lemma stackKey_inj (a b : BuffInstance.t) :
  stackKey a = stackKey b -> stackOf a = stackOf b.
Proof.
  unfold stackKey, stackOf. intros H.
  apply stat_prefix_inj in H as [-> H].
  apply kind_suffix_inj in H as [-> ->]. reflexivity.
Qed.

Lemma dict_set_In_new {V : Type} (key : string) (v : V)
  (d : list (string * V)) :
  In (key, v) (dict_set key v d).
Proof.
  induction d as [| [k w] d IH]; simpl; [now left |].
  destruct (String.eqb k key) eqn:E.
  - apply String.eqb_eq in E. subst. now left.
  - now right.
Qed.

Lemma dict_set_In_other {V : Type} (key : string) (v : V)
  (d : list (string * V)) (k' : string) (v' : V) :
  k' <> key -> In (k', v') d -> In (k', v') (dict_set key v d).
Proof.
  intros Hne. induction d as [| [k w] d IH]; simpl; [intros [] |].
  destruct (String.eqb k key) eqn:E.
  - apply String.eqb_eq in E. subst k. intros [[= <- <-] | H].
    + congruence.
    + now right.
  - intros [H | H]; [now left | right; now apply IH].
Qed.

Lemma stack_step_inv (stacked : list (string * BuffInstance.t))
  (seen : list BuffInstance.t) (buff : BuffInstance.t) :
  stacked_for stacked seen ->
  stacked_for (stack_step stacked buff) (seen ++ [buff]).
Proof.
  intros (Hnd & Hent & Hcov). unfold stack_step.
  destruct (dict_get (stackKey buff) stacked) as [current |] eqn:E.
  - pose proof (dict_get_In _ _ _ E) as Hcur.
    destruct (ltb (BuffInstance.start current) (BuffInstance.start buff))
      eqn:Elt; qprop.
    + repeat split.
      * now rewrite (dict_set_keys _ _ _ _ E).
      * apply (dict_set_In _ _ _ _ _ Hnd) in H as [[-> ->] | [Hne Hin]];
          [reflexivity | now apply (Hent _ _ Hin)].
      * apply (dict_set_In _ _ _ _ _ Hnd) in H as [[-> ->] | [Hne Hin]];
          apply in_app_iff; [right; now left | left; now apply (Hent _ _ Hin)].
      * intros b Hb. apply in_app_iff in Hb as [Hb | [<- | []]].
        -- destruct (Hcov b Hb) as (v & Hv & Hle).
           destruct (string_dec (stackKey b) (stackKey buff)) as [Heq | Hne].
           ++ exists buff. split; [rewrite Heq; apply dict_set_In_new |].
              rewrite Heq in Hv.
              apply (dict_get_NoDup _ _ _ Hnd) in Hv.
              rewrite E in Hv. injection Hv as <-. lra.
           ++ exists v. split; [now apply dict_set_In_other | assumption].
        -- exists buff. split; [apply dict_set_In_new | lra].
    + repeat split.
      * assumption.
      * now apply (Hent _ _ H).
      * apply in_app_iff. left. now apply (Hent _ _ H).
      * intros b Hb. apply in_app_iff in Hb as [Hb | [<- | []]].
        -- now apply Hcov.
        -- exists current. split; assumption.
  - rewrite (dict_set_fresh _ _ _ E).
    pose proof (proj1 (dict_get_None _ _) E) as Hfresh.
    repeat split.
    + rewrite map_app. simpl.
      apply Permutation_NoDup with (stackKey buff :: map fst stacked).
      * apply Permutation_cons_append.
      * now constructor.
    + apply in_app_iff in H as [Hin | [[= <- <-] | []]];
        [now apply (Hent _ _ Hin) | reflexivity].
    + apply in_app_iff in H as [Hin | [[= <- <-] | []]];
        apply in_app_iff; [left; now apply (Hent _ _ Hin) | right; now left].
    + intros b Hb. apply in_app_iff in Hb as [Hb | [<- | []]].
      * destruct (Hcov b Hb) as (v & Hv & Hle).
        exists v. split; [apply in_app_iff; now left | assumption].
      * exists buff. split; [apply in_app_iff; right; now left | lra].
Qed.

Lemma stack_fold_inv (items seen : list BuffInstance.t)
  (stacked : list (string * BuffInstance.t)) :
  stacked_for stacked seen ->
  stacked_for (fold_left stack_step items stacked) (seen ++ items).
Proof.
  revert seen stacked.
  induction items as [| buff rest IH]; intros seen stacked H; simpl.
  - now rewrite app_nil_r.
  - replace (seen ++ buff :: rest) with ((seen ++ [buff]) ++ rest)
      by now rewrite <- app_assoc.
    apply IH. now apply stack_step_inv.
Qed.

Lemma stackedOf_spec (items : list BuffInstance.t) :
  stacked_for (stackedOf items) items.
Proof.
  apply (stack_fold_inv items [] []).
  repeat split; simpl; try constructor; intros; contradiction.
Qed.

Lemma totals_step_stat (stat : BuffStat) (t : Stats.t) (v : BuffInstance.t) :
  statOf stat (totals_step t v) == statOf stat t + contribution stat v.
Proof.
  unfold totals_step, contribution, add_total.
  destruct (BuffInstance.kind v), (BuffInstance.stat v), stat; simpl; ring.
Qed.

Lemma totals_fold_stat (stat : BuffStat) (vs : list BuffInstance.t)
  (t : Stats.t) :
  statOf stat (fold_left totals_step vs t) ==
  statOf stat t + sumQ (map (contribution stat) vs).
Proof.
  revert t. induction vs as [| v vs IH]; intros t; simpl.
  - ring.
  - rewrite IH, totals_step_stat. ring.
Qed.

(** C2.  [computeStatsAtTime] returns (i) the instances that target the
    actor and have [start <= t < end]; (ii) totals that sum, per stat, one
    survivor per (stat, stack group, kind) group of the active set, a
    survivor having the latest start of its group, a buff adding its
    magnitude, a debuff subtracting it and an attack adding nothing;
    (iii) computed stats [base * (1 + total)] for atk, crit and critDmg. *)
Theorem computeStatsAtTime_spec (target : StatTarget.t) (time : Q)
  (instances : list BuffInstance.t) :
  (forall item,
     In item (active (computeStatsAtTime target time instances)) <->
     In item instances /\
     BuffInstance.studentId item = StatTarget.id target /\
     BuffInstance.start item <= time /\ time < BuffInstance.end_ item) /\
  (exists survivors,
     (forall v, In v survivors ->
        In v (active (computeStatsAtTime target time instances))) /\
     NoDup (map stackOf survivors) /\
     (forall b, In b (active (computeStatsAtTime target time instances)) ->
        exists v, In v survivors /\ stackOf v = stackOf b /\
                  BuffInstance.start b <= BuffInstance.start v) /\
     (forall stat,
        statOf stat (totals (computeStatsAtTime target time instances)) ==
        sumQ (map (contribution stat) survivors))) /\
  (forall stat,
     statOf stat (computed (computeStatsAtTime target time instances)) =
     statOf stat (StatTarget.stats target)
     * (1 + statOf stat (totals (computeStatsAtTime target time instances)))).
Proof.
  split; [| split].
  - intros item. simpl. rewrite filter_In. unfold isActive.
    rewrite !andb_true_iff, String.eqb_eq, leb_le, ltb_lt. tauto.
  - simpl. set (act := filter (isActive target time) instances).
    destruct (stackedOf_spec act) as (Hnd & Hent & Hcov).
    exists (map snd (stackedOf act)). repeat split.
    + intros v Hv. apply in_map_iff in Hv as ([k w] & <- & Hin).
      now apply (Hent _ _ Hin).
    + assert (Hkeys : map Stack_key (map stackOf (map snd (stackedOf act)))
                      = map fst (stackedOf act)).
      { rewrite !map_map. apply map_ext_in. intros [k w] Hin. cbn [fst snd].
        rewrite <- stackKey_stackOf. now apply (Hent _ _ Hin). }
      rewrite <- Hkeys in Hnd. now apply NoDup_map_inv in Hnd.
    + intros b Hb. destruct (Hcov b Hb) as (v & Hv & Hle).
      exists v. repeat split.
      * apply in_map_iff. now exists (stackKey b, v).
      * apply stackKey_inj. now apply (Hent _ _ Hv).
      * assumption.
    + intros stat. rewrite totals_fold_stat. destruct stat; simpl; ring.
  - intros stat. now destruct stat.
Qed.

(** ** Lane Assignment *)

Lemma dict_get_set_same {V : Type} (key : string) (v : V)
  (d : list (string * V)) :
  dict_get key (dict_set key v d) = Some v.
Proof.
  induction d as [| [k w] d IH]; simpl.
  - now rewrite String.eqb_refl.
  - destruct (String.eqb k key) eqn:E; simpl; rewrite E; [reflexivity | exact IH].
Qed.

Lemma dict_get_set_other {V : Type} (key key' : string) (v : V)
  (d : list (string * V)) :
  key' <> key -> dict_get key' (dict_set key v d) = dict_get key' d.
Proof.
  intros Hne. induction d as [| [k w] d IH]; simpl.
  - apply String.eqb_neq in Hne. rewrite String.eqb_sym in Hne.
    now rewrite Hne.
  - destruct (String.eqb k key) eqn:E; simpl.
    + apply String.eqb_eq in E. subst k.
      assert (E' : String.eqb key key' = false)
        by (apply String.eqb_neq; congruence).
      now rewrite E'.
    + now rewrite IH.
Qed.

Lemma findIndex_Some {A : Type} (p : A -> bool) (l : list A) (i : nat) :
  findIndex p l = Some i -> exists x, nth_error l i = Some x /\ p x = true.
Proof.
  revert i. induction l as [| y l IH]; simpl; intros i; [discriminate |].
  destruct (p y) eqn:E.
  - intros [= <-]. now exists y.
  - destruct (findIndex p l) as [j |]; [| discriminate].
    intros [= <-]. now apply IH.
Qed.

Lemma findIndex_None {A : Type} (p : A -> bool) (l : list A) :
  findIndex p l = None -> forall x, In x l -> p x = false.
Proof.
  induction l as [| y l IH]; simpl; [intros _ x [] |].
  destruct (p y) eqn:E; [discriminate |].
  destruct (findIndex p l); [discriminate |].
  intros _ x [<- | Hx]; [assumption | now apply IH].
Qed.

Lemma array_set_length {A : Type} (i : nat) (v : A) (l : list A) :
  List.length (array_set i v l) = List.length l.
Proof.
  revert i. induction l as [| x l IH]; intros [| i]; simpl; auto.
Qed.

Lemma array_set_same {A : Type} (i : nat) (v x : A) (l : list A) :
  nth_error l i = Some x -> nth_error (array_set i v l) i = Some v.
Proof.
  revert i. induction l as [| y l IH]; intros [| i]; simpl;
    try discriminate; auto.
Qed.

Lemma array_set_other {A : Type} (i j : nat) (v : A) (l : list A) :
  i <> j -> nth_error (array_set i v l) j = nth_error l j.
Proof.
  revert i j. induction l as [| y l IH]; intros [| i] [| j] H; simpl;
    try reflexivity; try congruence.
  apply IH. congruence.
Qed.

Lemma NoDup_map_pairwise {A B : Type} (f : A -> B) (l : list A) :
  NoDup l ->
  (forall a b, In a l -> In b l -> a <> b -> f a <> f b) ->
  NoDup (map f l).
Proof.
  induction 1 as [| x l Hx _ IH]; simpl; intros H; constructor.
  - intros Hin. apply in_map_iff in Hin as (y & Heq & Hy).
    apply (H y x); [now right | now left | | assumption].
    intros ->. contradiction.
  - apply IH. intros a b Ha Hb. apply H; now right.
Qed.

(** Pigeonhole, both ways. *)
Lemma length_le_of_injective {A : Type} (f : A -> nat) (l : list A) (n : nat) :
  NoDup l ->
  (forall a b, In a l -> In b l -> a <> b -> f a <> f b) ->
  (forall a, In a l -> (f a < n)%nat) ->
  (List.length l <= n)%nat.
Proof.
  intros Hnd Hinj Hlt.
  rewrite <- (length_map f l), <- (length_seq n 0).
  apply NoDup_incl_length.
  - now apply NoDup_map_pairwise.
  - intros j Hj. apply in_map_iff in Hj as (x & <- & Hx).
    apply in_seq. specialize (Hlt x Hx). lia.
Qed.

Lemma length_ge_of_surjective {A : Type} (f : A -> nat) (l : list A)
  (n : nat) :
  (forall j, (j < n)%nat -> exists x, In x l /\ f x = j) ->
  (n <= List.length l)%nat.
Proof.
  intros Hsurj.
  rewrite <- (length_map f l), <- (length_seq n 0) at 1.
  apply NoDup_incl_length.
  - apply seq_NoDup.
  - intros j Hj. apply in_seq in Hj.
    destruct (Hsurj j) as (x & Hx & <-); [lia |]. now apply in_map.
Qed.

Lemma activeAt_spec (time : Q) (buff : BuffInstance.t) :
  activeAt time buff = true <->
  BuffInstance.start buff <= time /\ time < BuffInstance.end_ buff.
Proof.
  unfold activeAt. now rewrite andb_true_iff, leb_le, ltb_lt.
Qed.

Lemma activeCount_app (time : Q) (l l' : list BuffInstance.t) :
  activeCount time (l ++ l') = (activeCount time l + activeCount time l')%nat.
Proof. unfold activeCount. now rewrite filter_app, length_app. Qed.

Lemma activeCount_perm (time : Q) (l l' : list BuffInstance.t) :
  Permutation l l' -> activeCount time l = activeCount time l'.
Proof.
  intros H. unfold activeCount.
  now apply Permutation_length, Permutation_filter.
Qed.

(** Instances live at the same instant are not one before the other. *)
Lemma active_not_before (time : Q) (a b : BuffInstance.t) :
  activeAt time a = true -> activeAt time b = true ->
  ~ (before a b \/ before b a).
Proof.
  rewrite !activeAt_spec. unfold before. intros [H1 H2] [H3 H4] [H | H]; lra.
Qed.

Lemma compareStart_sorted (buffs : list BuffInstance.t) :
  StronglySorted
    (fun a b => BuffInstance.start a <= BuffInstance.start b)
    (Array_sort compareStart buffs).
Proof.
  apply Array_sort_sorted.
  - intros a b c H1 H2. lra.
  - intros a b H. now apply Qle_alt.
  - intros a b H. apply Qgt_alt in H. lra.
Qed.

Lemma lane_step_inv (st : list Q * list (string * nat))
  (seen : list BuffInstance.t) (buff : BuffInstance.t) :
  lanes_for st seen ->
  ~ In (BuffInstance.id buff) (map BuffInstance.id seen) ->
  BuffInstance.start buff < BuffInstance.end_ buff ->
  (forall a, In a seen -> BuffInstance.start a <= BuffInstance.start buff) ->
  lanes_for (lane_step st buff) (seen ++ [buff]).
Proof.
  destruct st as [laneEnds laneMap]. unfold lanes_for. simpl.
  intros (H1 & H2 & H3 & [t H5]) Hfresh Hpos Hsorted.
  assert (Hother : forall b j, In b seen ->
            laneOf (dict_set (BuffInstance.id buff) j laneMap) b =
            laneOf laneMap b).
  { intros b j Hb. unfold laneOf. apply dict_get_set_other.
    intros Heq. apply Hfresh. rewrite <- Heq. now apply in_map. }
  assert (Hself : forall j,
            laneOf (dict_set (BuffInstance.id buff) j laneMap) buff = Some j).
  { intros j. apply dict_get_set_same. }
  destruct (findIndex _ laneEnds) as [j |] eqn:E; simpl.
  - apply findIndex_Some in E as (ej & Hj & Hej). qprop.
    repeat split.
    + intros b Hb. apply in_app_iff in Hb as [Hb | [<- | []]].
      * destruct (H1 b Hb) as (lane & e & Hl & Hn & Hle).
        exists lane. destruct (Nat.eq_dec j lane) as [<- | Hne].
        -- exists (BuffInstance.end_ buff). repeat split.
           ++ now rewrite Hother.
           ++ now apply array_set_same with ej.
           ++ rewrite Hj in Hn. injection Hn as <-. lra.
        -- exists e. repeat split; [now rewrite Hother | | assumption].
           now rewrite array_set_other.
      * exists j, (BuffInstance.end_ buff). repeat split.
        -- apply Hself.
        -- now apply array_set_same with ej.
        -- lra.
    + intros lane e Hn. destruct (Nat.eq_dec j lane) as [<- | Hne].
      * rewrite (array_set_same _ _ _ _ Hj) in Hn. injection Hn as <-.
        exists buff. repeat split; [apply in_app_iff; right; now left |].
        apply Hself.
      * rewrite array_set_other in Hn by assumption.
        destruct (H2 lane e Hn) as (b & Hb & Hl & He).
        exists b. repeat split; [apply in_app_iff; now left | | assumption].
        now rewrite Hother.
    + intros a b Ha Hb Hne Hl.
      apply in_app_iff in Ha as [Ha | [<- | []]];
        apply in_app_iff in Hb as [Hb | [<- | []]].
      * rewrite !Hother in Hl by assumption. now apply H3.
      * rewrite Hother, Hself in Hl by assumption.
        destruct (H1 a Ha) as (lane & e & Hl' & Hn & Hle).
        rewrite Hl in Hl'. injection Hl' as <-.
        rewrite Hj in Hn. injection Hn as <-.
        left. unfold before. lra.
      * rewrite (Hother b), Hself in Hl by assumption.
        destruct (H1 b Hb) as (lane & e & Hl' & Hn & Hle).
        rewrite <- Hl in Hl'. injection Hl' as <-.
        rewrite Hj in Hn. injection Hn as <-.
        right. unfold before. lra.
      * congruence.
    + exists t. rewrite array_set_length, activeCount_app. lia.
  - pose proof (findIndex_None _ _ E) as Hnone.
    assert (Hlanes : forall b lane, In b seen -> laneOf laneMap b = Some lane ->
              (lane < List.length laneEnds)%nat).
    { intros b lane Hb Hl. destruct (H1 b Hb) as (lane' & e & Hl' & Hn & _).
      rewrite Hl in Hl'. injection Hl' as <-.
      apply nth_error_Some. congruence. }
    repeat split.
    + intros b Hb. apply in_app_iff in Hb as [Hb | [<- | []]].
      * destruct (H1 b Hb) as (lane & e & Hl & Hn & Hle).
        exists lane, e. repeat split; [now rewrite Hother | | assumption].
        rewrite nth_error_app1; [assumption |]. now apply (Hlanes b).
      * exists (List.length laneEnds), (BuffInstance.end_ buff). repeat split.
        -- apply Hself.
        -- now rewrite nth_error_app2, Nat.sub_diag by lia.
        -- lra.
    + intros lane e Hn.
      destruct (Nat.lt_ge_cases lane (List.length laneEnds)) as [Hlt | Hge].
      * rewrite nth_error_app1 in Hn by assumption.
        destruct (H2 lane e Hn) as (b & Hb & Hl & He).
        exists b. repeat split; [apply in_app_iff; now left | | assumption].
        now rewrite Hother.
      * rewrite nth_error_app2 in Hn by assumption.
        destruct (lane - List.length laneEnds)%nat as [| k] eqn:Ek; simpl in Hn.
        -- injection Hn as <-. exists buff.
           repeat split; [apply in_app_iff; right; now left |].
           replace lane with (List.length laneEnds) by lia. apply Hself.
        -- now destruct k.
    + intros a b Ha Hb Hne Hl.
      apply in_app_iff in Ha as [Ha | [<- | []]];
        apply in_app_iff in Hb as [Hb | [<- | []]].
      * rewrite !Hother in Hl by assumption. now apply H3.
      * rewrite Hother, Hself in Hl by assumption.
        apply (Hlanes a) in Hl; [lia | assumption].
      * rewrite (Hother b), Hself in Hl by assumption. symmetry in Hl.
        apply (Hlanes b) in Hl; [lia | assumption].
      * congruence.
    + exists (BuffInstance.start buff). unfold activeCount.
      rewrite length_app. simpl.
      apply length_ge_of_surjective
        with (f := fun x =>
                match laneOf (dict_set (BuffInstance.id buff)
                                (List.length laneEnds) laneMap) x with
                | Some lane => lane
                | None => O
                end).
      intros j Hj.
      destruct (Nat.lt_ge_cases j (List.length laneEnds)) as [Hlt | Hge].
      * destruct (nth_error laneEnds j) as [e |] eqn:Hn;
          [| apply nth_error_None in Hn; lia].
        destruct (H2 j e Hn) as (b & Hb & Hl & He).
        exists b. split.
        -- apply filter_In. split; [apply in_app_iff; now left |].
           apply activeAt_spec. split; [now apply Hsorted |].
           apply nth_error_In in Hn. specialize (Hnone e Hn).
           cbv beta in Hnone. qprop. now rewrite He.
        -- now rewrite Hother, Hl.
      * exists buff. split.
        -- apply filter_In. split; [apply in_app_iff; right; now left |].
           apply activeAt_spec. split; [lra | assumption].
        -- rewrite Hself. lia.
Qed.

Lemma lanes_fold (rest seen : list BuffInstance.t)
  (st : list Q * list (string * nat)) :
  lanes_for st seen ->
  StronglySorted
    (fun a b => BuffInstance.start a <= BuffInstance.start b) rest ->
  (forall a b, In a seen -> In b rest ->
     BuffInstance.start a <= BuffInstance.start b) ->
  NoDup (map BuffInstance.id (seen ++ rest)) ->
  (forall b, In b rest -> BuffInstance.start b < BuffInstance.end_ b) ->
  lanes_for (fold_left lane_step rest st) (seen ++ rest).
Proof.
  revert seen st.
  induction rest as [| buff rest IH]; intros seen st Hinv Hs Hle Hnd Hpos;
    simpl.
  - now rewrite app_nil_r.
  - apply StronglySorted_inv in Hs as [Hs Hhd]. rewrite Forall_forall in Hhd.
    replace (seen ++ buff :: rest) with ((seen ++ [buff]) ++ rest) in *
      by now rewrite <- app_assoc.
    apply IH.
    + apply lane_step_inv.
      * assumption.
      * rewrite !map_app in Hnd. simpl in Hnd.
        apply NoDup_app_remove_r in Hnd.
        apply NoDup_remove_2 in Hnd. now rewrite app_nil_r in Hnd.
      * apply Hpos. now left.
      * intros a Ha. apply Hle; [assumption | now left].
    + assumption.
    + intros a b Ha Hb. apply in_app_iff in Ha as [Ha | [<- | []]].
      * apply Hle; [assumption | now right].
      * now apply Hhd.
    + assumption.
    + intros b Hb. apply Hpos. now right.
Qed.

Lemma buildBuffLanes_inv (buffs : list BuffInstance.t) :
  (forall b, In b buffs -> BuffInstance.start b < BuffInstance.end_ b) ->
  NoDup (map BuffInstance.id buffs) ->
  exists laneEnds,
    lanes_for (laneEnds, laneMap (buildBuffLanes buffs)) buffs /\
    laneCount (buildBuffLanes buffs) = Nat.max 1 (List.length laneEnds).
Proof.
  intros Hpos Hnd. unfold buildBuffLanes.
  pose proof (lanes_fold (Array_sort compareStart buffs) [] ([], [])) as H.
  destruct (fold_left lane_step (Array_sort compareStart buffs) ([], []))
    as [laneEnds lmap] eqn:E.
  exists laneEnds. split; [| reflexivity]. simpl.
  assert (Hperm := Array_sort_perm compareStart buffs).
  assert (Hinv : lanes_for (laneEnds, lmap) (Array_sort compareStart buffs)).
  { apply H.
    - repeat split; simpl; try (intros; contradiction).
      + intros lane e Hn. now destruct lane.
      + exists 0. unfold activeCount. simpl. lia.
    - apply compareStart_sorted.
    - intros a b [].
    - simpl. apply Permutation_NoDup with (map BuffInstance.id buffs);
        [| assumption].
      apply Permutation_map. now symmetry.
    - intros b Hb. apply Hpos. now apply Array_sort_In in Hb. }
  destruct Hinv as (H1 & H2 & H3 & [t H5]). repeat split; simpl in *.
  - intros b Hb. apply H1. now apply Array_sort_In.
  - intros lane e Hn. destruct (H2 lane e Hn) as (b & Hb & Hl).
    exists b. split; [now apply Array_sort_In in Hb | assumption].
  - intros a b Ha Hb. apply H3; now apply Array_sort_In.
  - exists t. now rewrite <- (activeCount_perm t _ _ Hperm).
Qed.

(** Pigeonhole on the instances live at one instant: an assignment of
    lanes below [n] in which instances sharing a lane do not overlap
    leaves at most [n] of them live together. *)
Lemma activeCount_le_lanes (time : Q) (buffs : list BuffInstance.t)
  (assign : BuffInstance.t -> nat) (n : nat) :
  NoDup buffs ->
  (forall b, In b buffs -> (assign b < n)%nat) ->
  (forall a b, In a buffs -> In b buffs -> a <> b ->
     assign a = assign b -> before a b \/ before b a) ->
  (activeCount time buffs <= n)%nat.
Proof.
  intros Hnd Hlt Hsep. unfold activeCount.
  apply length_le_of_injective with (f := assign).
  - now apply NoDup_filter.
  - intros a b Ha Hb Hne Heq.
    apply filter_In in Ha as [Ha Hta]. apply filter_In in Hb as [Hb Htb].
    apply (active_not_before time a b Hta Htb). now apply Hsep.
  - intros a Ha. apply filter_In in Ha as [Ha _]. now apply Hlt.
Qed.

(** C6 (amended).  For instances of positive length with pairwise
    distinct ids, [buildBuffLanes] gives every instance a lane index below
    the lane count, and two instances sharing a lane do not overlap in
    time.  With at least one instance the lane count is the largest number
    of instances live at one instant: no instant has more, some instant
    has as many, and no assignment of non-overlapping lanes uses fewer.
    With no instance the lane count is 1. *)
Theorem buildBuffLanes_spec (buffs : list BuffInstance.t) :
  (forall b, In b buffs -> BuffInstance.start b < BuffInstance.end_ b) ->
  NoDup (map BuffInstance.id buffs) ->
  (forall b, In b buffs ->
     exists lane,
       laneOf (laneMap (buildBuffLanes buffs)) b = Some lane /\
       (lane < laneCount (buildBuffLanes buffs))%nat) /\
  (forall a b, In a buffs -> In b buffs -> a <> b ->
     laneOf (laneMap (buildBuffLanes buffs)) a =
     laneOf (laneMap (buildBuffLanes buffs)) b ->
     before a b \/ before b a) /\
  (buffs <> [] ->
     (forall time,
        (activeCount time buffs <= laneCount (buildBuffLanes buffs))%nat) /\
     (exists time,
        activeCount time buffs = laneCount (buildBuffLanes buffs)) /\
     (forall (assign : BuffInstance.t -> nat) (n : nat),
        (forall b, In b buffs -> (assign b < n)%nat) ->
        (forall a b, In a buffs -> In b buffs -> a <> b ->
           assign a = assign b -> before a b \/ before b a) ->
        (laneCount (buildBuffLanes buffs) <= n)%nat)) /\
  laneCount (buildBuffLanes []) = 1%nat.
Proof.
  intros Hpos Hids.
  destruct (buildBuffLanes_inv buffs Hpos Hids)
    as (laneEnds & (H1 & _ & H3 & [t0 H5]) & Hcount).
  simpl in H1, H3, H5.
  assert (Hnd : NoDup buffs) by (now apply NoDup_map_inv in Hids).
  assert (Hlane : forall b, In b buffs ->
            exists lane,
              laneOf (laneMap (buildBuffLanes buffs)) b = Some lane /\
              (lane < List.length laneEnds)%nat).
  { intros b Hb. destruct (H1 b Hb) as (lane & e & Hl & Hn & _).
    exists lane. split; [assumption |].
    apply nth_error_Some. congruence. }
  set (own := fun b =>
         match laneOf (laneMap (buildBuffLanes buffs)) b with
         | Some lane => lane
         | None => O
         end).
  assert (Hupper : forall time,
            (activeCount time buffs <= List.length laneEnds)%nat).
  { intros time. apply activeCount_le_lanes with (assign := own);
      [assumption | |].
    - intros b Hb. destruct (Hlane b Hb) as (lane & Hl & Hlt).
      unfold own. now rewrite Hl.
    - intros a b Ha Hb Hne Heq. apply H3; try assumption.
      destruct (Hlane a Ha) as (la & Hla & _).
      destruct (Hlane b Hb) as (lb & Hlb & _).
      unfold own in Heq. rewrite Hla, Hlb in Heq. congruence. }
  repeat split.
  - intros b Hb. destruct (Hlane b Hb) as (lane & Hl & Hlt).
    exists lane. split; [assumption | lia].
  - exact H3.
  - intros time. specialize (Hupper time). lia.
  - exists t0. destruct buffs as [| b0 rest]; [contradiction |].
    destruct (Hlane b0 (or_introl eq_refl)) as (lane & _ & Hlt).
    specialize (Hupper t0). lia.
  - intros assign n Hlt Hsep.
    destruct buffs as [| b0 rest]; [contradiction |].
    destruct (Hlane b0 (or_introl eq_refl)) as (lane & _ & Hl0).
    assert (Hle := activeCount_le_lanes t0 _ assign n Hnd Hlt Hsep).
    lia.
Qed.

(** ** The base64url glue *)

Lemma string_map_append (f : ascii -> ascii) (a b : string) :
  string_map f (a ++ b)%string = (string_map f a ++ string_map f b)%string.
Proof. induction a as [| c a IH]; simpl; [reflexivity | now rewrite IH]. Qed.

Lemma string_map_length (f : ascii -> ascii) (s : string) :
  String.length (string_map f s) = String.length s.
Proof. induction s as [| c s IH]; simpl; [reflexivity | now rewrite IH]. Qed.

Lemma append_length (a b : string) :
  String.length (a ++ b)%string = (String.length a + String.length b)%nat.
Proof. induction a as [| c a IH]; simpl; [reflexivity | now rewrite IH]. Qed.

Lemma padding_length (k : nat) : String.length (padding k) = k.
Proof. induction k as [| k IH]; simpl; [reflexivity | now rewrite IH]. Qed.

Lemma replaceAll_padding (c d : ascii) (k : nat) :
  Ascii.eqb "=" c = false -> replaceAll c d (padding k) = padding k.
Proof.
  intros Hc. unfold replaceAll.
  induction k as [| k IH]; cbn [padding string_map]; [reflexivity |].
  now rewrite Hc, IH.
Qed.

(** A text is its body followed by its trailing padding. *)
Lemma stripTrailing_split (s : string) :
  s = (stripTrailing "=" s
       ++ padding (String.length s - String.length (stripTrailing "=" s)))%string.
Proof.
  induction s as [| x rest IH]; [reflexivity |].
  cbn [stripTrailing]. destruct (stripTrailing "=" rest) as [| y kept] eqn:E.
  - simpl in IH. rewrite Nat.sub_0_r in IH.
    destruct (Ascii.eqb_spec x "=") as [-> | Hx]; simpl.
    + now rewrite <- IH.
    + rewrite Nat.sub_0_r. now rewrite <- IH.
  - cbn [String.length append Nat.sub]. f_equal. exact IH.
Qed.

Lemma stripTrailing_body (body : string) (k : nat) :
  string_forall (fun x => negb (Ascii.eqb x "=")) body = true ->
  stripTrailing "=" (body ++ padding k) = body.
Proof.
  induction body as [| x body IH]; simpl.
  - intros _. induction k as [| k IHk]; simpl; [reflexivity |].
    now rewrite IHk.
  - intros H. apply andb_true_iff in H as [Hx Hbody].
    rewrite (IH Hbody). apply negb_true_iff in Hx. rewrite Hx.
    now destruct body.
Qed.

(** The four replacements of the encoder and the decoder cancel on a
    body character, and the encoder's leave no padding character. *)
Lemma url_char (c : ascii) :
  base64_body c = true ->
  (let e := if Ascii.eqb c "+" then "-"%char else c in
   let e := if Ascii.eqb e "/" then "_"%char else e in
   let d := if Ascii.eqb e "-" then "+"%char else e in
   (if Ascii.eqb d "_" then "/"%char else d) = c /\
   Ascii.eqb e "=" = false).
Proof.
  unfold base64_body. rewrite !andb_true_iff, !negb_true_iff.
  intros [[H1 H2] H3]. cbv zeta.
  destruct (Ascii.eqb_spec c "+") as [-> | Hp]; [now split |].
  destruct (Ascii.eqb_spec c "/") as [-> | Hs]; [now split |].
  now rewrite H2, H3, H1.
Qed.

Lemma url_body (body : string) :
  string_forall base64_body body = true ->
  replaceAll "_" "/"
    (replaceAll "-" "+" (replaceAll "/" "_" (replaceAll "+" "-" body))) = body /\
  string_forall (fun x => negb (Ascii.eqb x "="))
    (replaceAll "/" "_" (replaceAll "+" "-" body)) = true.
Proof.
  unfold replaceAll. induction body as [| c body IH]; simpl; [now split |].
  intros H. apply andb_true_iff in H as [Hc Hbody].
  destruct (IH Hbody) as [IH1 IH2]. destruct (url_char c Hc) as [H1 H2].
  cbv zeta in H1, H2. now rewrite H1, H2, IH1, IH2.
Qed.

Lemma padded_body (body : string) (k : nat) :
  (k <= 2)%nat -> ((String.length body + k) mod 4 = 0)%nat ->
  padded body = (body ++ padding k)%string.
Proof.
  intros Hk Hm. unfold padded. cbv zeta.
  assert (H : ((String.length body + 3) mod 4 = 3 - k)%nat).
  { pose proof (Nat.div_mod_eq (String.length body + k) 4).
    pose proof (Nat.div_mod_eq (String.length body + 3) 4).
    pose proof (Nat.mod_upper_bound (String.length body + 3) 4). lia. }
  rewrite H. destruct k as [| [| [| k]]]; try lia; reflexivity.
Qed.

(** What the decoder pads is what [btoa] printed. *)
Lemma base64Url_glue (b64 : string) :
  base64_shape b64 = true ->
  padded
    (replaceAll "_" "/"
       (replaceAll "-" "+"
          (stripTrailing "="
             (replaceAll "/" "_" (replaceAll "+" "-" b64))))) = b64 /\
  stripTrailing "=" (replaceAll "/" "_" (replaceAll "+" "-" b64)) <> "".
Proof.
  unfold base64_shape. cbv zeta.
  rewrite !andb_true_iff, negb_true_iff, Nat.leb_le, !Nat.eqb_eq, Nat.eqb_neq.
  intros [[[Hbody Hk] Hm] Hne].
  pose proof (stripTrailing_split b64) as Hsplit.
  set (body := stripTrailing "=" b64) in *.
  set (k := (String.length b64 - String.length body)%nat) in *.
  assert (Hlen : String.length b64 = (String.length body + k)%nat).
  { rewrite Hsplit at 1. now rewrite append_length, padding_length. }
  destruct (url_body body Hbody) as [Hurl Hnopad].
  assert (Hstrip : stripTrailing "="
            (replaceAll "/" "_" (replaceAll "+" "-" b64)) =
          replaceAll "/" "_" (replaceAll "+" "-" body)).
  { rewrite Hsplit at 1. unfold replaceAll at 1 2.
    rewrite !string_map_append.
    fold (replaceAll "+" "-" body). fold (replaceAll "+" "-" (padding k)).
    rewrite (replaceAll_padding "+" "-" k) by reflexivity.
    fold (replaceAll "/" "_" (replaceAll "+" "-" body)).
    fold (replaceAll "/" "_" (padding k)).
    rewrite (replaceAll_padding "/" "_" k) by reflexivity.
    now apply stripTrailing_body. }
  rewrite Hstrip, Hurl. split.
  - rewrite (padded_body body k); [now symmetry | assumption |].
    now rewrite <- Hlen.
  - intros Hempty.
    assert (Hb : String.length body = 0%nat).
    { unfold replaceAll in Hempty.
      apply (f_equal String.length) in Hempty.
      rewrite !string_map_length in Hempty. exact Hempty. }
    pose proof (Nat.div_mod_eq (String.length b64) 4). lia.
Qed.

Lemma base64Url_roundtrip (text : string) :
  TextDecoder_decode (TextEncoder_encode text) = text ->
  base64_shape (btoa (binaryOf text)) = true ->
  atob (btoa (binaryOf text)) = Some (binaryOf text) ->
  base64UrlDecode (base64UrlEncode text) = Some text /\
  base64UrlEncode text <> "".
Proof.
  intros Hutf Hshape Hatob.
  destruct (base64Url_glue _ Hshape) as [Hglue Hne].
  split; [| exact Hne]. unfold base64UrlDecode, base64UrlEncode. cbv zeta.
  rewrite Hglue, Hatob. unfold binaryOf.
  now rewrite list_ascii_of_string_of_list_ascii, Hutf.
Qed.

(** ** Events the engine cannot tell apart *)

Lemma finalTargets_sameCast (allStudentIds : list string) (e' e : ExEvent.t)
  (buff : Buff.t) :
  sameCast e' e ->
  finalTargets allStudentIds e' buff = finalTargets allStudentIds e buff.
Proof.
  intros (_ & Hs & _ & _ & _ & _ & Ht & Hb & Hids).
  unfold finalTargets, target, rawTargets, targetMode, overrideIds, override.
  now rewrite Hids, Hs, Ht, Hb.
Qed.

Lemma expandEvent_sameCast (students : list Student.t)
  (timelineSeconds timeStep : Q) (e' e : ExEvent.t) :
  sameCast e' e ->
  expandEvent students timelineSeconds timeStep e' =
  expandEvent students timelineSeconds timeStep e.
Proof.
  intros Hsame. pose proof Hsame as (Hid & Hs & Hty & Hsk & Hst & Hd & _).
  unfold expandEvent. cbv zeta. rewrite Hs, Hty, Hsk.
  destruct (find _ students) as [student |]; [| reflexivity].
  destruct (lookupSkill student _ _) as [skill |]; [| reflexivity].
  apply flat_map_ext_In. intros buff _. unfold expandBuff.
  rewrite (finalTargets_sameCast _ _ _ buff Hsame).
  apply map_ext. intros id. unfold makeInstance, endOf, duration.
  now rewrite Hid, Hst, Hd, Hty.
Qed.

Lemma truthy_Some (s : string) : s <> "" -> truthy (Some s) = Some s.
Proof. destruct s; [congruence | reflexivity]. Qed.

(** An event that round trips is normalised to one event, which the
    engine expands as it expands the original. *)
Lemma normalizeEvent_roundTrips (students : list Student.t)
  (timelineSeconds timeStep timeStep' : Q) (e : ExEvent.t) :
  roundTrips e = true ->
  flat_map (expandEvent students timelineSeconds timeStep)
    (normalizeEvent students timeStep' (Some (RawEvent_of e))) =
  expandEvent students timelineSeconds timeStep e.
Proof.
  unfold roundTrips. rewrite !andb_true_iff, !negb_true_iff, orb_true_iff.
  intros [[[[Hid Hs] Hsk] Hd] Hids].
  apply String.eqb_neq in Hid, Hs, Hsk.
  unfold normalizeEvent, RawEvent_of. cbn [RawEvent.id RawEvent.studentId
    RawEvent.start RawEvent.skillType RawEvent.skillId RawEvent.exId
    RawEvent.duration RawEvent.target RawEvent.targetStudentIds
    RawEvent.buffTargets].
  rewrite !truthy_Some by assumption.
  destruct (find (fun item => String.eqb (Student.id item) (ExEvent.studentId e))
                 students) as [student |] eqn:Efind.
  2:{ unfold expandEvent. cbv zeta. now rewrite Efind. }
  destruct (lookupSkill student (ExEvent.skillType e) (ExEvent.skillId e))
    as [skill |] eqn:Eskill.
  2:{ unfold expandEvent. cbv zeta. now rewrite Efind, Eskill. }
  cbn [flat_map]. rewrite app_nil_r. apply expandEvent_sameCast.
  destruct (ExEvent.duration e) as [d |] eqn:Ed; [| discriminate].
  unfold sameCast. cbn [ExEvent.id ExEvent.studentId ExEvent.skillType
    ExEvent.skillId ExEvent.start ExEvent.duration ExEvent.target
    ExEvent.targetStudentIds ExEvent.buffTargets].
  repeat split; try reflexivity.
  - now symmetry.
  - now destruct (ExEvent.target e).
  - destruct (ExEvent.target e) eqn:Et; simpl in Hids;
      destruct Hids as [Hm | Hone]; try discriminate.
    all: try (destruct (ids_or (ExEvent.targetStudentIds e)
                               [ExEvent.studentId e])
                as [| x [| y l]] eqn:Eor; try discriminate;
              apply String.eqb_eq in Hone; now subst x).
    all: unfold ids_or;
      destruct (ExEvent.targetStudentIds e) as [[| x l] |]; reflexivity.
Qed.

Lemma normalizeEvents_roundTrips (students : list Student.t)
  (timelineSeconds timeStep timeStep' : Q) (events : list ExEvent.t) :
  forallb roundTrips events = true ->
  flat_map (expandEvent students timelineSeconds timeStep)
    (normalizeEvents students (map (fun e => Some (RawEvent_of e)) events)
       timeStep') =
  flat_map (expandEvent students timelineSeconds timeStep) events.
Proof.
  unfold normalizeEvents.
  induction events as [| e events IH]; [reflexivity |].
  cbn [forallb map flat_map]. intros H. apply andb_true_iff in H as [He Hrest].
  now rewrite flat_map_app, (normalizeEvent_roundTrips _ _ _ _ _ He), IH.
Qed.


(** ** Helpers of the editor *)

(** X1.  [clamp] never returns less than its lower bound; it stays
    within the upper bound when the bounds are in order, returns a value
    equal to its argument when that lies within them, and returns the
    lower bound when the bounds cross. *)
Theorem clamp_bounds (value min max : Q) :
  min <= clamp value min max /\
  (min <= max -> clamp value min max <= max) /\
  (min <= value -> value <= max -> clamp value min max == value) /\
  (max < min -> clamp value min max = min).
Proof.
  unfold clamp.
  destruct (Math_min_spec max value) as [[H1 ->] | [H1 ->]];
    [destruct (Math_max_spec min max) as [[H2 E] | [H2 E]]
    | destruct (Math_max_spec min value) as [[H2 E] | [H2 E]]];
    rewrite E; repeat split; intros; try lra; try reflexivity.
Qed.

Lemma durationOrZero_spec (buff : Buff.t) :
  match Buff.duration buff with
  | Some d => durationOrZero buff == d /\ (0 < d -> durationOrZero buff = d)
  | None => durationOrZero buff = 0
  end.
Proof.
  unfold durationOrZero. destruct (Buff.duration buff) as [d |]; [| reflexivity].
  destruct (Qeq_bool d 0) eqn:E.
  - apply Qeq_bool_iff in E. split; [now symmetry | intros H; lra].
  - split; reflexivity.
Qed.

(** The running maximum of [getSkillDuration]. *)
Lemma getSkillDuration_fold (buffs : list Buff.t) (init : Q) :
  init <= fold_left (fun current buff => Math_max current (durationOrZero buff))
                    buffs init /\
  (forall buff, In buff buffs ->
     durationOrZero buff <=
     fold_left (fun current buff => Math_max current (durationOrZero buff))
               buffs init) /\
  (fold_left (fun current buff => Math_max current (durationOrZero buff))
             buffs init = init \/
   exists buff, In buff buffs /\
     durationOrZero buff =
     fold_left (fun current buff => Math_max current (durationOrZero buff))
               buffs init).
Proof.
  revert init. induction buffs as [| b buffs IH]; intros init; simpl.
  - repeat split; [lra | intros buff [] | now left].
  - destruct (IH (Math_max init (durationOrZero b))) as (H1 & H2 & H3).
    destruct (Math_max_spec init (durationOrZero b)) as [[Hle E] | [Hlt E]];
      rewrite E in *.
    + repeat split; [lra | |].
      * intros buff [<- | Hin]; [assumption | now apply H2].
      * right. destruct H3 as [H3 | (buff & Hin & H3)].
        -- exists b. split; [now left | now symmetry].
        -- exists buff. split; [now right | assumption].
    + repeat split; [assumption | |].
      * intros buff [<- | Hin]; [lra | now apply H2].
      * destruct H3 as [H3 | (buff & Hin & H3)]; [now left |].
        right. exists buff. split; [now right | assumption].
Qed.

(** X2.  [getSkillDuration] returns the largest positive duration of the
    effects: when some effect has a positive duration, the result is the
    duration of one of the effects, is positive and is at least every
    positive duration, whatever the fallback.  When no effect has a
    positive duration it returns the fallback.  With a positive fallback
    the result is positive; with the fallback [max(timeStep, 1)] of
    [handleDrop] and [normalizeEvents] it is positive whatever the tick. *)
Theorem getSkillDuration_spec (buffs : list Buff.t) (fallback : Q) :
  (forall buff d, In buff buffs -> Buff.duration buff = Some d -> 0 < d ->
     d <= getSkillDuration buffs fallback) /\
  ((forall buff d, In buff buffs -> Buff.duration buff = Some d -> d <= 0) ->
     getSkillDuration buffs fallback = fallback) /\
  ((exists buff d, In buff buffs /\ Buff.duration buff = Some d /\ 0 < d) ->
     0 < getSkillDuration buffs fallback /\
     exists buff, In buff buffs /\
       Buff.duration buff = Some (getSkillDuration buffs fallback)) /\
  (0 < fallback -> 0 < getSkillDuration buffs fallback) /\
  (forall timeStep,
     0 < getSkillDuration buffs (Math_max timeStep DEFAULT_EX_EVENT_DURATION)).
Proof.
  assert (Hpos : forall fb, 0 < fb -> 0 < getSkillDuration buffs fb).
  { intros fb Hfb. unfold getSkillDuration. cbv zeta.
    destruct (ltb 0 _) eqn:E; [now apply ltb_lt in E | assumption]. }
  destruct (getSkillDuration_fold buffs 0) as (H1 & H2 & H3).
  split; [| split; [| split; [| split]]].
  - intros buff d Hin Hd Hlt. unfold getSkillDuration. cbv zeta.
    specialize (H2 buff Hin). pose proof (durationOrZero_spec buff) as Hs.
    rewrite Hd in Hs. destruct Hs as [Hs _].
    destruct (ltb 0 _) eqn:E; [lra |]. apply ltb_ge in E. lra.
  - intros Hnone. unfold getSkillDuration. cbv zeta.
    destruct (ltb 0 _) eqn:E; [| reflexivity]. apply ltb_lt in E.
    destruct H3 as [H3 | (buff & Hin & H3)]; [rewrite H3 in E; lra |].
    pose proof (durationOrZero_spec buff) as Hs.
    destruct (Buff.duration buff) as [d |] eqn:Hd.
    + destruct Hs as [Hs _]. specialize (Hnone buff d Hin Hd).
      rewrite <- H3 in E. lra.
    + rewrite <- H3, Hs in E. lra.
  - intros (b0 & d0 & Hin0 & Hd0 & Hlt0).
    assert (Hmax : 0 <
              fold_left
                (fun current buff => Math_max current (durationOrZero buff))
                buffs 0).
    { specialize (H2 b0 Hin0). pose proof (durationOrZero_spec b0) as Hs.
      rewrite Hd0 in Hs. destruct Hs as [Hs _]. lra. }
    unfold getSkillDuration. cbv zeta.
    assert (E : ltb 0
                  (fold_left
                     (fun current buff => Math_max current (durationOrZero buff))
                     buffs 0) = true) by (now apply ltb_lt).
    rewrite E. split; [exact Hmax |].
    destruct H3 as [H3 | (buff & Hin & H3)]; [rewrite H3 in Hmax; lra |].
    exists buff. split; [assumption |].
    pose proof (durationOrZero_spec buff) as Hs.
    destruct (Buff.duration buff) as [d |] eqn:Hd.
    + destruct Hs as [Hq Hs]. rewrite <- H3. f_equal. symmetry. apply Hs.
      rewrite <- H3 in Hmax. lra.
    + rewrite <- H3, Hs in Hmax. lra.
  - apply Hpos.
  - intros timeStep. apply Hpos.
    pose proof (Math_max_spec timeStep DEFAULT_EX_EVENT_DURATION) as Hm.
    unfold DEFAULT_EX_EVENT_DURATION in *.
    destruct Hm as [[Hm ->] | [Hm ->]]; lra.
Qed.

Lemma Set_add_spec (id : string) (s : list string) :
  (NoDup s -> NoDup (Set_add id s)) /\
  (forall x, In x (Set_add id s) <-> In x s \/ x = id) /\
  (~ In id s -> Set_add id s = s ++ [id]).
Proof.
  unfold Set_add. destruct (includes s id) eqn:E.
  - apply includes_In in E. repeat split; auto.
    + intros [H | ->]; assumption.
    + intros H. contradiction.
  - assert (Hn : ~ In id s).
    { intros H. apply includes_In in H. congruence. }
    repeat split.
    + intros Hnd. apply NoDup_app; [assumption | apply NoDup_singleton |].
      intros x Hx [<- | []]. contradiction.
    + rewrite in_app_iff. simpl. intros [H | [<- | []]]; auto.
    + rewrite in_app_iff. simpl. intros [H | ->]; auto.
Qed.

Lemma Set_of_fold (l s : list string) :
  (NoDup s -> NoDup (fold_left (fun s id => Set_add id s) l s)) /\
  (forall x, In x (fold_left (fun s id => Set_add id s) l s) <->
             In x s \/ In x l) /\
  (NoDup (s ++ l) -> fold_left (fun s id => Set_add id s) l s = s ++ l).
Proof.
  revert s. induction l as [| id l IH]; intros s; simpl.
  - repeat split; auto.
    + intros [H | []]. assumption.
    + intros _. now rewrite app_nil_r.
  - destruct (IH (Set_add id s)) as (H1 & H2 & H3).
    destruct (Set_add_spec id s) as (A1 & A2 & A3).
    repeat split.
    + intros Hnd. auto.
    + rewrite H2, A2. intros [[H | ->] | H]; auto.
    + rewrite H2, A2. intros [H | [<- | H]]; auto.
    + intros Hnd.
      assert (Hid : ~ In id s).
      { apply NoDup_remove_2 in Hnd. intros H. apply Hnd.
        apply in_app_iff. now left. }
      rewrite H3; rewrite (A3 Hid), <- app_assoc; [reflexivity | exact Hnd].
Qed.

Lemma Set_delete_notin (id : string) (s : list string) :
  ~ In id s -> Set_delete id s = s.
Proof.
  intros Hn. unfold Set_delete. apply filter_id_iff. intros x Hx.
  apply negb_true_iff, String.eqb_neq. intros ->. contradiction.
Qed.

(** X3.  [toggleId] returns a list without repeats in which the id is
    present exactly when it was absent from the argument, and every other
    id is present exactly when it was present; an absent list counts as
    empty.  On a list without repeats that lacks the id, the id is added
    at the end, and toggling it again gives the list back. *)
Theorem toggleId_spec (id : string) :
  toggleId None id = [id] /\
  forall l,
    NoDup (toggleId (Some l) id) /\
    (In id (toggleId (Some l) id) <-> ~ In id l) /\
    (forall x, x <> id -> (In x (toggleId (Some l) id) <-> In x l)) /\
    (NoDup l -> ~ In id l ->
       toggleId (Some l) id = l ++ [id] /\
       toggleId (Some (toggleId (Some l) id)) id = l).
Proof.
  split; [reflexivity |]. intros l.
  destruct (Set_of_fold l []) as (H1 & H2 & H3).
  specialize (H1 (NoDup_nil _)). fold (Set_of l) in H1, H2, H3.
  assert (Hmem : forall x, In x (Set_of l) <-> In x l).
  { intros x. rewrite H2. simpl. split; [intros [[] | H] | intros H]; auto. }
  assert (Hstep : forall s, NoDup s ->
            NoDup (if includes s id then Set_delete id s else Set_add id s) /\
            (In id (if includes s id then Set_delete id s else Set_add id s)
             <-> ~ In id s) /\
            (forall x, x <> id ->
               (In x (if includes s id then Set_delete id s else Set_add id s)
                <-> In x s))).
  { intros s Hs. destruct (includes s id) eqn:E.
    - apply includes_In in E. unfold Set_delete. repeat split.
      + now apply NoDup_filter.
      + intros H. apply filter_In in H as [_ H].
        now rewrite String.eqb_refl in H.
      + intros H. contradiction.
      + intros Hx. now apply filter_In in Hx.
      + intros Hx. apply filter_In. split; [assumption |].
        now apply negb_true_iff, String.eqb_neq.
    - assert (Hn : ~ In id s).
      { intros H. apply includes_In in H. congruence. }
      destruct (Set_add_spec id s) as (A1 & A2 & A3). repeat split; auto.
      + intros _. apply A2. now right.
      + rewrite A2. intros [Hx | ->]; [assumption | contradiction].
      + intros Hx. apply A2. now left. }
  destruct (Hstep (Set_of l) H1) as (S1 & S2 & S3).
  unfold toggleId. cbv zeta.
  split; [exact S1 |]. split; [| split].
  - rewrite S2. now rewrite Hmem.
  - intros x Hx. rewrite (S3 x Hx). apply Hmem.
  - intros Hnd Hid.
    assert (E : Set_of l = l) by (now apply H3).
    rewrite E. destruct (includes l id) eqn:Ei.
    { apply includes_In in Ei. contradiction. }
    split; [now apply Set_add_spec |].
    destruct (Set_add_spec id l) as (_ & _ & A3). rewrite (A3 Hid).
    assert (Hnd' : NoDup (l ++ [id])).
    { apply NoDup_app; [assumption | apply NoDup_singleton |].
      intros x Hx [<- | []]. contradiction. }
    clear E. destruct (Set_of_fold (l ++ [id]) []) as (_ & _ & H3').
    fold (Set_of (l ++ [id])) in H3'. rewrite (H3' Hnd').
    assert (Ein : includes (l ++ [id]) id = true).
    { apply includes_In. apply in_app_iff. right. now left. }
    simpl. rewrite Ein. unfold Set_delete. rewrite filter_app. simpl.
    rewrite String.eqb_refl. simpl. rewrite app_nil_r.
    now apply Set_delete_notin.
Qed.

(** ** The codec, beyond the round trip *)

Lemma stripTrailing_forall (p : ascii -> bool) (c : ascii) (s : string) :
  string_forall p s = true -> string_forall p (stripTrailing c s) = true.
Proof.
  induction s as [| x s IH]; [reflexivity |]. cbn [string_forall stripTrailing].
  intros H. apply andb_true_iff in H as [Hx Hs]. specialize (IH Hs).
  destruct (stripTrailing c s) as [| y kept].
  - destruct (Ascii.eqb x c); [reflexivity |]. simpl. now rewrite Hx.
  - cbn [string_forall] in *. now rewrite Hx, IH.
Qed.

Lemma stripTrailing_idem (c : ascii) (s : string) :
  stripTrailing c (stripTrailing c s) = stripTrailing c s.
Proof.
  induction s as [| x s IH]; [reflexivity |]. cbn [stripTrailing].
  destruct (stripTrailing c s) as [| y kept] eqn:E.
  - destruct (Ascii.eqb x c) eqn:Ex; [reflexivity |].
    cbn [stripTrailing]. now rewrite Ex.
  - cbn [stripTrailing] in *. rewrite IH. reflexivity.
Qed.

Lemma url_safe (s : string) :
  string_forall urlSafe (replaceAll "/" "_" (replaceAll "+" "-" s)) = true.
Proof.
  unfold replaceAll. induction s as [| c s IH]; [reflexivity |].
  cbn [string_map string_forall]. rewrite IH, andb_true_r. unfold urlSafe.
  destruct (Ascii.eqb_spec c "+") as [-> | Hp]; [reflexivity |].
  destruct (Ascii.eqb_spec c "/") as [-> | Hs]; [reflexivity |].
  apply Ascii.eqb_neq in Hp, Hs. now rewrite Hp, Hs.
Qed.

(** X4.  Whatever [btoa] prints, the token of [base64UrlEncode] has no
    [+] and no [/] and does not end in [=].  When [btoa] prints a base64
    text that [atob] reads back, and the text decoder inverts the text
    encoder, the token has no [=] at all and [base64UrlDecode] returns the
    encoded text. *)
Theorem base64Url_codec (text : string) :
  string_forall urlSafe (base64UrlEncode text) = true /\
  stripTrailing "=" (base64UrlEncode text) = base64UrlEncode text /\
  (TextDecoder_decode (TextEncoder_encode text) = text ->
   base64_shape (btoa (binaryOf text)) = true ->
   atob (btoa (binaryOf text)) = Some (binaryOf text) ->
   base64UrlDecode (base64UrlEncode text) = Some text /\
   string_forall (fun c => negb (Ascii.eqb c "=")) (base64UrlEncode text) =
   true).
Proof.
  split; [| split].
  - unfold base64UrlEncode. apply stripTrailing_forall, url_safe.
  - unfold base64UrlEncode. apply stripTrailing_idem.
  - intros Hutf Hshape Hatob.
    split; [now apply base64Url_roundtrip |].
    unfold base64UrlEncode. set (b64 := btoa (binaryOf text)) in *.
    pose proof Hshape as Hs. unfold base64_shape in Hs. cbv zeta in Hs.
    rewrite !andb_true_iff in Hs. destruct Hs as [[[Hbody _] _] _].
    destruct (url_body _ Hbody) as [_ Hnopad].
    rewrite (stripTrailing_split b64) at 1. unfold replaceAll at 1 2.
    rewrite !string_map_append.
    fold (replaceAll "+" "-" (stripTrailing "=" b64)).
    fold (replaceAll "+" "-"
            (padding (String.length b64
                      - String.length (stripTrailing "=" b64)))).
    rewrite replaceAll_padding by reflexivity.
    fold (replaceAll "/" "_" (replaceAll "+" "-" (stripTrailing "=" b64))).
    fold (replaceAll "/" "_"
            (padding (String.length b64
                      - String.length (stripTrailing "=" b64)))).
    rewrite replaceAll_padding by reflexivity.
    now rewrite stripTrailing_body.
Qed.

Lemma getSkillDuration_fold_pos (buffs : list Buff.t) (timeStep : Q) :
  0 < getSkillDuration buffs (Math_max timeStep DEFAULT_EX_EVENT_DURATION).
Proof.
  unfold getSkillDuration. cbv zeta.
  destruct (ltb 0 _) eqn:E; [now apply ltb_lt in E |].
  pose proof (Math_max_spec timeStep DEFAULT_EX_EVENT_DURATION) as Hm.
  unfold DEFAULT_EX_EVENT_DURATION in *.
  destruct Hm as [[Hm ->] | [Hm ->]]; lra.
Qed.

Lemma truthy_inv (s : option string) (x : string) :
  truthy s = Some x -> s = Some x /\ x <> "".
Proof.
  destruct s as [[| c s] |]; simpl; try discriminate.
  intros [= <-]. split; [reflexivity | discriminate].
Qed.

(** What [normalizeEvent] returns, read off its source. *)
Lemma normalizeEvent_inv (students : list Student.t) (timeStep : Q)
  (raw : option RawEvent.t) (e : ExEvent.t) :
  In e (normalizeEvent students timeStep raw) ->
  exists evt student skill,
    raw = Some evt /\
    RawEvent.id evt = Some (ExEvent.id e) /\ ExEvent.id e <> "" /\
    RawEvent.studentId evt = Some (ExEvent.studentId e) /\
    ExEvent.studentId e <> "" /\
    RawEvent.start evt = Some (ExEvent.start e) /\
    ExEvent.skillType e =
      match RawEvent.skillType evt with Some t => t | None => Ex end /\
    match RawEvent.skillId evt with
    | Some s => Some s
    | None => RawEvent.exId evt
    end = Some (ExEvent.skillId e) /\
    ExEvent.skillId e <> "" /\
    find (fun item => String.eqb (Student.id item) (ExEvent.studentId e))
         students = Some student /\
    lookupSkill student (ExEvent.skillType e) (ExEvent.skillId e) =
      Some skill /\
    ExEvent.duration e =
      Some match RawEvent.duration evt with
           | Some d => d
           | None =>
               getSkillDuration (Skill_buffs skill)
                 (Math_max timeStep DEFAULT_EX_EVENT_DURATION)
           end /\
    ExEvent.target e =
      match RawEvent.target evt with
      | Some MAll => MAll
      | Some MStudent => MStudent
      | Some MEnemy => MEnemy
      | _ => MSelf
      end /\
    ExEvent.targetStudentIds e =
      match ExEvent.target e with
      | MStudent =>
          Some (ids_or (RawEvent.targetStudentIds evt) [ExEvent.studentId e])
      | _ => None
      end /\
    ExEvent.buffTargets e = RawEvent.buffTargets evt.
Proof.
  unfold normalizeEvent. destruct raw as [evt |]; [| intros []].
  destruct (truthy (RawEvent.id evt)) as [id |] eqn:Eid; [| intros []].
  destruct (truthy (RawEvent.studentId evt)) as [sid |] eqn:Esid;
    [| intros []].
  destruct (RawEvent.start evt) as [start |] eqn:Estart; [| intros []].
  destruct (find _ students) as [student |] eqn:Efind; [| intros []].
  cbv zeta.
  destruct (truthy match RawEvent.skillId evt with
                   | Some s => Some s
                   | None => RawEvent.exId evt
                   end) as [skillId |] eqn:Esk; [| intros []].
  destruct (lookupSkill student _ skillId) as [skill |] eqn:Eskill;
    [| intros []].
  intros [<- | []]. cbn [ExEvent.id ExEvent.studentId ExEvent.skillType
    ExEvent.skillId ExEvent.start ExEvent.duration ExEvent.target
    ExEvent.targetStudentIds ExEvent.buffTargets].
  apply truthy_inv in Eid as [Eid Hid], Esid as [Esid Hsid], Esk as [Esk Hsk].
  exists evt, student, skill. repeat split; try assumption; try reflexivity.
Qed.

Lemma ids_or_nonempty (ids : option (list string)) (owner : string) :
  exists x l, ids_or ids [owner] = x :: l.
Proof.
  destruct ids as [[| x l] |]; simpl; eauto.
Qed.

(** X6.  Every event [normalizeEvents] returns is well formed for the
    students it was given: the engine finds its owner and its skill, so
    the expander never skips it; it has a duration, which is positive
    when the raw event had none; and it round trips.  It comes from a raw
    event of the same id, owner, start and overrides; no event is
    invented. *)
Theorem normalizeEvents_wellFormed (students : list Student.t)
  (events : list (option RawEvent.t)) (timeStep : Q) :
  (forall e, In e (normalizeEvents students events timeStep) ->
     wellFormed students e /\
     roundTrips e = true /\
     exists evt,
       In (Some evt) events /\
       RawEvent.id evt = Some (ExEvent.id e) /\
       RawEvent.studentId evt = Some (ExEvent.studentId e) /\
       RawEvent.start evt = Some (ExEvent.start e) /\
       RawEvent.buffTargets evt = ExEvent.buffTargets e /\
       (forall d, RawEvent.duration evt = Some d ->
          ExEvent.duration e = Some d) /\
       (RawEvent.duration evt = None ->
          exists d, ExEvent.duration e = Some d /\ 0 < d)) /\
  (List.length (normalizeEvents students events timeStep)
   <= List.length events)%nat.
Proof.
  split.
  - intros e He. unfold normalizeEvents in He. apply in_flat_map in He.
    destruct He as (raw & Hraw & He).
    destruct (normalizeEvent_inv _ _ _ _ He)
      as (evt & student & skill & -> & Hid & Hid' & Hs & Hs' & Hst & Hty
          & Hsk & Hsk' & Hfind & Hskill & Hd & Ht & Hids & Hb).
    split; [| split].
    + unfold wellFormed. repeat split; try assumption.
      * now exists student, skill.
      * eexists. exact Hd.
      * rewrite Hids. destruct (ExEvent.target e); try reflexivity.
        destruct (ids_or_nonempty (RawEvent.targetStudentIds evt)
                    (ExEvent.studentId e)) as (x & l & ->).
        now exists x, l.
    + unfold roundTrips. rewrite Hd, Hids.
      apply String.eqb_neq in Hid', Hs', Hsk'. rewrite Hid', Hs', Hsk'.
      destruct (ExEvent.target e); simpl; try reflexivity;
        now rewrite String.eqb_refl.
    + exists evt. repeat split; try assumption; try (now symmetry).
      * intros d Hraw'. now rewrite Hd, Hraw'.
      * intros Hraw'. rewrite Hraw' in Hd. eexists. split; [exact Hd |].
        apply getSkillDuration_fold_pos.
  - unfold normalizeEvents. induction events as [| raw events IH];
      [apply Nat.le_refl |].
    cbn [flat_map]. rewrite length_app. cbn [List.length].
    assert (Hone : (List.length (normalizeEvent students timeStep raw) <= 1)%nat).
    { unfold normalizeEvent. destruct raw as [evt |]; [| apply Nat.le_0_l].
      destruct (truthy (RawEvent.id evt)); [| apply Nat.le_0_l].
      destruct (truthy (RawEvent.studentId evt)); [| apply Nat.le_0_l].
      destruct (RawEvent.start evt); [| apply Nat.le_0_l].
      destruct (find _ students) as [student |]; [| apply Nat.le_0_l].
      cbv zeta.
      destruct (truthy match RawEvent.skillId evt with
                       | Some s => Some s
                       | None => RawEvent.exId evt
                       end) as [skillId |]; [| apply Nat.le_0_l].
      destruct (lookupSkill student _ skillId); [| apply Nat.le_0_l].
      apply Nat.le_refl. }
    lia.
Qed.

Lemma normalizeEvent_wellFormed (students : list Student.t) (timeStep : Q)
  (e : ExEvent.t) :
  wellFormed students e ->
  normalizeEvent students timeStep (Some (RawEvent_of e)) = [e].
Proof.
  intros (Hid & Hs & Hsk & (student & skill & Hfind & Hskill) & [d Hd] & Hids).
  unfold normalizeEvent, RawEvent_of. cbn [RawEvent.id RawEvent.studentId
    RawEvent.start RawEvent.skillType RawEvent.skillId RawEvent.exId
    RawEvent.duration RawEvent.target RawEvent.targetStudentIds
    RawEvent.buffTargets].
  rewrite !truthy_Some by assumption. rewrite Hfind. cbv zeta.
  rewrite Hskill, Hd. destruct e as [id sid ty sk st du ta ids bt].
  cbn [ExEvent.id ExEvent.studentId ExEvent.skillType ExEvent.skillId
       ExEvent.start ExEvent.duration ExEvent.target ExEvent.targetStudentIds
       ExEvent.buffTargets] in *.
  subst du. destruct ta; try (now rewrite Hids).
  destruct Hids as (x & l & ->). reflexivity.
Qed.

(** X7.  [normalizeEvents] returns events in normal form: printed and
    read back, they are normalised to themselves, whatever the tick. *)
Theorem normalizeEvents_idempotent (students : list Student.t)
  (events : list (option RawEvent.t)) (timeStep timeStep' : Q) :
  normalizeEvents students
    (map (fun e => Some (RawEvent_of e))
         (normalizeEvents students events timeStep)) timeStep' =
  normalizeEvents students events timeStep.
Proof.
  assert (Hwf : forall e, In e (normalizeEvents students events timeStep) ->
                  wellFormed students e).
  { intros e He. unfold normalizeEvents in He. apply in_flat_map in He.
    destruct He as (raw & _ & He).
    destruct (normalizeEvent_inv _ _ _ _ He)
      as (evt & student & skill & _ & _ & Hid' & _ & Hs' & _ & _
          & _ & Hsk' & Hfind & Hskill & Hd & _ & Hids & _).
    unfold wellFormed. repeat split; try assumption.
    - now exists student, skill.
    - eexists. exact Hd.
    - rewrite Hids. destruct (ExEvent.target e); try reflexivity.
      destruct (ids_or_nonempty (RawEvent.targetStudentIds evt)
                  (ExEvent.studentId e)) as (x & l & ->).
      now exists x, l. }
  revert Hwf. generalize (normalizeEvents students events timeStep).
  intros l. unfold normalizeEvents. induction l as [| e l IH]; intros Hwf;
    [reflexivity |].
  cbn [map flat_map].
  rewrite (normalizeEvent_wellFormed _ _ _ (Hwf e (or_introl eq_refl))).
  cbn [app]. f_equal. apply IH. intros e' He'. apply Hwf. now right.
Qed.

(** The three cases of [clamp]. *)
Lemma clamp_range (value min max : Q) :
  min <= clamp value min max /\
  (min <= max -> clamp value min max <= max) /\
  (min <= value -> value <= max -> clamp value min max == value).
Proof.
  unfold clamp.
  destruct (Math_min_spec max value) as [[H1 ->] | [H1 ->]];
    [destruct (Math_max_spec min max) as [[H2 ->] | [H2 ->]]
    | destruct (Math_max_spec min value) as [[H2 ->] | [H2 ->]]];
    repeat split; intros; lra.
Qed.

Lemma clampEvent_clamped (timelineSeconds timeStep : Q) (e : ExEvent.t) :
  ExEvent.duration e <> None ->
  exists e', clampEvent timelineSeconds timeStep e = Some e' /\
             clamped timelineSeconds timeStep e e'.
Proof.
  intros Hd. unfold clampEvent.
  destruct (ExEvent.duration e) as [d |] eqn:Ed; [| congruence]. cbv zeta.
  eexists. split; [reflexivity |]. unfold clamped.
  cbn [ExEvent.id ExEvent.studentId ExEvent.skillType ExEvent.skillId
       ExEvent.start ExEvent.duration ExEvent.target ExEvent.targetStudentIds
       ExEvent.buffTargets].
  repeat (split; [reflexivity |]).
  set (maxStart := Math_max 0 (timelineSeconds - d)).
  set (nextStart := clamp (ExEvent.start e) 0 maxStart).
  exists d, (clamp d timeStep (timelineSeconds - nextStart)).
  split; [exact Ed |]. split; [reflexivity |].
  destruct (clamp_range (ExEvent.start e) 0 maxStart) as (S1 & S2 & S3).
  destruct (clamp_range d timeStep (timelineSeconds - nextStart))
    as (D1 & D2 & D3).
  fold nextStart in S1, S2, S3.
  assert (Hmax : 0 <= maxStart /\ timelineSeconds - d <= maxStart /\
                 (maxStart == 0 \/ maxStart == timelineSeconds - d)).
  { unfold maxStart.
    destruct (Math_max_spec 0 (timelineSeconds - d)) as [[H ->] | [H ->]];
      repeat split; lra. }
  destruct Hmax as (M1 & M2 & M3). specialize (S2 M1).
  repeat split; try assumption.
  - intros Hts Htl.
    assert (Hb : timeStep <= timelineSeconds - nextStart)
      by (destruct M3 as [M3 | M3]; lra).
    specialize (D2 Hb). lra.
  - apply S3; lra.
  - assert (Hs : nextStart == ExEvent.start e) by (apply S3; lra).
    apply D3; lra.
Qed.

Lemma Forall2_In_r {A B : Type} (R : A -> B -> Prop) (l : list A)
  (l' : list B) (y : B) :
  Forall2 R l l' -> In y l' -> exists x, In x l /\ R x y.
Proof.
  induction 1 as [| a b l l' Hab _ IH]; intros Hin; [destruct Hin |].
  destruct Hin as [<- | Hin].
  - exists a. split; [now left | assumption].
  - destruct (IH Hin) as (x & Hx & HR). exists x. split; [now right | assumption].
Qed.

Lemma clampEventsToTimeline_clamped (events : list ExEvent.t)
  (timelineSeconds timeStep : Q) :
  (forall e, In e events -> ExEvent.duration e <> None) ->
  exists events',
    clampEventsToTimeline events timelineSeconds timeStep = Some events' /\
    Forall2 (clamped timelineSeconds timeStep) events events'.
Proof.
  induction events as [| e events IH]; intros Hd.
  - exists []. split; [reflexivity | constructor].
  - destruct (clampEvent_clamped timelineSeconds timeStep e) as (e' & He & Hc);
      [apply Hd; now left |].
    destruct IH as (events' & Hes & Hf); [intros x Hx; apply Hd; now right |].
    exists (e' :: events'). cbn [clampEventsToTimeline]. rewrite He, Hes.
    split; [reflexivity | now constructor].
Qed.

(** X8.  [clampEventsToTimeline] is defined on events that have a
    duration, and clamps them one by one: identity, skill and targets are
    kept; the start is not negative and the duration is at least one
    tick; an event ends within the timeline when its duration and the
    timeline were at least one tick long; and an event already within the
    timeline keeps its start and duration. *)
Theorem clampEventsToTimeline_spec (events : list ExEvent.t)
  (timelineSeconds timeStep : Q) :
  (forall e, In e events -> ExEvent.duration e <> None) ->
  exists events',
    clampEventsToTimeline events timelineSeconds timeStep = Some events' /\
    Forall2 (clamped timelineSeconds timeStep) events events'.
Proof. apply clampEventsToTimeline_clamped. Qed.

Lemma normalizeEvents_In (students : list Student.t)
  (events : list (option RawEvent.t)) (timeStep : Q) (e : ExEvent.t) :
  In e (normalizeEvents students events timeStep) -> wellFormed students e.
Proof.
  intros He. unfold normalizeEvents in He. apply in_flat_map in He.
  destruct He as (raw & _ & He).
  destruct (normalizeEvent_inv _ _ _ _ He)
    as (evt & student & skill & _ & _ & Hid' & _ & Hs' & _ & _
        & _ & Hsk' & Hfind & Hskill & Hd & _ & Hids & _).
  unfold wellFormed. repeat split; try assumption.
  - now exists student, skill.
  - eexists. exact Hd.
  - rewrite Hids. destruct (ExEvent.target e); try reflexivity.
    destruct (ids_or_nonempty (RawEvent.targetStudentIds evt)
                (ExEvent.studentId e)) as (x & l & ->).
    now exists x, l.
Qed.

Lemma decodeState_inv (current st' : AppState.t) (encoded : string) :
  decodeState current encoded = Some st' ->
  exists decoded parsed students,
    encoded <> "" /\
    base64UrlDecode encoded = Some decoded /\
    JSON_parse decoded = Some (JObject parsed) /\
    Parsed.students parsed = Some students /\
    AppState.students st' = students /\
    AppState.timeStep st' =
      match Parsed.timeStep parsed with
      | Some t => t
      | None => DEFAULT_TIME_STEP
      end /\
    AppState.timelineSeconds st' =
      match Parsed.timelineSeconds parsed with
      | Some t => t
      | None => DEFAULT_TIMELINE_SECONDS
      end /\
    AppState.enemy st' =
      match Parsed.enemy parsed with
      | Some e => e
      | None => AppState.enemy current
      end /\
    AppState.events st' =
      normalizeEvents students
        (match Parsed.events parsed with Some l => l | None => [] end)
        (AppState.timeStep st') /\
    AppState.nsEnabled st' =
      match Parsed.nsEnabled parsed with Some d => d | None => [] end /\
    AppState.nsTargets st' =
      match Parsed.nsTargets parsed with
      | Some d => d
      | None =>
          fromEntries
            (map (fun student =>
                    (Student.id student, TargetSpec.mk MSelf None))
                 students)
      end.
Proof.
  unfold decodeState.
  destruct (truthy (Some encoded)) as [token |] eqn:Et; [| discriminate].
  apply truthy_inv in Et as [[= <-] Hne].
  unfold parseState.
  destruct (base64UrlDecode encoded) as [decoded |]; [| discriminate].
  destruct (JSON_parse decoded) as [[| parsed] |] eqn:Ej; try discriminate.
  destruct (Parsed.students parsed) as [students |] eqn:Es; [| discriminate].
  cbv zeta. rewrite Es. intros [= <-].
  exists decoded, parsed, students. now repeat split.
Qed.



(** ** The expander's universe *)

Lemma finalTargets_universe (allStudentIds : list string) (event : ExEvent.t)
  (buff : Buff.t) (id : string) :
  In (ExEvent.studentId event) allStudentIds ->
  In id (finalTargets allStudentIds event buff) ->
  In id (allStudentIds ++ [ENEMY_ID]).
Proof.
  intros Howner. unfold finalTargets.
  assert (Henemy : In ENEMY_ID (allStudentIds ++ [ENEMY_ID]))
    by (apply in_app_iff; right; now left).
  assert (Hfallback : forall x, In x [ExEvent.studentId event] ->
                        In x (allStudentIds ++ [ENEMY_ID])).
  { intros x [<- | []]. apply in_app_iff. now left. }
  assert (Hfiltered : forall x, In x (target allStudentIds event buff) ->
                        In x (allStudentIds ++ [ENEMY_ID])).
  { intros x Hx. unfold target in Hx. apply filter_In in Hx as [_ Hx].
    now apply includes_In. }
  destruct (targetMode event buff);
    try (revert Hfiltered;
         destruct (target allStudentIds event buff) as [| y l];
         intros Hfiltered Hin; [now apply Hfallback | now apply Hfiltered]).
  intros [<- | []]. exact Henemy.
Qed.

Lemma find_eqb_id (students : list Student.t) (id : string)
  (student : Student.t) :
  find (fun item => String.eqb (Student.id item) id) students = Some student ->
  In student students /\ Student.id student = id.
Proof.
  intros H. apply find_some in H as [Hin Heq].
  split; [assumption | now apply String.eqb_eq].
Qed.

(** Where a raw instance comes from. *)
Lemma buildBuffInstances_universe_raw (students : list Student.t)
  (events : list ExEvent.t) (nsEnabled : list (string * bool))
  (nsTargets : list (string * TargetSpec.t)) (timelineSeconds timeStep : Q)
  (r : BuffInstance.t) :
  In r (buildBuffInstances students events nsEnabled nsTargets
          timelineSeconds timeStep) ->
  In (BuffInstance.sourceStudentId r) (map Student.id students) /\
  In (BuffInstance.studentId r) (map Student.id students ++ [ENEMY_ID]) /\
  exists event,
    In event events /\
    BuffInstance.sourceEventId r = Some (ExEvent.id event) /\
    BuffInstance.sourceStudentId r = ExEvent.studentId event /\
    BuffInstance.start r = ExEvent.start event.
Proof.
  intros H. apply buildBuffInstances_In in H
    as (event & student & skill & buff & t & Hev & Hfind & _ & _ & Ht & ->).
  apply find_eqb_id in Hfind as [Hin Hid]. cbn [makeInstance
    BuffInstance.sourceStudentId BuffInstance.studentId
    BuffInstance.sourceEventId BuffInstance.start].
  assert (Hsrc : In (Student.id student) (map Student.id students))
    by (now apply in_map).
  split; [assumption |]. split.
  - apply finalTargets_universe with event buff; [| assumption].
    now rewrite <- Hid.
  - exists event. now repeat split.
Qed.

(** X10.  Every raw instance, and so every resolved instance, is sourced
    from a student of the state and targets a student of the state or
    the fixed enemy; it carries the id and the start of the cast event it
    comes from, whose owner is its source. *)
Theorem buildBuffInstances_universe (students : list Student.t)
  (events : list ExEvent.t) (nsEnabled : list (string * bool))
  (nsTargets : list (string * TargetSpec.t)) (timelineSeconds timeStep : Q) :
  forall r,
    In r (buildBuffInstances students events nsEnabled nsTargets
            timelineSeconds timeStep) \/
    In r (applyOverwriteRules
            (buildBuffInstances students events nsEnabled nsTargets
               timelineSeconds timeStep)) ->
    In (BuffInstance.sourceStudentId r) (map Student.id students) /\
    In (BuffInstance.studentId r) (map Student.id students ++ [ENEMY_ID]) /\
    exists event,
      In event events /\
      BuffInstance.sourceEventId r = Some (ExEvent.id event) /\
      BuffInstance.sourceStudentId r = ExEvent.studentId event /\
      BuffInstance.start r = ExEvent.start event.
Proof.
  intros r [Hr | Hr].
  - now apply buildBuffInstances_universe_raw in Hr.
  - apply applyOverwriteRules_In in Hr as (i & Hi & [-> _]).
    now apply buildBuffInstances_universe_raw in Hi.
Qed.

Lemma dict_delete_get {V : Type} (key : string) (d : list (string * V)) :
  dict_get key (dict_delete key d) = None.
Proof.
  apply dict_get_None. intros H. apply in_map_iff in H as ([k v] & Hk & Hin).
  unfold dict_delete in Hin. apply filter_In in Hin as [_ Hin].
  simpl in *. subst k. now rewrite String.eqb_refl in Hin.
Qed.

Lemma dict_delete_other {V : Type} (key key' : string) (d : list (string * V)) :
  key' <> key -> dict_get key' (dict_delete key d) = dict_get key' d.
Proof.
  intros Hne. unfold dict_delete. induction d as [| [k v] d IH]; [reflexivity |].
  cbn [filter fst]. destruct (String.eqb k key) eqn:E; cbn [negb].
  - apply String.eqb_eq in E. subst k. cbn [dict_get].
    assert (E' : String.eqb key key' = false)
      by (apply String.eqb_neq; congruence).
    now rewrite E'.
  - cbn [dict_get]. now rewrite IH.
Qed.

(** X11.  After [removeStudent] nothing of the student is left in the
    engine's view: no event is owned by the student, no resolved instance
    is sourced from or targets the student, though other casts may still
    name the student in their lists, and the ns settings have no entry
    for the student; students other than the removed one keep their
    entries.  The id must not be the enemy's, which is always a target. *)
Theorem removeStudent_spec (st : AppState.t) (studentId : string) :
  studentId <> ENEMY_ID ->
  (forall student, In student (AppState.students (removeStudent st studentId)) ->
     Student.id student <> studentId) /\
  (forall e, In e (AppState.events (removeStudent st studentId)) ->
     ExEvent.studentId e <> studentId /\ In e (AppState.events st)) /\
  (forall o, In o (buffInstances (removeStudent st studentId)) ->
     BuffInstance.studentId o <> studentId /\
     BuffInstance.sourceStudentId o <> studentId) /\
  dict_get studentId (AppState.nsEnabled (removeStudent st studentId)) = None /\
  dict_get studentId (AppState.nsTargets (removeStudent st studentId)) = None /\
  (forall other, other <> studentId ->
     dict_get other (AppState.nsEnabled (removeStudent st studentId)) =
     dict_get other (AppState.nsEnabled st) /\
     dict_get other (AppState.nsTargets (removeStudent st studentId)) =
     dict_get other (AppState.nsTargets st)).
Proof.
  intros Henemy.
  assert (Hstudents : forall student,
            In student (AppState.students (removeStudent st studentId)) ->
            Student.id student <> studentId).
  { intros student H. cbn [removeStudent AppState.students] in H.
    apply filter_In in H as [_ H]. now apply negb_true_iff, String.eqb_neq in H. }
  assert (Hids : ~ In studentId
                   (map Student.id
                      (AppState.students (removeStudent st studentId)))).
  { intros H. apply in_map_iff in H as (student & Hid & Hin).
    now apply (Hstudents student Hin). }
  split; [exact Hstudents |]. split; [| split; [| split; [| split]]].
  - intros e H. cbn [removeStudent AppState.events] in H.
    apply filter_In in H as [Hin H].
    split; [now apply negb_true_iff, String.eqb_neq in H | assumption].
  - intros o Ho. unfold buffInstances in Ho.
    apply applyOverwriteRules_In in Ho as (i & Hi & [-> _]).
    apply buildBuffInstances_universe_raw in Hi as (Hsrc & Htgt & _).
    cbn [BuffInstance.set_end BuffInstance.studentId
         BuffInstance.sourceStudentId].
    split.
    + intros Heq. rewrite Heq in Htgt. apply in_app_iff in Htgt as [H | H].
      * now apply Hids.
      * destruct H as [H | []]. now apply Henemy.
    + intros Heq. rewrite Heq in Hsrc. now apply Hids.
  - apply dict_delete_get.
  - apply dict_delete_get.
  - intros other Hother. split; now apply dict_delete_other.
Qed.

(** ** Retargeting an effect *)

Lemma finalTargets_self (allStudentIds : list string) (event : ExEvent.t)
  (buff : Buff.t) :
  targetMode event buff = MSelf ->
  finalTargets allStudentIds event buff = [ExEvent.studentId event].
Proof.
  intros Hm. unfold finalTargets, target, rawTargets. rewrite Hm.
  cbn [filter]. now destruct (includes _ _).
Qed.

Lemma updateEventBuffTarget_one (allStudentIds : list string)
  (eventId buffId : string) (nextTarget : TargetMode)
  (nextTargetStudentIds : option (list string)) (e : ExEvent.t) :
  Forall2
    (retargeted allStudentIds eventId buffId nextTarget nextTargetStudentIds)
    [e]
    (updateEventBuffTarget [e] eventId buffId nextTarget nextTargetStudentIds).
Proof.
  unfold updateEventBuffTarget. cbn [map]. constructor; [| constructor].
  destruct (String.eqb (ExEvent.id e) eventId) eqn:E; cbn [negb].
  - apply String.eqb_eq in E. unfold retargeted.
    cbn [ExEvent.id ExEvent.studentId ExEvent.skillType ExEvent.skillId
         ExEvent.start ExEvent.duration ExEvent.target
         ExEvent.targetStudentIds].
    repeat (split; [reflexivity |]).
    split; [intros Hne; contradiction |]. intros _.
    set (d := match ExEvent.buffTargets e with Some d => d | None => [] end).
    set (spec := buffTargetOf nextTarget nextTargetStudentIds).
    set (e' := ExEvent.mk _ _ _ _ _ _ _ _ _).
    split.
    + intros buff Hb.
      assert (Ho : override e' buff = Some spec).
      { unfold override, e'. cbn [ExEvent.buffTargets]. rewrite Hb.
        apply dict_get_set_same. }
      assert (Hm : targetMode e' buff = nextTarget).
      { unfold targetMode. now rewrite Ho. }
      split; [exact Hm |]. split; [| split].
      * intros ->. unfold finalTargets. now rewrite Hm.
      * intros ->. now rewrite (finalTargets_self allStudentIds e' buff Hm).
      * intros -> x ids ->. unfold rawTargets, overrideIds.
        rewrite Hm, Ho. reflexivity.
    + intros buff Hb.
      assert (Ho : override e' buff = override e buff).
      { unfold override, e'. cbn [ExEvent.buffTargets].
        rewrite dict_get_set_other by assumption. unfold d.
        now destruct (ExEvent.buffTargets e). }
      unfold finalTargets, target, rawTargets, targetMode, overrideIds.
      now rewrite Ho.
  - apply String.eqb_neq in E. unfold retargeted.
    repeat (split; [reflexivity |]). intros Heq. contradiction.
Qed.

(** X12.  [updateEventBuffTarget] keeps the events in place and changes
    the overrides of the event named only: the resolver then gives the
    effect named the mode asked for, with the enemy alone under [enemy],
    the owner alone under [self] and the ids asked for under [student],
    and gives every other effect of the event the targets it had. *)
Theorem updateEventBuffTarget_spec (allStudentIds : list string)
  (events : list ExEvent.t) (eventId buffId : string)
  (nextTarget : TargetMode) (nextTargetStudentIds : option (list string)) :
  Forall2
    (retargeted allStudentIds eventId buffId nextTarget nextTargetStudentIds)
    events
    (updateEventBuffTarget events eventId buffId nextTarget
       nextTargetStudentIds).
Proof.
  induction events as [| e events IH]; [constructor |].
  pose proof (updateEventBuffTarget_one allStudentIds eventId buffId
                nextTarget nextTargetStudentIds e) as H.
  apply Forall2_cons_iff in H as [H _].
  unfold updateEventBuffTarget in *. cbn [map]. now constructor.
Qed.

(** ** Overwriting *)

(** X13.  The overwrite rule on two instances of one slot, of which the
    second starts strictly later, while the first is live, and has
    positive length: the first is cut at the start of the second and the
    second is kept whole, in this order, whichever way the two were
    given.  The first does not resume when the second is over. *)
Theorem applyOverwriteRules_overwrite (a b : BuffInstance.t) :
  slotKey a = slotKey b ->
  BuffInstance.start a < BuffInstance.start b ->
  BuffInstance.start b < BuffInstance.end_ a ->
  BuffInstance.start b < BuffInstance.end_ b ->
  applyOverwriteRules [a; b] =
    [BuffInstance.set_end a (BuffInstance.start b); b] /\
  applyOverwriteRules [b; a] =
    [BuffInstance.set_end a (BuffInstance.start b); b].
Proof.
  intros Hkey Hab Hlive Hpos.
  assert (Hgroup : groupInstances [a; b] = [(slotKey a, [a; b])]).
  { unfold groupInstances. cbn [fold_left]. unfold group_push at 2.
    cbn [dict_get dict_set]. unfold group_push. cbn [dict_get].
    rewrite <- Hkey, String.eqb_refl. cbn [dict_set app].
    now rewrite String.eqb_refl. }
  assert (Hgroup' : groupInstances [b; a] = [(slotKey a, [b; a])]).
  { unfold groupInstances. cbn [fold_left]. unfold group_push at 2.
    cbn [dict_get dict_set]. unfold group_push. cbn [dict_get].
    rewrite Hkey, String.eqb_refl. cbn [dict_set app].
    now rewrite String.eqb_refl. }
  assert (Hlt : compareInstances a b = Lt).
  { unfold compareInstances. now apply Qlt_alt in Hab as ->. }
  assert (Hgt : compareInstances b a = Gt).
  { unfold compareInstances. now apply Qgt_alt in Hab as ->. }
  assert (Hmin : Math_min (BuffInstance.end_ a) (BuffInstance.start b) =
                 BuffInstance.start b).
  { destruct (Math_min_spec (BuffInstance.end_ a) (BuffInstance.start b))
      as [[H _] | [_ H]]; [lra | exact H]. }
  assert (Hres : resolveGroup [a; b] =
                 [BuffInstance.set_end a (BuffInstance.start b); b] /\
                 resolveGroup [b; a] =
                 [BuffInstance.set_end a (BuffInstance.start b); b]).
  { unfold resolveGroup. cbn [Array_sort sort_insert]. rewrite Hlt, Hgt.
    cbn [sort_insert]. unfold trim. cbn [fold_left]. unfold trim_step at 2.
    unfold trim_step.
    assert (E1 : ltb (BuffInstance.start b) (BuffInstance.end_ a) = true)
      by (now apply ltb_lt).
    rewrite E1, Hmin. cbn [BuffInstance.set_end BuffInstance.end_
      BuffInstance.start].
    assert (E2 : leb (BuffInstance.start b) (BuffInstance.start a) = false)
      by (now apply leb_gt).
    rewrite E2. cbn [rev app filter]. unfold positive.
    cbn [BuffInstance.set_end BuffInstance.end_ BuffInstance.start].
    assert (E3 : ltb (BuffInstance.start a) (BuffInstance.start b) = true)
      by (now apply ltb_lt).
    assert (E4 : ltb (BuffInstance.start b) (BuffInstance.end_ b) = true)
      by (now apply ltb_lt).
    rewrite E3, E4. now split. }
  destruct Hres as [R1 R2]. unfold applyOverwriteRules.
  rewrite Hgroup, Hgroup'. cbn [flat_map snd]. rewrite R1, R2.
  now rewrite app_nil_r.
Qed.

(** ** Stats of an idle target *)

Lemma isActive_buffsOf (target : StatTarget.t) (time : Q)
  (instances : list BuffInstance.t) :
  filter (isActive target time) (buffsOf (StatTarget.id target) instances) =
  filter (isActive target time) instances.
Proof.
  unfold buffsOf. induction instances as [| b l IH]; [reflexivity |].
  cbn [filter]. destruct (String.eqb (BuffInstance.studentId b) _) eqn:E.
  - cbn [filter]. now rewrite IH.
  - rewrite IH. unfold isActive at 2. now rewrite E.
Qed.

Lemma computeStatsAtTime_idle (target : StatTarget.t) (time : Q)
  (instances : list BuffInstance.t) :
  (forall b, In b instances ->
     BuffInstance.studentId b = StatTarget.id target ->
     time < BuffInstance.start b \/ BuffInstance.end_ b <= time) ->
  active (computeStatsAtTime target time instances) = [] /\
  totals (computeStatsAtTime target time instances) = Stats.mk 0 0 0 /\
  forall stat,
    statOf stat (computed (computeStatsAtTime target time instances)) ==
    statOf stat (StatTarget.stats target).
Proof.
  intros Hidle.
  assert (Hnone : filter (isActive target time) instances = []).
  { apply filter_nil_iff. intros b Hb. unfold isActive.
    destruct (String.eqb (BuffInstance.studentId b) (StatTarget.id target))
      eqn:E; [| reflexivity].
    apply String.eqb_eq in E. cbn [andb].
    destruct (Hidle b Hb E) as [H | H].
    - apply leb_gt in H. now rewrite H.
    - apply ltb_ge in H. rewrite H. apply andb_false_r. }
  unfold computeStatsAtTime. cbv zeta. rewrite Hnone.
  cbn [active totals computed stackedOf fold_left map].
  split; [reflexivity |]. split; [reflexivity |].
  intros []; cbn [statOf Stats.atk Stats.crit Stats.critDmg]; ring.
Qed.

(** X14.  The stats of a target depend on its own instances only: the
    aggregator returns the same result on the instances of the target's
    row as on all instances.  When none of them is live at the query
    time, nothing is active, the totals are zero and each computed stat
    equals the base stat. *)
Theorem computeStatsAtTime_local (target : StatTarget.t) (time : Q)
  (instances : list BuffInstance.t) :
  computeStatsAtTime target time (buffsOf (StatTarget.id target) instances) =
  computeStatsAtTime target time instances /\
  ((forall b, In b instances ->
      BuffInstance.studentId b = StatTarget.id target ->
      time < BuffInstance.start b \/ BuffInstance.end_ b <= time) ->
   active (computeStatsAtTime target time instances) = [] /\
   totals (computeStatsAtTime target time instances) = Stats.mk 0 0 0 /\
   forall stat,
     statOf stat (computed (computeStatsAtTime target time instances)) ==
     statOf stat (StatTarget.stats target)).
Proof.
  split; [| apply computeStatsAtTime_idle].
  unfold computeStatsAtTime. cbv zeta. now rewrite isActive_buffsOf.
Qed.

Lemma buffInstances_end (st : AppState.t) (o : BuffInstance.t) :
  In o (buffInstances st) ->
  BuffInstance.end_ o <= AppState.timelineSeconds st.
Proof.
  unfold buffInstances. intros Ho.
  apply applyOverwriteRules_In in Ho as (i & Hi & [_ Hle]).
  apply buildBuffInstances_In in Hi
    as (event & student & skill & buff & t & _ & _ & _ & _ & _ & ->).
  cbn [makeInstance BuffInstance.end_] in Hle. unfold endOf in Hle.
  pose proof (Math_min_le_r
                (ExEvent.start event
                 + duration (AppState.timeStep st) event buff)
                (AppState.timelineSeconds st)).
  lra.
Qed.

(** X15.  From the end of the timeline on, every target the inspector
    can select is idle: no instance is active and each of its computed
    stats equals its base stat. *)
Theorem inspectStats_after_timeline (st : AppState.t)
  (selectedStudentId : string) (inspectTime : Q) :
  AppState.timelineSeconds st <= inspectTime ->
  forall target,
    selectedTarget st selectedStudentId = Some target ->
    exists stats,
      inspectStats st selectedStudentId inspectTime = Some stats /\
      active stats = [] /\
      forall stat,
        statOf stat (computed stats) == statOf stat (StatTarget.stats target).
Proof.
  intros Hlate target Htarget. unfold inspectStats. rewrite Htarget.
  cbn [option_map]. eexists. split; [reflexivity |].
  destruct (computeStatsAtTime_idle target inspectTime (buffInstances st))
    as (Ha & _ & Hc).
  - intros b Hb _. right. apply buffInstances_end in Hb. lra.
  - split; assumption.
Qed.

(** ** Lanes of any input *)

Lemma findIndex_lt {A : Type} (p : A -> bool) (l : list A) (i : nat) :
  findIndex p l = Some i -> (i < List.length l)%nat.
Proof.
  intros H. apply findIndex_Some in H as (x & Hx & _).
  apply nth_error_Some. congruence.
Qed.

(** One round of the lane loop keeps every index of the map within the
    lanes and every key of the map an id that was seen, and opens at most
    one lane. *)
Lemma lane_step_safe (st : list Q * list (string * nat))
  (seen : list BuffInstance.t) (buff : BuffInstance.t) :
  (forall b, In b seen -> exists lane, laneOf (snd st) b = Some lane) ->
  (forall id lane, dict_get id (snd st) = Some lane ->
     (lane < List.length (fst st))%nat /\
     exists b, In b seen /\ BuffInstance.id b = id) ->
  (List.length (fst st) <= List.length seen)%nat ->
  (forall b, In b (seen ++ [buff]) ->
     exists lane, laneOf (snd (lane_step st buff)) b = Some lane) /\
  (forall id lane, dict_get id (snd (lane_step st buff)) = Some lane ->
     (lane < List.length (fst (lane_step st buff)))%nat /\
     exists b, In b (seen ++ [buff]) /\ BuffInstance.id b = id) /\
  (List.length (fst (lane_step st buff)) <= List.length (seen ++ [buff]))%nat.
Proof.
  destruct st as [laneEnds lmap]. cbn [fst snd]. intros Hseen Hmap Hlen.
  unfold lane_step.
  destruct (findIndex _ laneEnds) as [laneIndex |] eqn:Efind; cbn [fst snd].
  - apply findIndex_lt in Efind. split; [| split].
    + intros b Hb. unfold laneOf.
      destruct (String.eqb_spec (BuffInstance.id b) (BuffInstance.id buff))
        as [-> | Hne].
      * exists laneIndex. apply dict_get_set_same.
      * rewrite dict_get_set_other by assumption.
        apply in_app_iff in Hb as [Hb | [<- | []]]; [| congruence].
        now apply Hseen.
    + intros id lane Hget. rewrite array_set_length.
      destruct (String.eqb_spec id (BuffInstance.id buff)) as [-> | Hne].
      * rewrite dict_get_set_same in Hget. injection Hget as <-.
        split; [assumption |]. exists buff. split; [| reflexivity].
        apply in_app_iff. right. now left.
      * rewrite dict_get_set_other in Hget by assumption.
        destruct (Hmap id lane Hget) as (Hlt & b & Hb & Hid).
        split; [assumption |]. exists b. split; [| assumption].
        apply in_app_iff. now left.
    + rewrite array_set_length, length_app. cbn [List.length]. lia.
  - split; [| split].
    + intros b Hb. unfold laneOf.
      destruct (String.eqb_spec (BuffInstance.id b) (BuffInstance.id buff))
        as [-> | Hne].
      * exists (List.length laneEnds). apply dict_get_set_same.
      * rewrite dict_get_set_other by assumption.
        apply in_app_iff in Hb as [Hb | [<- | []]]; [| congruence].
        now apply Hseen.
    + intros id lane Hget. rewrite length_app. cbn [List.length].
      destruct (String.eqb_spec id (BuffInstance.id buff)) as [-> | Hne].
      * rewrite dict_get_set_same in Hget. injection Hget as <-.
        split; [lia |]. exists buff. split; [| reflexivity].
        apply in_app_iff. right. now left.
      * rewrite dict_get_set_other in Hget by assumption.
        destruct (Hmap id lane Hget) as (Hlt & b & Hb & Hid).
        split; [lia |]. exists b. split; [| assumption].
        apply in_app_iff. now left.
    + rewrite !length_app. cbn [List.length]. lia.
Qed.

Lemma lane_fold_safe (rest seen : list BuffInstance.t)
  (st : list Q * list (string * nat)) :
  (forall b, In b seen -> exists lane, laneOf (snd st) b = Some lane) ->
  (forall id lane, dict_get id (snd st) = Some lane ->
     (lane < List.length (fst st))%nat /\
     exists b, In b seen /\ BuffInstance.id b = id) ->
  (List.length (fst st) <= List.length seen)%nat ->
  (forall b, In b (seen ++ rest) ->
     exists lane, laneOf (snd (fold_left lane_step rest st)) b = Some lane) /\
  (forall id lane,
     dict_get id (snd (fold_left lane_step rest st)) = Some lane ->
     (lane < List.length (fst (fold_left lane_step rest st)))%nat /\
     exists b, In b (seen ++ rest) /\ BuffInstance.id b = id) /\
  (List.length (fst (fold_left lane_step rest st))
   <= List.length (seen ++ rest))%nat.
Proof.
  revert seen st. induction rest as [| buff rest IH]; intros seen st H1 H2 H3.
  - rewrite app_nil_r. cbn [fold_left]. now split; [| split].
  - cbn [fold_left].
    destruct (lane_step_safe st seen buff H1 H2 H3) as (S1 & S2 & S3).
    specialize (IH (seen ++ [buff]) (lane_step st buff) S1 S2 S3).
    now rewrite <- app_assoc in IH.
Qed.

(** X16.  Whatever the input (repeated ids, empty intervals),
    [buildBuffLanes] gives every instance a lane index below the lane
    count, keeps no index at or above the lane count and no key that is
    not the id of an input instance, and counts at least one lane and at
    most one lane per instance. *)
Theorem buildBuffLanes_safe (buffs : list BuffInstance.t) :
  (forall b, In b buffs ->
     exists lane,
       laneOf (laneMap (buildBuffLanes buffs)) b = Some lane /\
       (lane < laneCount (buildBuffLanes buffs))%nat) /\
  (forall id lane,
     dict_get id (laneMap (buildBuffLanes buffs)) = Some lane ->
     (lane < laneCount (buildBuffLanes buffs))%nat /\
     exists b, In b buffs /\ BuffInstance.id b = id) /\
  (1 <= laneCount (buildBuffLanes buffs))%nat /\
  (laneCount (buildBuffLanes buffs) <= Nat.max 1 (List.length buffs))%nat.
Proof.
  destruct (lane_fold_safe (Array_sort compareStart buffs) [] ([], []))
    as (H1 & H2 & H3).
  { intros b []. }
  { intros id lane H. discriminate H. }
  { apply Nat.le_refl. }
  cbn [app] in H1, H2, H3.
  assert (Hlen : List.length (Array_sort compareStart buffs) = List.length buffs)
    by (apply Permutation_length, Array_sort_perm).
  unfold buildBuffLanes.
  destruct (fold_left lane_step (Array_sort compareStart buffs) ([], []))
    as [laneEnds lmap]. cbn [fst snd laneMap laneCount] in *.
  split; [| split; [| split]].
  - intros b Hb. destruct (H1 b) as [lane Hlane];
      [now apply Array_sort_In |].
    exists lane. split; [assumption |].
    destruct (H2 _ _ Hlane) as [Hlt _]. lia.
  - intros id lane Hget. destruct (H2 id lane Hget) as (Hlt & b & Hb & Hid).
    split; [lia |]. exists b. split; [| assumption].
    now apply Array_sort_In in Hb.
  - lia.
  - lia.
Qed.

(** ** Rows of lanes *)

Lemma dict_fold_get {A V : Type} (key : A -> string) (val : string -> V)
  (l : list A) (d : list (string * V)) (k : string) :
  dict_get k (fold_left (fun d x => dict_set (key x) (val (key x)) d) l d) =
  if existsb (fun x => String.eqb (key x) k) l then Some (val k)
  else dict_get k d.
Proof.
  revert d. induction l as [| x l IH]; intros d; [reflexivity |].
  cbn [fold_left existsb]. rewrite IH.
  destruct (existsb _ l); [now rewrite orb_true_r |]. rewrite orb_false_r.
  destruct (String.eqb_spec (key x) k) as [<- | Hne].
  - apply dict_get_set_same.
  - apply dict_get_set_other. congruence.
Qed.

(** X17.  [buffLanesByStudent] has a row for every student and for the
    enemy, holding the lanes of the resolved instances that target it,
    and no other row.  When the enemy of the state has the fixed enemy id,
    every resolved instance lies in the row of one of these targets. *)
Theorem buffLanesByStudent_rows (st : AppState.t) :
  (forall target, In target (allTargets st) ->
     dict_get (StatTarget.id target) (buffLanesByStudent st) =
     Some (buildBuffLanes
             (buffsOf (StatTarget.id target) (buffInstances st)))) /\
  (forall id lanes, dict_get id (buffLanesByStudent st) = Some lanes ->
     In id (map StatTarget.id (allTargets st))) /\
  (Enemy.id (AppState.enemy st) = ENEMY_ID ->
   forall o, In o (buffInstances st) ->
     exists target,
       In target (allTargets st) /\
       In o (buffsOf (StatTarget.id target) (buffInstances st))).
Proof.
  assert (Hget : forall k,
            dict_get k (buffLanesByStudent st) =
            if existsb (fun x => String.eqb (StatTarget.id x) k) (allTargets st)
            then Some (buildBuffLanes (buffsOf k (buffInstances st)))
            else None).
  { intros k. unfold buffLanesByStudent.
    apply (dict_fold_get StatTarget.id
             (fun id => buildBuffLanes (buffsOf id (buffInstances st)))). }
  split; [| split].
  - intros target Hin. rewrite Hget.
    assert (E : existsb (fun x => String.eqb (StatTarget.id x)
                                             (StatTarget.id target))
                        (allTargets st) = true).
    { apply existsb_exists. exists target. split; [assumption |].
      apply String.eqb_refl. }
    now rewrite E.
  - intros id lanes H. rewrite Hget in H.
    destruct (existsb _ (allTargets st)) eqn:E; [| discriminate].
    apply existsb_exists in E as (x & Hx & Heq). apply String.eqb_eq in Heq.
    apply in_map_iff. now exists x.
  - intros Henemy o Ho.
    assert (Huniv : In (BuffInstance.studentId o)
                       (map Student.id (AppState.students st) ++ [ENEMY_ID])).
    { unfold buffInstances in Ho.
      apply applyOverwriteRules_In in Ho as (i & Hi & [-> _]).
      now apply buildBuffInstances_universe_raw in Hi as (_ & Htgt & _). }
    assert (Hrow : forall target, In target (allTargets st) ->
              StatTarget.id target = BuffInstance.studentId o ->
              exists target,
                In target (allTargets st) /\
                In o (buffsOf (StatTarget.id target) (buffInstances st))).
    { intros target Hin Hid. exists target. split; [assumption |].
      unfold buffsOf. apply filter_In. split; [assumption |].
      rewrite Hid. apply String.eqb_refl. }
    apply in_app_iff in Huniv as [Hs | [He | []]].
    + apply in_map_iff in Hs as (student & Hid & Hin).
      apply (Hrow (StatTarget.mk (Student.id student) (Student.stats student)));
        [| assumption].
      unfold allTargets. apply in_app_iff. left.
      apply in_map_iff. now exists student.
    + apply (Hrow (StatTarget.mk (Enemy.id (AppState.enemy st))
                                 (Enemy.stats (AppState.enemy st)))).
      * unfold allTargets. apply in_app_iff. right. now left.
      * cbn [StatTarget.id]. now rewrite Henemy.
Qed.

(** ** Dropping and removing a skill *)

(** X18.  [handleDrop] leaves the events as they are exactly when the
    track's student is missing or has no such skill.  When both are found
    it appends one event: with the id drawn, the owner of the track, the
    skill of the payload, the start given, mode [self], the owner as its
    target list, no override, and the duration [getSkillDuration] gives
    for the skill's effects, which is positive; every effect without a
    target mode of its own targets the owner alone; and the event round
    trips through the codec when its id, its owner and its skill id are
    not empty. *)
Theorem handleDrop_spec (students : list Student.t) (events : list ExEvent.t)
  (timeStep : Q) (studentId : string) (skillType : SkillType)
  (skillId : string) (time : Q) (newId : string) :
  (find (fun item => String.eqb (Student.id item) studentId) students = None ->
   handleDrop students events timeStep studentId skillType skillId time newId
   = events) /\
  (forall student,
     find (fun item => String.eqb (Student.id item) studentId) students =
     Some student ->
     lookupSkill student skillType skillId = None ->
     handleDrop students events timeStep studentId skillType skillId time newId
     = events) /\
  (forall student skill,
     find (fun item => String.eqb (Student.id item) studentId) students =
     Some student ->
     lookupSkill student skillType skillId = Some skill ->
     handleDrop students events timeStep studentId skillType skillId time newId
     = events
       ++ [ExEvent.mk newId studentId skillType skillId time
             (Some (getSkillDuration (Skill_buffs skill)
                      (Math_max timeStep DEFAULT_EX_EVENT_DURATION)))
             MSelf (Some [studentId]) None] /\
     handleDrop students events timeStep studentId skillType skillId time newId
     <> events /\
     0 < getSkillDuration (Skill_buffs skill)
           (Math_max timeStep DEFAULT_EX_EVENT_DURATION) /\
     (forall e,
        last (handleDrop students events timeStep studentId skillType skillId
                time newId) e =
        ExEvent.mk newId studentId skillType skillId time
          (Some (getSkillDuration (Skill_buffs skill)
                   (Math_max timeStep DEFAULT_EX_EVENT_DURATION)))
          MSelf (Some [studentId]) None) /\
     (forall allStudentIds buff, Buff.target buff = None ->
        finalTargets allStudentIds
          (ExEvent.mk newId studentId skillType skillId time
             (Some (getSkillDuration (Skill_buffs skill)
                      (Math_max timeStep DEFAULT_EX_EVENT_DURATION)))
             MSelf (Some [studentId]) None) buff = [studentId]) /\
     (newId <> "" -> studentId <> "" -> skillId <> "" ->
      roundTrips
        (ExEvent.mk newId studentId skillType skillId time
           (Some (getSkillDuration (Skill_buffs skill)
                    (Math_max timeStep DEFAULT_EX_EVENT_DURATION)))
           MSelf (Some [studentId]) None) = true)).
Proof.
  unfold handleDrop. split; [| split].
  - intros ->. reflexivity.
  - intros student -> ->. reflexivity.
  - intros student skill -> ->.
    split; [reflexivity |]. split; [| split; [| split; [| split]]].
    + intros H. apply (f_equal (@List.length ExEvent.t)) in H.
      rewrite length_app in H. cbn [List.length] in H. lia.
    + apply getSkillDuration_fold_pos.
    + intros e. apply last_last.
    + intros allStudentIds buff Hb. apply finalTargets_self.
      unfold targetMode, override. cbn [ExEvent.buffTargets ExEvent.target].
      now rewrite Hb.
    + intros Hid Hs Hsk. unfold roundTrips.
      cbn [ExEvent.id ExEvent.studentId ExEvent.skillId ExEvent.duration
           ExEvent.target ExEvent.targetStudentIds ids_or TargetMode_eqb].
      apply String.eqb_neq in Hid, Hs, Hsk. rewrite Hid, Hs, Hsk.
      now rewrite String.eqb_refl.
Qed.

(** X19.  After [removeExSkill] the students are the same in number and
    ids, the student named has no ex skill of the id removed, no event
    casts it, and no resolved instance comes from it. *)
Theorem removeExSkill_spec (st : AppState.t) (studentId exId : string) :
  map Student.id (AppState.students (removeExSkill st studentId exId)) =
  map Student.id (AppState.students st) /\
  (forall student,
     In student (AppState.students (removeExSkill st studentId exId)) ->
     Student.id student = studentId ->
     forall ex, In ex (Student.ex student) -> ExSkill.id ex <> exId) /\
  (forall e, In e (AppState.events (removeExSkill st studentId exId)) ->
     In e (AppState.events st) /\
     ~ (ExEvent.studentId e = studentId /\ ExEvent.skillType e = Ex /\
        ExEvent.skillId e = exId)) /\
  (forall o, In o (buffInstances (removeExSkill st studentId exId)) ->
     ~ (BuffInstance.sourceStudentId o = studentId /\
        BuffInstance.source o = Ex /\ BuffInstance.sourceId o = exId)).
Proof.
  assert (Hex : forall student,
            In student (AppState.students (removeExSkill st studentId exId)) ->
            Student.id student = studentId ->
            forall ex, In ex (Student.ex student) -> ExSkill.id ex <> exId).
  { intros student Hin Hid ex Hexin.
    cbn [removeExSkill AppState.students] in Hin.
    apply in_map_iff in Hin as (s & <- & _).
    destruct (String.eqb (Student.id s) studentId) eqn:E.
    - cbn [Student.ex] in Hexin. apply filter_In in Hexin as [_ H].
      now apply negb_true_iff, String.eqb_neq in H.
    - apply String.eqb_neq in E. contradiction. }
  split; [| split; [exact Hex | split]].
  - cbn [removeExSkill AppState.students]. rewrite map_map.
    apply map_ext. intros s. now destruct (String.eqb (Student.id s) studentId).
  - intros e He. cbn [removeExSkill AppState.events] in He.
    apply filter_In in He as [Hin H]. split; [assumption |].
    intros (H1 & H2 & H3). rewrite H1, H2, H3, !String.eqb_refl in H.
    discriminate H.
  - intros o Ho Hbad. unfold buffInstances in Ho.
    apply applyOverwriteRules_In in Ho as (i & Hi & [Heq _]).
    rewrite Heq in Hbad. destruct Hbad as (Hsrc & Hty & Hid).
    apply buildBuffInstances_In in Hi
      as (event & student & skill & buff & t & _ & Hfind & Hskill & _ & _ & ->).
    cbn [BuffInstance.set_end makeInstance BuffInstance.sourceStudentId
         BuffInstance.source BuffInstance.sourceId] in Hsrc, Hty, Hid.
    apply find_some in Hfind as [Hin _].
    unfold lookupSkill in Hskill. rewrite Hty in Hskill.
    destruct (find _ (Student.ex student)) as [item |] eqn:Eitem;
      [| discriminate].
    injection Hskill as <-. apply find_some in Eitem as [Hitem _].
    now apply (Hex student Hin Hsrc item Hitem).
Qed.

(** ** Changing the timeline length and the tick *)

Lemma Math_round_near (x : Q) :
  x - (1 # 2) < Math_round x /\ Math_round x <= x + (1 # 2).
Proof.
  unfold Math_round.
  pose proof (Qfloor_le (x + (1 # 2))) as Hle.
  pose proof (Qlt_floor (x + (1 # 2))) as Hlt.
  rewrite inject_Z_plus in Hlt. change (inject_Z 1) with 1 in Hlt.
  split; lra.
Qed.

Lemma Math_round_between (x : Q) (lo hi : Z) :
  inject_Z lo <= x -> x <= inject_Z hi ->
  inject_Z lo <= Math_round x /\ Math_round x <= inject_Z hi.
Proof.
  intros Hlo Hhi. unfold Math_round. rewrite <- !Zle_Qle. split.
  - rewrite <- (Qfloor_Z lo). apply Qfloor_resp_le. lra.
  - assert (H : (Qfloor (x + (1 # 2)) < hi + 1)%Z).
    { rewrite Zlt_Qlt, inject_Z_plus. change (inject_Z 1) with 1.
      pose proof (Qfloor_le (x + (1 # 2))). lra. }
    lia.
Qed.

(** [clamp] returns one of its three arguments. *)
Lemma clamp_choice (value min max : Q) :
  clamp value min max = min \/ clamp value min max = max \/
  clamp value min max = value.
Proof.
  unfold clamp, Math_max, Math_min.
  destruct (Qle_bool max value); destruct (Qle_bool min _); auto.
Qed.

(** X20.  [updateTimelineSeconds] sets a timeline length that is a whole
    number of seconds between 10 and 600, within half a second of the
    value given when that lies between 10 and 600, and clamps every event
    to it; the students and the tick stay.  Every event must have a
    duration. *)
Theorem updateTimelineSeconds_spec (st : AppState.t) (value : Q) :
  (forall e, In e (AppState.events st) -> ExEvent.duration e <> None) ->
  exists st',
    updateTimelineSeconds st value = Some st' /\
    10 <= AppState.timelineSeconds st' /\
    AppState.timelineSeconds st' <= 600 /\
    (exists seconds, AppState.timelineSeconds st' = inject_Z seconds) /\
    (10 <= value -> value <= 600 ->
       value - (1 # 2) < AppState.timelineSeconds st' /\
       AppState.timelineSeconds st' <= value + (1 # 2)) /\
    AppState.students st' = AppState.students st /\
    AppState.timeStep st' = AppState.timeStep st /\
    Forall2 (clamped (AppState.timelineSeconds st') (AppState.timeStep st))
            (AppState.events st) (AppState.events st').
Proof.
  intros Hd. unfold updateTimelineSeconds. cbv zeta.
  set (nextSeconds := clamp (Math_round value) 10 600).
  destruct (clampEventsToTimeline_clamped (AppState.events st) nextSeconds
              (AppState.timeStep st) Hd) as (events' & -> & Hf).
  eexists. split; [reflexivity |].
  cbn [AppState.students AppState.events AppState.timelineSeconds
       AppState.timeStep].
  destruct (clamp_range (Math_round value) 10 600) as (C1 & C2 & C3).
  fold nextSeconds in C1, C2, C3.
  split; [exact C1 |]. split; [apply C2; lra |]. split; [| split].
  - destruct (clamp_choice (Math_round value) 10 600) as [H | [H | H]];
      fold nextSeconds in H; rewrite H.
    + now exists 10%Z.
    + now exists 600%Z.
    + eexists. reflexivity.
  - intros Hlo Hhi.
    destruct (Math_round_between value 10 600) as [R1 R2]; [exact Hlo | exact Hhi |].
    change (inject_Z 10) with 10 in R1. change (inject_Z 600) with 600 in R2.
    specialize (C3 R1 R2). destruct (Math_round_near value) as [N1 N2].
    split; lra.
  - split; [reflexivity |]. split; [reflexivity | exact Hf].
Qed.

Lemma retimeEvent_retimed (timelineSeconds nextStep : Q) (e : ExEvent.t) :
  ExEvent.duration e <> None ->
  exists e', retimeEvent timelineSeconds nextStep e = Some e' /\
             retimed timelineSeconds nextStep e e'.
Proof.
  intros Hd. unfold retimeEvent.
  destruct (ExEvent.duration e) as [d |] eqn:Ed; [| congruence]. cbv zeta.
  eexists. split; [reflexivity |]. unfold retimed.
  cbn [ExEvent.id ExEvent.studentId ExEvent.skillType ExEvent.skillId
       ExEvent.start ExEvent.duration ExEvent.target ExEvent.targetStudentIds
       ExEvent.buffTargets].
  repeat (split; [reflexivity |]).
  set (nextStart :=
         clamp (Math_round (ExEvent.start e / nextStep) * nextStep) 0
               timelineSeconds).
  set (bound := Math_max nextStep (timelineSeconds - nextStart)).
  eexists. split; [reflexivity |].
  destruct (clamp_range (Math_round (ExEvent.start e / nextStep) * nextStep)
              0 timelineSeconds) as (S1 & S2 & _).
  fold nextStart in S1, S2.
  destruct (clamp_range (Math_round (d / nextStep) * nextStep) nextStep bound)
    as (D1 & D2 & _).
  assert (Hbound : nextStep <= bound /\
                   (nextStep <= timelineSeconds - nextStart ->
                    bound == timelineSeconds - nextStart)).
  { unfold bound.
    destruct (Math_max_spec nextStep (timelineSeconds - nextStart))
      as [[H ->] | [H ->]]; split; intros; lra. }
  destruct Hbound as [B1 B2]. specialize (D2 B1).
  split; [exact S1 |]. split; [exact S2 |]. split; [exact D1 |].
  intros Hfit. specialize (B2 Hfit). lra.
Qed.

Lemma map_defined_Forall2 {A B : Type} (f : A -> option B) (R : A -> B -> Prop)
  (l : list A) :
  (forall x, In x l -> exists y, f x = Some y /\ R x y) ->
  exists l', map_defined f l = Some l' /\ Forall2 R l l'.
Proof.
  induction l as [| x l IH]; intros H.
  - exists []. split; [reflexivity | constructor].
  - destruct (H x (or_introl eq_refl)) as (y & Hy & HR).
    destruct IH as (l' & Hl' & Hf); [intros z Hz; apply H; now right |].
    exists (y :: l'). cbn [map_defined]. rewrite Hy, Hl'.
    split; [reflexivity | now constructor].
Qed.

(** X21.  [updateTimeStep] sets a tick between 0.05 and 1 and re-times
    every event to it: identity, skill and targets are kept; the start is
    not negative and is within a timeline that is not negative; the
    duration is at least one tick, and the event ends within the timeline
    when one tick still fits after its start.  The students and the
    timeline length stay.  Every event must have a duration. *)
Theorem updateTimeStep_spec (st : AppState.t) (value : Q) :
  (forall e, In e (AppState.events st) -> ExEvent.duration e <> None) ->
  exists st',
    updateTimeStep st value = Some st' /\
    1 # 20 <= AppState.timeStep st' /\ AppState.timeStep st' <= 1 /\
    AppState.students st' = AppState.students st /\
    AppState.timelineSeconds st' = AppState.timelineSeconds st /\
    Forall2 (retimed (AppState.timelineSeconds st) (AppState.timeStep st'))
            (AppState.events st) (AppState.events st').
Proof.
  intros Hd. unfold updateTimeStep. cbv zeta.
  destruct (map_defined_Forall2
              (retimeEvent (AppState.timelineSeconds st) (nextStepOf value))
              (retimed (AppState.timelineSeconds st) (nextStepOf value))
              (AppState.events st)) as (events' & -> & Hf).
  { intros e He. apply retimeEvent_retimed. now apply Hd. }
  eexists. split; [reflexivity |].
  cbn [AppState.students AppState.events AppState.timelineSeconds
       AppState.timeStep].
  destruct (clamp_range (Math_round (value * 100) / 100) (1 # 20) 1)
    as (C1 & C2 & _).
  fold (nextStepOf value) in C1, C2.
  split; [exact C1 |]. split; [apply C2; lra |].
  split; [reflexivity |]. split; [reflexivity | exact Hf].
Qed.

End Engine.

(** * Examples *)

(** ** The collation by code units *)

Lemma String_compare_trans (a b c : string) :
  String.compare a b = Lt -> String.compare b c = Lt ->
  String.compare a c = Lt.
Proof.
  revert b c. induction a as [| x a IH]; intros [| y b] [| z c]; simpl;
    try congruence.
  unfold Ascii.compare.
  destruct (N.compare_spec (N_of_ascii x) (N_of_ascii y)) as [Hxy | Hxy | Hxy];
    destruct (N.compare_spec (N_of_ascii y) (N_of_ascii z)) as [Hyz | Hyz | Hyz];
    try discriminate; intros H1 H2.
  - rewrite Hxy, Hyz, N.compare_refl. now apply IH with b.
  - rewrite Hxy. now apply N.compare_lt_iff in Hyz as ->.
  - rewrite <- Hyz. now apply N.compare_lt_iff in Hxy as ->.
  - assert (H : (N_of_ascii x < N_of_ascii z)%N) by lia.
    now apply N.compare_lt_iff in H as ->.
Qed.

Lemma String_compare_total_order : total_order String.compare.
Proof.
  repeat split.
  - intros a b. apply String.compare_antisym.
  - apply String_compare_trans.
  - intros a b. apply String.compare_eq_iff.
Qed.

(** Closed lists of distinct strings. *)
Ltac nodup_strings :=
  repeat (apply NoDup_cons; [simpl; intuition discriminate |]);
  apply NoDup_nil.

(** ** The Overwrite Resolution Engine *)

(** C1, counterexample.  Two instances of one slot with the same id and
    the same start: of the two input orders each keeps another
    instance, so the outputs are not the same set. *)
Lemma applyOverwriteRules_order_dependent :
  Permutation [ex_instance "x" SAtk 0 5; ex_instance "x" SAtk 0 10]
              [ex_instance "x" SAtk 0 10; ex_instance "x" SAtk 0 5] /\
  applyOverwriteRules String.compare
    [ex_instance "x" SAtk 0 5; ex_instance "x" SAtk 0 10] =
  [ex_instance "x" SAtk 0 10] /\
  applyOverwriteRules String.compare
    [ex_instance "x" SAtk 0 10; ex_instance "x" SAtk 0 5] =
  [ex_instance "x" SAtk 0 5] /\
  ~ Permutation [ex_instance "x" SAtk 0 10] [ex_instance "x" SAtk 0 5].
Proof.
  split; [apply perm_swap |]. split; [reflexivity |].
  split; [reflexivity |].
  intros H. apply Permutation_length_1 in H. discriminate H.
Qed.

(** C1, witness: two overlapping instances of one slot with distinct
    ids, in both orders. *)
Lemma applyOverwriteRules_slots_witness :
  total_order String.compare /\
  Permutation [ex_instance "x" SAtk 0 5; ex_instance "y" SAtk 0 10]
              [ex_instance "y" SAtk 0 10; ex_instance "x" SAtk 0 5] /\
  (forall a b,
     In a [ex_instance "x" SAtk 0 5; ex_instance "y" SAtk 0 10] ->
     In b [ex_instance "x" SAtk 0 5; ex_instance "y" SAtk 0 10] ->
     tied a b -> a = b) /\
  Permutation
    (applyOverwriteRules String.compare
       [ex_instance "x" SAtk 0 5; ex_instance "y" SAtk 0 10])
    (applyOverwriteRules String.compare
       [ex_instance "y" SAtk 0 10; ex_instance "x" SAtk 0 5]).
Proof.
  assert (Hp : Permutation
                 [ex_instance "x" SAtk 0 5; ex_instance "y" SAtk 0 10]
                 [ex_instance "y" SAtk 0 10; ex_instance "x" SAtk 0 5])
    by apply perm_swap.
  assert (Ht : forall a b,
             In a [ex_instance "x" SAtk 0 5; ex_instance "y" SAtk 0 10] ->
             In b [ex_instance "x" SAtk 0 5; ex_instance "y" SAtk 0 10] ->
             tied a b -> a = b).
  { intros a b [<- | [<- | []]] [<- | [<- | []]] (_ & _ & Hid);
      try reflexivity; discriminate Hid. }
  split; [exact String_compare_total_order |].
  split; [exact Hp |]. split; [exact Ht |].
  exact (proj2 (applyOverwriteRules_slots String.compare)
               String_compare_total_order _ _ Hp Ht).
Defined.

(** ** The Target Resolver *)

(** C3, counterexample.  The effect definition has a target mode of its
    own, [student], and no id list; the cast event carries the id list
    [s.b].  The resolver yields the owner [s.a]; a chain through the cast
    event's ids would yield [s.b]. *)
Lemma targetResolver_not_a_chain :
  targetMode ex_event_stale ex_buff_student = MStudent /\
  rawTargets ["s.a"; "s.b"] ex_event_stale ex_buff_student = ["s.a"] /\
  finalTargets ["s.a"; "s.b"] ex_event_stale ex_buff_student = ["s.a"] /\
  studentTargets_chain ex_event_stale ex_buff_student = ["s.b"].
Proof. repeat split. Qed.

(** C3, witness: the student-mode branch of an effect definition with a
    target mode of its own. *)
Lemma targetResolver_contract_witness :
  targetMode ex_event_stale ex_buff_student = MStudent /\
  has_length (overrideIds ex_event_stale ex_buff_student) = false /\
  Buff.target ex_buff_student = Some MStudent /\
  rawTargets ["s.a"; "s.b"] ex_event_stale ex_buff_student =
  ids_or (Buff.targetStudentIds ex_buff_student)
         [ExEvent.studentId ex_event_stale].
Proof.
  split; [reflexivity |]. split; [reflexivity |]. split; [reflexivity |].
  destruct (targetResolver_contract ["s.a"; "s.b"] ex_event_stale
              ex_buff_student) as (_ & _ & _ & _ & _ & _ & Hstudent & _).
  destruct (Hstudent eq_refl) as [_ Hfallback].
  destruct (Hfallback eq_refl) as [Hown _].
  exact (Hown MStudent eq_refl).
Defined.

(** C8, counterexample.  The cast event names [s.b] twice: the resolver
    yields [s.b] twice and the expander emits two instances with one
    id. *)
Lemma targetResolver_keeps_repeats :
  finalTargets ["s.a"; "s.b"] ex_event_twice ex_buff = ["s.b"; "s.b"] /\
  map BuffInstance.id
    (buildBuffInstances ex_students [ex_event_twice] [] [] 60 (1 # 10)) =
  ["e1:b1:s.b"; "e1:b1:s.b"] /\
  ~ NoDup (finalTargets ["s.a"; "s.b"] ex_event_twice ex_buff).
Proof.
  split; [reflexivity |]. split; [reflexivity |].
  intros H. apply NoDup_cons_iff in H as [H _]. apply H. now left.
Qed.

(** C8, witness: a cast that names each of two students once. *)
Lemma targetResolver_nodup_witness :
  NoDup ["s.a"; "s.b"] /\
  (forall ids, overrideIds ex_event_both ex_buff = Some ids -> NoDup ids) /\
  (forall ids, Buff.targetStudentIds ex_buff = Some ids -> NoDup ids) /\
  (forall ids, ExEvent.targetStudentIds ex_event_both = Some ids ->
     NoDup ids) /\
  NoDup (finalTargets ["s.a"; "s.b"] ex_event_both ex_buff).
Proof.
  assert (H0 : NoDup ["s.a"; "s.b"]).
  { nodup_strings. }
  assert (H1 : forall ids,
             overrideIds ex_event_both ex_buff = Some ids -> NoDup ids)
    by (intros ids H; discriminate H).
  assert (H2 : forall ids,
             Buff.targetStudentIds ex_buff = Some ids -> NoDup ids)
    by (intros ids H; discriminate H).
  assert (H3 : forall ids,
             ExEvent.targetStudentIds ex_event_both = Some ids -> NoDup ids).
  { intros ids [= <-]. nodup_strings. }
  repeat (split; [assumption |]).
  exact (proj1 (targetResolver_nodup ["s.a"; "s.b"] ex_event_both ex_buff
                  H0 H1 H2 H3)).
Defined.

(** ** The Instance Expander *)



(** C5, counterexample.  A skill dropped at the end of a timeline of 60:
    the expander emits the instance [60, 60), whose clipped end is not
    after its start; [applyOverwriteRules] drops it. *)
Lemma expander_emits_empty :
  handleDrop ex_students [] (1 # 10) "s.a" Ex "ex1" 60 "e1" =
  [ex_event_late] /\
  map (fun r => (BuffInstance.start r, BuffInstance.end_ r))
    (buildBuffInstances ex_students [ex_event_late] [] [] 60 (1 # 10)) =
  [(60, 60)] /\
  applyOverwriteRules String.compare
    (buildBuffInstances ex_students [ex_event_late] [] [] 60 (1 # 10)) = [].
Proof. repeat split. Qed.

(** C5, witness: the resolved instance of one cast ends within the
    timeline and after it starts. *)
Lemma pipeline_clipping_witness :
  In (ex_instance "e1:b1:s.a" SAtk 0 (0 + 5))
     (applyOverwriteRules String.compare
        (buildBuffInstances ex_students [ex_event] [] [] 60 (1 # 10))) /\
  BuffInstance.end_ (ex_instance "e1:b1:s.a" SAtk 0 (0 + 5)) <= 60 /\
  BuffInstance.start (ex_instance "e1:b1:s.a" SAtk 0 (0 + 5)) <
  BuffInstance.end_ (ex_instance "e1:b1:s.a" SAtk 0 (0 + 5)).
Proof.
  assert (Hin : In (ex_instance "e1:b1:s.a" SAtk 0 (0 + 5))
                   (applyOverwriteRules String.compare
                      (buildBuffInstances ex_students [ex_event] [] [] 60
                         (1 # 10)))) by (now left).
  split; [exact Hin |].
  exact (proj1 (proj2 (pipeline_clipping String.compare ex_students
                         [ex_event] [] [] 60 (1 # 10))) _ Hin).
Defined.

(** ** Lane Assignment *)

(** C6, counterexample.  Two resolved instances of one target, in
    different slots, with the same id and the same interval: the lane map
    has one entry for the id, so both are given lane 1, where they
    overlap. *)
Lemma buildBuffLanes_shared_id :
  applyOverwriteRules String.compare
    [ex_instance "x" SAtk 0 10; ex_instance "x" SCrit 0 10] =
  [ex_instance "x" SAtk 0 10; ex_instance "x" SCrit 0 10] /\
  buildBuffLanes [ex_instance "x" SAtk 0 10; ex_instance "x" SCrit 0 10] =
  mkLanes [("x", 1%nat)] 2 /\
  laneOf
    (laneMap
       (buildBuffLanes [ex_instance "x" SAtk 0 10; ex_instance "x" SCrit 0 10]))
    (ex_instance "x" SAtk 0 10) = Some 1%nat /\
  laneOf
    (laneMap
       (buildBuffLanes [ex_instance "x" SAtk 0 10; ex_instance "x" SCrit 0 10]))
    (ex_instance "x" SCrit 0 10) = Some 1%nat /\
  ex_instance "x" SAtk 0 10 <> ex_instance "x" SCrit 0 10 /\
  ~ (before (ex_instance "x" SAtk 0 10) (ex_instance "x" SCrit 0 10) \/
     before (ex_instance "x" SCrit 0 10) (ex_instance "x" SAtk 0 10)).
Proof.
  repeat split; try discriminate.
  intros [H | H]; apply H; reflexivity.
Qed.

(** C6, witness: three instances with distinct ids, of which two are
    live together. *)
Lemma buildBuffLanes_spec_witness :
  (forall b,
     In b [ex_instance "x" SAtk 0 10; ex_instance "y" SCrit 5 15;
           ex_instance "z" SAtk 10 20] ->
     BuffInstance.start b < BuffInstance.end_ b) /\
  NoDup (map BuffInstance.id
           [ex_instance "x" SAtk 0 10; ex_instance "y" SCrit 5 15;
            ex_instance "z" SAtk 10 20]) /\
  (forall a b,
     In a [ex_instance "x" SAtk 0 10; ex_instance "y" SCrit 5 15;
           ex_instance "z" SAtk 10 20] ->
     In b [ex_instance "x" SAtk 0 10; ex_instance "y" SCrit 5 15;
           ex_instance "z" SAtk 10 20] ->
     a <> b ->
     laneOf
       (laneMap
          (buildBuffLanes
             [ex_instance "x" SAtk 0 10; ex_instance "y" SCrit 5 15;
              ex_instance "z" SAtk 10 20])) a =
     laneOf
       (laneMap
          (buildBuffLanes
             [ex_instance "x" SAtk 0 10; ex_instance "y" SCrit 5 15;
              ex_instance "z" SAtk 10 20])) b ->
     before a b \/ before b a) /\
  laneCount
    (buildBuffLanes
       [ex_instance "x" SAtk 0 10; ex_instance "y" SCrit 5 15;
        ex_instance "z" SAtk 10 20]) = 2%nat.
Proof.
  assert (Hpos : forall b,
             In b [ex_instance "x" SAtk 0 10; ex_instance "y" SCrit 5 15;
                   ex_instance "z" SAtk 10 20] ->
             BuffInstance.start b < BuffInstance.end_ b)
    by (intros b [<- | [<- | [<- | []]]]; reflexivity).
  assert (Hids : NoDup (map BuffInstance.id
                          [ex_instance "x" SAtk 0 10;
                           ex_instance "y" SCrit 5 15;
                           ex_instance "z" SAtk 10 20]))
    by (simpl; nodup_strings).
  split; [exact Hpos |]. split; [exact Hids |].
  split; [| reflexivity].
  exact (proj1 (proj2 (buildBuffLanes_spec _ Hpos Hids))).
Defined.

(** ** The snapshot codec *)



(** ** The application around the engine *)

(** X8, witness: one event within the timeline. *)
Lemma clampEventsToTimeline_spec_witness :
  (forall e, In e [ex_event] -> ExEvent.duration e <> None) /\
  exists events',
    clampEventsToTimeline [ex_event] 60 (1 # 10) = Some events' /\
    Forall2 (clamped 60 (1 # 10)) [ex_event] events'.
Proof.
  assert (Hd : forall e, In e [ex_event] -> ExEvent.duration e <> None)
    by (intros e [<- | []]; discriminate).
  split; [exact Hd |].
  exact (clampEventsToTimeline_spec [ex_event] 60 (1 # 10) Hd).
Defined.

(** X10, witness: the raw instance of one cast. *)
Lemma buildBuffInstances_universe_witness :
  In (ex_instance "e1:b1:s.a" SAtk 0 (0 + 5))
     (buildBuffInstances ex_students [ex_event] [] [] 60 (1 # 10)) /\
  In (BuffInstance.sourceStudentId (ex_instance "e1:b1:s.a" SAtk 0 (0 + 5)))
     (map Student.id ex_students) /\
  In (BuffInstance.studentId (ex_instance "e1:b1:s.a" SAtk 0 (0 + 5)))
     (map Student.id ex_students ++ [ENEMY_ID]).
Proof.
  assert (Hin : In (ex_instance "e1:b1:s.a" SAtk 0 (0 + 5))
                   (buildBuffInstances ex_students [ex_event] [] [] 60
                      (1 # 10))) by (now left).
  split; [exact Hin |].
  destruct (buildBuffInstances_universe String.compare ex_students [ex_event]
              [] [] 60 (1 # 10) _ (or_introl Hin)) as (Hsrc & Htgt & _).
  split; assumption.
Defined.

(** X11, witness: removing a student whom a cast of another student
    names as a target. *)
Lemma removeStudent_spec_witness :
  "s.b" <> ENEMY_ID /\
  map BuffInstance.studentId
    (buffInstances String.compare (ex_state [ex_event_both])) =
  ["s.b"; "s.a"] /\
  forall o,
    In o (buffInstances String.compare
            (removeStudent (ex_state [ex_event_both]) "s.b")) ->
    BuffInstance.studentId o <> "s.b" /\
    BuffInstance.sourceStudentId o <> "s.b".
Proof.
  assert (Hne : "s.b" <> ENEMY_ID) by discriminate.
  split; [exact Hne |]. split; [reflexivity |].
  exact (proj1 (proj2 (proj2 (removeStudent_spec String.compare
                                (ex_state [ex_event_both]) "s.b" Hne)))).
Defined.

(** X13, witness: a buff live over [0, 10) overwritten at 5 by one that
    is over at 8. *)
Lemma applyOverwriteRules_overwrite_witness :
  slotKey (ex_instance "x" SAtk 0 10) = slotKey (ex_instance "y" SAtk 5 8) /\
  BuffInstance.start (ex_instance "x" SAtk 0 10) <
  BuffInstance.start (ex_instance "y" SAtk 5 8) /\
  BuffInstance.start (ex_instance "y" SAtk 5 8) <
  BuffInstance.end_ (ex_instance "x" SAtk 0 10) /\
  BuffInstance.start (ex_instance "y" SAtk 5 8) <
  BuffInstance.end_ (ex_instance "y" SAtk 5 8) /\
  applyOverwriteRules String.compare
    [ex_instance "y" SAtk 5 8; ex_instance "x" SAtk 0 10] =
  [ex_instance "x" SAtk 0 5; ex_instance "y" SAtk 5 8].
Proof.
  assert (H1 : slotKey (ex_instance "x" SAtk 0 10) =
               slotKey (ex_instance "y" SAtk 5 8)) by reflexivity.
  assert (H2 : BuffInstance.start (ex_instance "x" SAtk 0 10) <
               BuffInstance.start (ex_instance "y" SAtk 5 8)) by reflexivity.
  assert (H3 : BuffInstance.start (ex_instance "y" SAtk 5 8) <
               BuffInstance.end_ (ex_instance "x" SAtk 0 10)) by reflexivity.
  assert (H4 : BuffInstance.start (ex_instance "y" SAtk 5 8) <
               BuffInstance.end_ (ex_instance "y" SAtk 5 8)) by reflexivity.
  repeat (split; [assumption |]).
  exact (proj2 (applyOverwriteRules_overwrite String.compare _ _ H1 H2 H3 H4)).
Defined.

(** X15, witness: the owner of a cast, queried at the end of the
    timeline. *)
Lemma inspectStats_after_timeline_witness :
  AppState.timelineSeconds (ex_state [ex_event]) <= 60 /\
  exists stats,
    inspectStats String.compare (ex_state [ex_event]) "s.a" 60 = Some stats /\
    active stats = [] /\
    forall stat, statOf stat (computed stats) == statOf stat ex_stats.
Proof.
  assert (Hlate : AppState.timelineSeconds (ex_state [ex_event]) <= 60)
    by discriminate.
  split; [exact Hlate |].
  exact (inspectStats_after_timeline String.compare (ex_state [ex_event])
           "s.a" 60 Hlate (StatTarget.mk "s.a" ex_stats) eq_refl).
Defined.

(** X20, witness: a length of 22.5 seconds is set as 23. *)
Lemma updateTimelineSeconds_spec_witness :
  (forall e, In e (AppState.events (ex_state [ex_event])) ->
     ExEvent.duration e <> None) /\
  option_map AppState.timelineSeconds
    (updateTimelineSeconds (ex_state [ex_event]) (45 # 2)) = Some 23 /\
  exists st',
    updateTimelineSeconds (ex_state [ex_event]) (45 # 2) = Some st' /\
    10 <= AppState.timelineSeconds st' /\
    AppState.timelineSeconds st' <= 600.
Proof.
  assert (Hd : forall e, In e (AppState.events (ex_state [ex_event])) ->
                 ExEvent.duration e <> None)
    by (intros e [<- | []]; discriminate).
  split; [exact Hd |]. split; [reflexivity |].
  destruct (updateTimelineSeconds_spec (ex_state [ex_event]) (45 # 2) Hd)
    as (st' & Hst & Hlo & Hhi & _).
  exists st'. repeat split; assumption.
Defined.

(** X21, witness: a tick of 0.25 seconds. *)
Lemma updateTimeStep_spec_witness :
  (forall e, In e (AppState.events (ex_state [ex_event])) ->
     ExEvent.duration e <> None) /\
  exists st',
    updateTimeStep (ex_state [ex_event]) (1 # 4) = Some st' /\
    1 # 20 <= AppState.timeStep st' /\ AppState.timeStep st' <= 1.
Proof.
  assert (Hd : forall e, In e (AppState.events (ex_state [ex_event])) ->
                 ExEvent.duration e <> None)
    by (intros e [<- | []]; discriminate).
  split; [exact Hd |].
  destruct (updateTimeStep_spec (ex_state [ex_event]) (1 # 4) Hd)
    as (st' & Hst & Hlo & Hhi & _).
  exists st'. repeat split; assumption.
Defined.

(** X4, witness: the reference host on a text whose base64 form has a
    [+] and padding. *)
Lemma base64Url_codec_witness :
  TextDecoder_ref (TextEncoder_ref "ab~~") = "ab~~" /\
  btoa_ref (binaryOf TextEncoder_ref "ab~~") = "YWJ+fg==" /\
  base64_shape (btoa_ref (binaryOf TextEncoder_ref "ab~~")) = true /\
  atob_ref (btoa_ref (binaryOf TextEncoder_ref "ab~~")) =
  Some (binaryOf TextEncoder_ref "ab~~") /\
  base64UrlEncode TextEncoder_ref btoa_ref "ab~~" = "YWJ-fg" /\
  base64UrlDecode TextDecoder_ref atob_ref
    (base64UrlEncode TextEncoder_ref btoa_ref "ab~~") = Some "ab~~".
Proof.
  assert (H1 : TextDecoder_ref (TextEncoder_ref "ab~~") = "ab~~")
    by reflexivity.
  assert (H2 : base64_shape (btoa_ref (binaryOf TextEncoder_ref "ab~~")) = true)
    by reflexivity.
  assert (H3 : atob_ref (btoa_ref (binaryOf TextEncoder_ref "ab~~")) =
               Some (binaryOf TextEncoder_ref "ab~~")) by reflexivity.
  split; [exact H1 |]. split; [reflexivity |]. split; [exact H2 |].
  split; [exact H3 |]. split; [reflexivity |].
  exact (proj1 (proj2 (proj2 (base64Url_codec TextEncoder_ref TextDecoder_ref
                                btoa_ref atob_ref "ab~~")) H1 H2 H3)).
Defined.
